(** * ADI graphs (adigo): a shallow embedding of the engine and its properties

    The engine is the graph of [internal/adi.go] together with the
    general-purpose node [Box] of the same package.  Nodes are handed to
    the graph as [*Box] pointers, so a node is shared between the caller and
    the node table: the embedding keeps an explicit store of boxes ([heap])
    and the graph's node table holds addresses into it.

    Go's [int] is modelled as [Z] (every integer handled here is bounded by
    a slice length), [byte] as a [Z] kept in [0, 256) by [byte], slices as
    lists, and the label map as a [gmap].  A run-time panic (index out of
    range, method call on a nil interface, division by zero) is the outcome
    [Panic]; the runtime's fatal "all goroutines are asleep" is [Deadlock]. *)

From Stdlib Require Import ZArith Lia.
From stdpp Require Import base list gmap strings.

Local Open Scope Z_scope.

(** ** Outcomes of a call *)

Inductive outcome (A : Type) : Type :=
| Ret (a : A)
| Panic
| Deadlock.
Arguments Ret {A} a.
Arguments Panic {A}.
Arguments Deadlock {A}.

Definition bind {A B : Type} (m : outcome A) (k : A → outcome B) : outcome B :=
  match m with
  | Ret a => k a
  | Panic => Panic
  | Deadlock => Deadlock
  end.

Notation "x <- m ;; k" := (bind m (fun x => k))
  (at level 100, m at next level, right associativity).

Fixpoint foldM {A S : Type} (f : S → A → outcome S) (s : S) (l : list A) : outcome S :=
  match l with
  | [] => Ret s
  | x :: l' => s' <- f s x ;; foldM f s' l'
  end.

(** [s[i]] on a slice: panics outside [0, len). *)
Definition index_slice {A : Type} (l : list A) (i : Z) : outcome A :=
  if i <? 0 then Panic
  else match l !! Z.to_nat i with
       | Some x => Ret x
       | None => Panic
       end.

(** ** Errors, bytes, locators *)

Inductive error : Type :=
| errGraphBoundsMismatch
| errLabelNotFound
| errDeleted.

(** Conversion to [byte]: the low eight bits. *)
Definition byte (z : Z) : Z := z mod 256.

(** [^x] on a byte. *)
Definition byte_not (x : Z) : Z := Z.lxor x 255.

Record Locator : Type := mkLocator { column : Z; offset : Z }.

(** ** Box *)

Record Box : Type := mkBox {
  label : string;
  contents : string;
  adis : list Z;
  deleted : bool
}.

(** Addresses of boxes, and the store they point into. *)
Abbreviation ptr := nat (only parsing).
Abbreviation heap := (list Box) (only parsing).

Definition set_adis (b : Box) (a : list Z) : Box :=
  mkBox (label b) (contents b) a (deleted b).

(** Dereferencing a node; a nil (or otherwise invalid) node panics. *)
Definition deref (h : heap) (p : ptr) : outcome Box :=
  match h !! p with
  | Some b => Ret b
  | None => Panic
  end.

(** [NewBox]: a fresh box with two zero adjacency words. *)
Definition NewBox (l : string) (h : heap) : ptr * heap :=
  (length h, h ++ [mkBox l "" [0; 0] false]).

Definition Label (h : heap) (p : ptr) : outcome string :=
  b <- deref h p ;; Ret (label b).

Definition Edges (h : heap) (p : ptr) : outcome (list Z) :=
  b <- deref h p ;; Ret (adis b).

Definition Deleted (h : heap) (p : ptr) : outcome bool :=
  b <- deref h p ;; Ret (deleted b).

Definition AddColumn (h : heap) (p : ptr) : outcome heap :=
  b <- deref h p ;; Ret (<[p := set_adis b (adis b ++ [0])]> h).

(** [a[col] = f(a[col])]. *)
Definition update_word (f : Z → Z) (a : list Z) (col : Z) : outcome (list Z) :=
  w <- index_slice a col ;; Ret (<[Z.to_nat col := f w]> a).

Definition add_edge (a : list Z) (v : Locator) : outcome (list Z) :=
  update_word (fun w => Z.lor w (offset v)) a (column v).

Definition remove_edge (a : list Z) (v : Locator) : outcome (list Z) :=
  update_word (fun w => Z.land w (byte_not (offset v))) a (column v).

Definition AddEdges (h : heap) (p : ptr) (locators : list Locator) : outcome heap :=
  b <- deref h p ;;
  a <- foldM add_edge (adis b) locators ;;
  Ret (<[p := set_adis b a]> h).

Definition RemoveEdges (h : heap) (p : ptr) (locators : list Locator) : outcome heap :=
  b <- deref h p ;;
  a <- foldM remove_edge (adis b) locators ;;
  Ret (<[p := set_adis b a]> h).

Fixpoint has_all (a : list Z) (locators : list Locator) : outcome bool :=
  match locators with
  | [] => Ret true
  | v :: rest =>
      w <- index_slice a (column v) ;;
      if Z.land w (offset v) =? offset v then has_all a rest else Ret false
  end.

Fixpoint has_any (a : list Z) (locators : list Locator) : outcome bool :=
  match locators with
  | [] => Ret false
  | v :: rest =>
      w <- index_slice a (column v) ;;
      if 0 <? Z.land w (offset v) then Ret true else has_any a rest
  end.

Definition HasEdges (h : heap) (p : ptr) (strict : bool) (locators : list Locator)
  : outcome bool :=
  b <- deref h p ;;
  if strict then has_all (adis b) locators else has_any (adis b) locators.

Definition Delete (h : heap) (p : ptr) : outcome heap :=
  b <- deref h p ;;
  Ret (<[p := mkBox (label b) (contents b) (adis b) true]> h).

(** ** ADIGraph *)

Record ADIGraph : Type := mkGraph {
  growthFactor : Z;
  wordSize : Z;
  nodes : list ptr;
  labels : gmap string Z
}.

(** The zero value with a given word size; [NewGraph] fixes it to 8. *)
Definition empty_graph (w : Z) : ADIGraph := mkGraph 0 w [] ∅.

Definition NewGraph : ADIGraph := empty_graph 8.

(** A lookup's Go result [(node, err)]: either a node with a nil error or a
    nil node with an error. *)
Inductive found : Type :=
| Found (p : ptr)
| Failed (e : error).

Definition Size (g : ADIGraph) : Z := Z.of_nat (length (nodes g)).

Definition GetByIndex (g : ADIGraph) (index : Z) : outcome found :=
  if index =? -1 then Ret (Failed errDeleted)
  else p <- index_slice (nodes g) index ;; Ret (Found p).

Definition GetByLabel (g : ADIGraph) (l : string) : outcome found :=
  match labels g !! l with
  | Some index => GetByIndex g index
  | None => Ret (Failed errLabelNotFound)
  end.

(** [n / wordSize] and [n % wordSize] truncate towards zero and panic on a
    zero divisor; the mask is the byte [1 << byte(offset)]. *)
Definition GetLocatorsByIndex (g : ADIGraph) (n : Z) : outcome (Locator * option error) :=
  if n =? -1 then Ret (mkLocator 0 0, Some errDeleted)
  else if wordSize g =? 0 then Panic
  else
    let column := Z.quot n (wordSize g) in
    let offset := Z.rem n (wordSize g) in
    Ret (mkLocator column (byte (Z.shiftl 1 (byte offset))), None).

Definition GetLocatorsByLabel (g : ADIGraph) (l : string) : outcome (Locator * option error) :=
  match labels g !! l with
  | Some index => GetLocatorsByIndex g index
  | None => Ret (mkLocator 0 0, Some errLabelNotFound)
  end.

(** [Grow]: one more column on every node of the table. *)
Definition Grow (g : ADIGraph) (h : heap) : outcome (ADIGraph * heap) :=
  h' <- foldM AddColumn h (nodes g) ;;
  Ret (mkGraph (growthFactor g + 1) (wordSize g) (nodes g) (labels g), h').

(** The two statements shared by both branches of [AddNode]. *)
Definition append_node (g : ADIGraph) (l : string) (n : ptr) : ADIGraph :=
  mkGraph (growthFactor g) (wordSize g) (nodes g ++ [n])
          (<[l := Size g]> (labels g)).

Definition AddNode (g : ADIGraph) (h : heap) (n : ptr) : outcome (ADIGraph * heap) :=
  if Size g >? wordSize g - 1 then
    if wordSize g =? 0 then Panic
    else if Z.rem (Size g) (wordSize g) =? 0 then
      l <- Label h n ;; Grow (append_node g l n) h
    else
      l <- Label h n ;; Ret (append_node g l n, h)
  else
    l <- Label h n ;; Ret (append_node g l n, h).

(** [Connect]: locators of the targets that resolve, then one [AddEdges]
    per locator on the source. *)
Fixpoint resolve_locations (g : ADIGraph) (neighbors : list string)
  : outcome (list Locator) :=
  match neighbors with
  | [] => Ret []
  | v :: rest =>
      r <- GetLocatorsByLabel g v ;;
      locs <- resolve_locations g rest ;;
      match snd r with
      | None => Ret (fst r :: locs)
      | Some _ => Ret locs
      end
  end.

Definition Connect (g : ADIGraph) (h : heap) (l : string) (neighbors : list string)
  : outcome (option error * heap) :=
  r <- GetByLabel g l ;;
  match r with
  | Failed _ => Ret (Some errLabelNotFound, h)
  | Found item =>
      locations <- resolve_locations g neighbors ;;
      h' <- foldM (fun h0 v => AddEdges h0 item [v]) h locations ;;
      Ret (None, h')
  end.

Definition DeleteByIndex (g : ADIGraph) (h : heap) (index : Z)
  : outcome (ADIGraph * heap) :=
  r <- GetByIndex g index ;;
  match r with
  | Failed _ => Panic
  | Found n =>
      name <- Label h n ;;
      let g' := mkGraph (growthFactor g) (wordSize g) (nodes g)
                        (<[name := -1]> (labels g)) in
      h1 <- Delete h n ;;
      locs <- GetLocatorsByIndex g' index ;;
      h2 <- foldM (fun h0 q => RemoveEdges h0 q [fst locs]) h1 (nodes g') ;;
      Ret (g', h2)
  end.

Definition DeleteByLabel (g : ADIGraph) (h : heap) (l : string)
  : outcome (option error * (ADIGraph * heap)) :=
  match labels g !! l with
  | Some index =>
      s <- DeleteByIndex g h index ;; Ret (None, s)
  | None => Ret (Some errLabelNotFound, (g, h))
  end.

(** ** Neighbor resolution

    [Neighbors] starts one goroutine per (column, bit) pair; each runs
    [lookup] and, on a hit, sends the node on a channel buffered for
    [len(g.nodes)] nodes.  The goroutines touch nothing shared but the
    channel, so a run is the list of tasks taken in the order in which the
    scheduler lets them reach the channel.  A scheduler's choice is a list
    of insertion positions ([schedule]), which yields every order of the
    tasks and nothing else. *)

Definition insert_at {A : Type} (k : nat) (x : A) (l : list A) : list A :=
  take k l ++ x :: drop k l.

Fixpoint schedule {A : Type} (choice : list nat) (tasks : list A) : list A :=
  match tasks with
  | [] => []
  | t :: ts =>
      match choice with
      | [] => t :: schedule [] ts
      | k :: ks => insert_at k t (schedule ks ts)
      end
  end.

(** [ch <- node] on a channel of capacity [cap] that nobody reads before all
    goroutines are done: a send on a full channel blocks for ever. *)
Definition send (cap : nat) (ch : list ptr) (node : ptr) : outcome (list ptr) :=
  if bool_decide (length ch < cap)%nat then Ret (ch ++ [node]) else Deadlock.

(** One goroutine: [task] is [(col, adi, offset)], [ch] the contents of the
    channel when the goroutine gets to it. *)
Definition lookup (g : ADIGraph) (cap : nat) (ch : list ptr) (task : Z * Z * Z)
  : outcome (list ptr) :=
  let '(col, adi, offset) := task in
  (* an [int] of which only the low byte is used *)
  let checkbit := Z.shiftl 1 (byte offset) in
  if negb (Z.land adi (byte checkbit) =? 0) then
    let index := col * wordSize g + offset in
    r <- GetByIndex g index ;;
    match r with
    | Found node => send cap ch node
    | Failed _ => Ret ch
    end
  else Ret ch.

(** The tasks in the order of the two nested loops. *)
Definition spawn (w : Z) (adis : list Z) : list (Z * Z * Z) :=
  mjoin (imap (fun i adi => (fun j => (Z.of_nat i, adi, j)) <$> seqZ 0 w) adis).

Definition Neighbors (choice : list nat) (g : ADIGraph) (h : heap) (n : ptr)
  : outcome (list ptr) :=
  adis <- Edges h n ;;
  foldM (lookup g (length (nodes g))) [] (schedule choice (spawn (wordSize g) adis)).

(** ** Reachability search

    The loop of [BFS] need not terminate, so it takes fuel: [None] means the
    loop is still running when the fuel is spent.  [sched k] is the
    scheduler's choice at the [k]-th call of [Neighbors]. *)

Fixpoint BFS_loop (fuel : nat) (sched : nat → list nat) (k : nat)
    (g : ADIGraph) (h : heap) (bLoc : Locator) (queue : list ptr)
  : option (outcome bool) :=
  match queue with
  | [] => Some (Ret false)
  | q0 :: rest =>
      match fuel with
      | O => None
      | S fuel' =>
          match HasEdges h q0 false [bLoc] with
          | Ret true => Some (Ret true)
          | Ret false =>
              match Neighbors (sched k) g h q0 with
              | Ret items => BFS_loop fuel' sched (S k) g h bLoc (rest ++ items)
              | Panic => Some Panic
              | Deadlock => Some Deadlock
              end
          | Panic => Some Panic
          | Deadlock => Some Deadlock
          end
      end
  end.

Definition BFS (fuel : nat) (sched : nat → list nat) (g : ADIGraph) (h : heap)
    (a b : ptr) : option (outcome bool) :=
  match (lb <- Label h b ;; GetLocatorsByLabel g lb) with
  | Ret (bLoc, _) =>
      match HasEdges h a false [bLoc] with
      | Ret true => Some (Ret true)
      | Ret false =>
          match Neighbors (sched O) g h a with
          | Ret items => BFS_loop fuel sched 1 g h bLoc items
          | Panic => Some Panic
          | Deadlock => Some Deadlock
          end
      | Panic => Some Panic
      | Deadlock => Some Deadlock
      end
  | Panic => Some Panic
  | Deadlock => Some Deadlock
  end.

(** ** Programs over the public API

    A client owns one graph and the boxes it has built.  [CallNewBox]
    allocates a box (its pointer is the next free address), the other calls
    are the graph's mutating methods; a call that panics ends the run.
    Clients that create several graphs and may hand one box to more than
    one of them are [client_run], further down. *)

Inductive call : Type :=
| CallNewBox (l : string)
| CallAddNode (n : ptr)
| CallConnect (l : string) (neighbors : list string)
| CallDeleteByIndex (index : Z)
| CallDeleteByLabel (l : string).

Abbreviation world := (ADIGraph * list Box)%type (only parsing).

Definition step (w : world) (c : call) : outcome world :=
  let '(g, h) := w in
  match c with
  | CallNewBox l => Ret (g, snd (NewBox l h))
  | CallAddNode n => AddNode g h n
  | CallConnect l neighbors => r <- Connect g h l neighbors ;; Ret (g, snd r)
  | CallDeleteByIndex index => DeleteByIndex g h index
  | CallDeleteByLabel l => r <- DeleteByLabel g h l ;; Ret (snd r)
  end.

Definition run (w : world) (calls : list call) : outcome world := foldM step w calls.

Definition reachable (w : world) : Prop :=
  ∃ calls, run (NewGraph, []) calls = Ret w.

(** [graph.AddNode(NewBox(l))] for each label in turn, as the demonstration
    driver does. *)
Definition add_fresh (w : world) (l : string) : outcome world :=
  let '(n, h') := NewBox l (snd w) in AddNode (fst w) h' n.

Definition build (w : Z) (ls : list string) : outcome world :=
  foldM add_fresh (empty_graph w, []) ls.

(** Labels ["Node 0"], ["Node 1"], ... of the driver, for indices below 100. *)
Definition digit (n : nat) : string :=
  match n with
  | 0 => "0" | 1 => "1" | 2 => "2" | 3 => "3" | 4 => "4"
  | 5 => "5" | 6 => "6" | 7 => "7" | 8 => "8" | _ => "9"
  end%nat.

Definition node_label (n : nat) : string :=
  ("Node " ++ (if (n <? 10)%nat then digit n
               else digit (n / 10) ++ digit (n mod 10)))%string.

Definition node_labels (k : nat) : list string := node_label <$> seq 0 k.

(** Number of adjacency words of the node at a table index. *)
Definition words_at (w : world) (i : nat) : option nat :=
  p ← nodes (fst w) !! i; b ← snd w !! p; Some (length (adis b)).

(** ** Notions used in the statements *)

(** What [Grow] does to the store: every box gets one zero word per
    occurrence of its address in the node table. *)
Definition same_but_words (extra : nat) (b b' : Box) : Prop :=
  label b' = label b ∧ contents b' = contents b ∧ deleted b' = deleted b ∧
  adis b' = adis b ++ replicate extra 0.

Definition occurrences (p : ptr) (l : list ptr) : nat := count_occ Nat.eq_dec l p.

(** The test of [AddNode], for a positive word size: the table length
    before appending is a positive multiple of the word size. *)
Definition at_capacity (w n : Z) : bool := (0 <? n) && (n mod w =? 0).

(** Number of positive multiples of [w] strictly below [k]: the number of
    growth steps during the first [k] insertions. *)
Definition growths (w k : Z) : Z := Z.max (k - 1) 0 / w.

(** The state after inserting fresh boxes labelled [ls] into an empty graph
    of word size [w]. *)
Definition built (w : Z) (ls : list string) (s : world) : Prop :=
  wordSize (fst s) = w ∧
  nodes (fst s) = seq 0 (length ls) ∧
  length (snd s) = length ls ∧
  growthFactor (fst s) = growths w (Z.of_nat (length ls)) ∧
  ∀ (i : nat) b, snd s !! i = Some b →
    ls !! i = Some (label b) ∧
    Z.of_nat (length (adis b)) =
      2 + growths w (Z.of_nat (length ls)) - growths w (Z.of_nat i).

(** Whether inserting a fresh box labelled [l] after the boxes labelled [ls]
    made the graph grow: the growth factor moved. *)
Definition growth_fired (w : Z) (ls : list string) (l : string) : bool :=
  match build w ls, build w (ls ++ [l]) with
  | Ret (g, _), Ret (g', _) => negb (growthFactor g' =? growthFactor g)
  | _, _ => false
  end.

(** The locator of an index as the specification writes it. *)
Definition locate (w i : Z) : Locator := mkLocator (i / w) (Z.shiftl 1 (i mod w)).

(** Every set bit of a box, bit [k] of word [c], stands for an index
    [c * w + k] inside a node table of the given size. *)
Definition edges_in_range (w size : Z) (b : Box) : Prop :=
  ∀ (c : nat) (word k : Z),
    adis b !! c = Some word → 0 ≤ k < w → Z.testbit word k = true →
    Z.of_nat c * w + k < size.

(** What every state reached through the public API satisfies. *)
Definition well_formed (s : world) : Prop :=
  wordSize (fst s) = 8 ∧
  Forall (fun p => (p < length (snd s))%nat) (nodes (fst s)) ∧
  (∀ l i, labels (fst s) !! l = Some i → i = -1 ∨ 0 ≤ i < Size (fst s)) ∧
  Forall (edges_in_range 8 (Size (fst s))) (snd s).

(** The parts of [lookup]: the bit test, the index it resolves, and the
    node a task sends, if any. *)
Definition task_hit (t : Z * Z * Z) : bool :=
  negb (Z.land t.1.2 (byte (Z.shiftl 1 (byte t.2))) =? 0).

Definition task_index (g : ADIGraph) (t : Z * Z * Z) : Z :=
  t.1.1 * wordSize g + t.2.

Definition task_target (g : ADIGraph) (t : Z * Z * Z) : option ptr :=
  if task_hit t then nodes g !! Z.to_nat (task_index g t) else None.

Definition hit_index (g : ADIGraph) (t : Z * Z * Z) : option Z :=
  if task_hit t then Some (task_index g t) else None.

(** A task never reads outside the node table. *)
Definition task_safe (g : ADIGraph) (t : Z * Z * Z) : Prop :=
  task_hit t = true → 0 ≤ task_index g t < Size g.

(** The locator [Connect] writes for a target label, if the label resolves. *)
Definition resolved (g : ADIGraph) (v : string) : option Locator :=
  match labels g !! v with
  | Some i => if i =? -1 then None else Some (locate (wordSize g) i)
  | None => None
  end.

(** Writing the words of one box. *)
Definition write_word (f : Z → Z) (col : nat) (b : Box) : Box :=
  set_adis b (alter f col (adis b)).

(** [a, _ := g.GetByLabel(from); b, _ := g.GetByLabel(to); g.BFS(a, b)], as
    the driver calls it; a label that does not resolve leaves a nil node,
    on which [BFS] panics. *)
Definition BFS_by_label (fuel : nat) (sched : nat → list nat) (s : outcome world)
    (from to : string) : option (outcome bool) :=
  match s with
  | Ret (g, h) =>
      match GetByLabel g from, GetByLabel g to with
      | Ret (Found a), Ret (Found b) => BFS fuel sched g h a b
      | _, _ => Some Panic
      end
  | Panic => Some Panic
  | Deadlock => Some Deadlock
  end.

(** The graph of the demonstration driver: ten fresh nodes ["Node 0"] to
    ["Node 9"] and its five [Connect] calls. *)
Definition demo : outcome world :=
  s <- build 8 (node_labels 10) ;;
  run s [CallConnect "Node 0" ["Node 1"; "Node 2"];
         CallConnect "Node 1" ["Node 3"; "Node 4"];
         CallConnect "Node 2" ["Node 5"; "Node 6"];
         CallConnect "Node 3" ["Node 7"; "Node 8"];
         CallConnect "Node 4" ["Node 9"]].

(** Two nodes connected to each other and a third one nobody points to. *)
Definition cycle : outcome world :=
  s <- build 8 ["a"; "b"; "c"] ;;
  run s [CallConnect "a" ["b"]; CallConnect "b" ["a"]].

(** What a proof about a concrete graph needs to know of each node: whether
    it has an edge to a locator, and its neighbors in loop order. *)
Definition observe (v : Locator) (s : world) (k : nat)
  : list (outcome bool * outcome (list ptr)) :=
  (fun q => (HasEdges (snd s) q false [v], Neighbors [] (fst s) (snd s) q)) <$> seq 0 k.

(** The observations the proofs about [demo] and [cycle] start from. *)
Definition demo_facts (s : world) :=
  (GetByLabel (fst s) "Node 0", GetByLabel (fst s) "Node 9",
   (lb <- Label (snd s) 9%nat ;; GetLocatorsByLabel (fst s) lb),
   (lb <- Label (snd s) 0%nat ;; GetLocatorsByLabel (fst s) lb),
   observe (mkLocator 1 2) s 10, observe (mkLocator 0 1) s 10).

Definition cycle_facts (s : world) :=
  (GetByLabel (fst s) "a", GetByLabel (fst s) "b", GetByLabel (fst s) "c",
   (lb <- Label (snd s) 2%nat ;; GetLocatorsByLabel (fst s) lb),
   observe (mkLocator 0 4) s 3).

(** The nodes a box points to: the node of index [c * w + k] for every set
    bit [k] of every word [c]. *)
Definition edge_target (g : ADIGraph) (b : Box) (q : ptr) : Prop :=
  ∃ (c : nat) (word k : Z),
    adis b !! c = Some word ∧ 0 ≤ k < wordSize g ∧ Z.testbit word k = true ∧
    nodes g !! Z.to_nat (Z.of_nat c * wordSize g + k) = Some q.

(** Every node of the table has a word at the column of index [i]. *)
Definition column_present (g : ADIGraph) (h : heap) (i : Z) : Prop :=
  Forall (fun q => ∃ b, h !! q = Some b ∧
                        (Z.to_nat (i / wordSize g) < length (adis b))%nat) (nodes g).

(** Bit [k] of word [c] of a list of adjacency words. *)
Definition bit (a : list Z) (c : nat) (k : Z) : bool :=
  match a !! c with
  | Some w => Z.testbit w k
  | None => false
  end.

(** The words after [AddEdges] with each locator of a list in turn. *)
Definition add_all (a : list Z) (locs : list Locator) : list Z :=
  foldl (fun a0 v => alter (fun w => Z.lor w (offset v)) (Z.to_nat (column v)) a0) a locs.

(** Whether one of the locators sets bit [k] of word [c]. *)
Definition sets_bit (locs : list Locator) (c : nat) (k : Z) : bool :=
  existsb (fun v => bool_decide (Z.to_nat (column v) = c) && Z.testbit (offset v) k) locs.

(** ** The remaining methods of Box *)

Definition Contents (h : heap) (p : ptr) : outcome string :=
  b <- deref h p ;; Ret (contents b).

Definition SetLabel (h : heap) (p : ptr) (l : string) : outcome heap :=
  b <- deref h p ;; Ret (<[p := mkBox l (contents b) (adis b) (deleted b)]> h).

Definition SetContents (h : heap) (p : ptr) (stuff : string) : outcome heap :=
  b <- deref h p ;; Ret (<[p := mkBox (label b) stuff (adis b) (deleted b)]> h).

(** ** Notions used in the further properties *)

(** Whether a locator's column indexes a slice of [n] words. *)
Definition in_range (n : nat) (v : Locator) : bool :=
  (0 <=? column v) && (column v <? Z.of_nat n).

(** The word a locator points at. *)
Definition word_of (a : list Z) (v : Locator) : Z :=
  default 0 (a !! Z.to_nat (column v)).

(** The words after [RemoveEdges] with each locator of a list in turn. *)
Definition remove_all (a : list Z) (locs : list Locator) : list Z :=
  foldl (fun a0 v => alter (fun w => Z.land w (byte_not (offset v)))
                           (Z.to_nat (column v)) a0) a locs.

(** Whether every locator leaves bit [k] of word [c] alone. *)
Definition keeps_bit (locs : list Locator) (c : nat) (k : Z) : bool :=
  forallb (fun v => negb (bool_decide (Z.to_nat (column v) = c))
                    || Z.testbit (byte_not (offset v)) k) locs.

(** Every label of the index is mapped to the sentinel or to the index of a
    node of the table that carries this label. *)
Definition labels_consistent (s : world) : Prop :=
  ∀ l i, labels (fst s) !! l = Some i →
    i = -1 ∨ 0 ≤ i ∧ ∃ p, nodes (fst s) !! Z.to_nat i = Some p ∧
                          (label <$> snd s) !! p = Some l.

(** One state comes after another: same word size, the node table and the
    store extended at the end, the growth factor not lower. *)
Definition extends (s s' : world) : Prop :=
  wordSize (fst s') = wordSize (fst s) ∧
  nodes (fst s) `prefix_of` nodes (fst s') ∧
  growthFactor (fst s) ≤ growthFactor (fst s') ∧
  (label <$> snd s) `prefix_of` (label <$> snd s').

(** One node has an edge to another: a set bit of the first stands for the
    table index of the second. *)
Definition has_edge_to (g : ADIGraph) (h : heap) (p q : ptr) : Prop :=
  ∃ b, h !! p = Some b ∧ edge_target g b q.

(** Every box of the store has at least the two words of [NewBox]. *)
Definition two_words (s : world) : Prop :=
  Forall (fun b => (2 ≤ length (adis b))%nat) (snd s).


(** ** Programs over several graphs

    [NewGraph] can be called any number of times and [AddNode] takes any
    [*Box], so a client may hand one box to several graphs.  The state of
    such a client is the list of its graphs, in the order of their
    creation, and the one store of boxes they share.  Each graph is used
    through the variable that received the result of [NewGraph]: the
    struct is not copied.  A call on a graph that has not been created is
    no program; it ends the run as a panic does. *)

Inductive client_call : Type :=
| ClientNewGraph
| ClientNewBox (l : string)
| ClientAddNode (k : nat) (n : ptr)
| ClientConnect (k : nat) (l : string) (neighbors : list string)
| ClientDeleteByIndex (k : nat) (index : Z)
| ClientDeleteByLabel (k : nat) (l : string).

Abbreviation client_state := (list ADIGraph * list Box)%type (only parsing).

(** A method call on the [k]-th graph. *)
Definition on_graph (gs : list ADIGraph) (h : heap) (k : nat) (c : call)
  : outcome client_state :=
  match gs !! k with
  | Some g => s <- step (g, h) c ;; Ret (<[k := fst s]> gs, snd s)
  | None => Panic
  end.

Definition client_step (s : client_state) (c : client_call) : outcome client_state :=
  let '(gs, h) := s in
  match c with
  | ClientNewGraph => Ret (gs ++ [NewGraph], h)
  | ClientNewBox l => Ret (gs, snd (NewBox l h))
  | ClientAddNode k n => on_graph gs h k (CallAddNode n)
  | ClientConnect k l neighbors => on_graph gs h k (CallConnect l neighbors)
  | ClientDeleteByIndex k index => on_graph gs h k (CallDeleteByIndex index)
  | ClientDeleteByLabel k l => on_graph gs h k (CallDeleteByLabel l)
  end.

Definition client_run (s : client_state) (calls : list client_call)
  : outcome client_state :=
  foldM client_step s calls.

Definition client_reachable (s : client_state) : Prop :=
  ∃ calls, client_run ([], []) calls = Ret s.

(** The calls of a client that owns one graph, as calls on its first graph. *)
Definition on_first (c : call) : client_call :=
  match c with
  | CallNewBox l => ClientNewBox l
  | CallAddNode n => ClientAddNode 0 n
  | CallConnect l neighbors => ClientConnect 0 l neighbors
  | CallDeleteByIndex index => ClientDeleteByIndex 0 index
  | CallDeleteByLabel l => ClientDeleteByLabel 0 l
  end.

(** A box that is in the node table of no graph but the [k]-th. *)
Definition unshared (gs : list ADIGraph) (k : nat) (p : ptr) : Prop :=
  ∀ j g, j ≠ k → gs !! j = Some g → p ∉ nodes g.

(** A box that is in the node table of no graph. *)
Definition in_no_table (gs : list ADIGraph) (p : ptr) : Prop :=
  ∀ j g, gs !! j = Some g → p ∉ nodes g.

(** Word size, node pointers and label indices of one graph of a client. *)
Definition graph_ok (g : ADIGraph) (h : heap) : Prop :=
  wordSize g = 8 ∧
  Forall (fun p => (p < length h)%nat) (nodes g) ∧
  (∀ l i, labels g !! l = Some i → i = -1 ∨ 0 ≤ i < Size g).

(** What every state of a client satisfies: a box that is in no table has
    no bit set, and the set bits of a box that is in the table of one graph
    only stand for indices of that table. *)
Definition client_inv (s : client_state) : Prop :=
  (∀ k g, s.1 !! k = Some g → graph_ok g s.2) ∧
  (∀ p b, s.2 !! p = Some b → in_no_table s.1 p → edges_in_range 8 0 b) ∧
  (∀ k g p b, s.1 !! k = Some g → p ∈ nodes g → s.2 !! p = Some b →
              unshared s.1 k p → edges_in_range 8 (Size g) b).

(** Every node of the table is a box all of whose set bits stand for
    indices of the table. *)
Definition table_closed (g : ADIGraph) (h : heap) : Prop :=
  Forall (fun p => ∃ b, h !! p = Some b ∧ edges_in_range 8 (Size g) b) (nodes g).

(** One box in two graphs: ["a"] is connected to ["c"] in a first graph of
    three nodes and then added to a second, empty graph. *)
Definition shared_box : outcome client_state :=
  client_run ([], [])
    [ClientNewGraph; ClientNewBox "a"; ClientNewBox "b"; ClientNewBox "c";
     ClientAddNode 0 0; ClientAddNode 0 1; ClientAddNode 0 2;
     ClientConnect 0 "a" ["c"];
     ClientNewGraph; ClientAddNode 1 0].

(** Whether [BFS] can test the source [ba] for the target [b]: the target
    is a box, its locator can be computed, and the locator's column is
    inside the source's words. *)
Definition located (g : ADIGraph) (h : heap) (ba : Box) (b : ptr) : Prop :=
  ∃ bb v e, h !! b = Some bb ∧ GetLocatorsByLabel g (label bb) = Ret (v, e) ∧
            0 ≤ column v < Z.of_nat (length (adis ba)).

(** What a call that returns does to the boxes: a box that was in the
    store keeps every bound on its set bits that the table of the graph
    respects, and any bound at all when the box is not in that table. *)
Definition boxes_kept (g' : ADIGraph) (h h' : heap) : Prop :=
  ∀ p b', h' !! p = Some b' →
    (h !! p = None ∧ edges_in_range 8 0 b') ∨
    ∃ b, h !! p = Some b ∧
         ∀ size, edges_in_range 8 size b → p ∉ nodes g' ∨ Size g' ≤ size →
                 edges_in_range 8 size b'.

(** A goroutine that does not send: its bit is clear, or its index is
    outside the node table. *)
Definition misses_or_panics (g : ADIGraph) (t : Z * Z * Z) : bool :=
  negb (task_hit t) ||
  match GetByIndex g (task_index g t) with
  | Panic => true
  | _ => false
  end.

(** * Properties *)

(** ** The outcome monad *)

Lemma bind_Ret_inv {A B : Type} (m : outcome A) (k : A → outcome B) (b : B) :
  (x <- m ;; k x) = Ret b → ∃ a, m = Ret a ∧ k a = Ret b.
Proof. destruct m; simpl; intros H; try discriminate. eauto. Qed.

Lemma foldM_app {A S : Type} (f : S → A → outcome S) (s : S) (l1 l2 : list A) :
  foldM f s (l1 ++ l2) = (s' <- foldM f s l1 ;; foldM f s' l2).
Proof.
  revert s. induction l1 as [|x l1 IH]; intros s; simpl; [done|].
  destruct (f s x); simpl; auto.
Qed.

Lemma index_slice_Ret {A : Type} (l : list A) (i : Z) (x : A) :
  index_slice l i = Ret x ↔ 0 ≤ i ∧ l !! Z.to_nat i = Some x.
Proof.
  unfold index_slice. destruct (Z.ltb_spec i 0).
  - split; [discriminate | lia].
  - destruct (l !! Z.to_nat i) eqn:E; split; intros H';
      try discriminate; try (destruct H'; congruence).
    injection H' as ->. auto.
Qed.

Lemma index_slice_lookup {A : Type} (l : list A) (i : nat) (x : A) :
  l !! i = Some x → index_slice l (Z.of_nat i) = Ret x.
Proof. intros H. apply index_slice_Ret. rewrite Nat2Z.id. split; [lia | done]. Qed.

Lemma deref_Ret (h : heap) (p : ptr) (b : Box) : deref h p = Ret b ↔ h !! p = Some b.
Proof.
  unfold deref. destruct (h !! p); split; intros H; try discriminate; congruence.
Qed.

(** ** Growth *)

Lemma same_but_words_0 (b : Box) : same_but_words 0 b b.
Proof. unfold same_but_words. simpl. rewrite app_nil_r. auto. Qed.

Lemma AddColumn_fold (l : list ptr) (h : heap) :
  Forall (fun p => (p < length h)%nat) l →
  ∃ h', foldM AddColumn h l = Ret h' ∧ length h' = length h ∧
        ∀ p b, h !! p = Some b →
               ∃ b', h' !! p = Some b' ∧ same_but_words (occurrences p l) b b'.
Proof.
  revert h. induction l as [|q l IH]; intros h Hl.
  - exists h. simpl. split; [done|]. split; [done|].
    intros p b Hb. exists b. split; [done | apply same_but_words_0].
  - apply Forall_cons in Hl as [Hq Hl].
    destruct (lookup_lt_is_Some_2 h q Hq) as [bq Hbq].
    set (h1 := <[q := set_adis bq (adis bq ++ [0])]> h).
    assert (Hlen1 : length h1 = length h) by apply length_insert.
    destruct (IH h1) as (h' & Hrun & Hlen & Hboxes).
    { rewrite Hlen1. done. }
    exists h'. split.
    { simpl. unfold AddColumn at 1, deref. rewrite Hbq. simpl. exact Hrun. }
    split; [congruence|].
    intros p b Hb. unfold occurrences. simpl.
    destruct (Nat.eq_dec q p) as [->|Hne].
    + assert (b = bq) as -> by congruence.
      destruct (Hboxes p (set_adis bq (adis bq ++ [0]))) as (b' & Hb' & Hs).
      { unfold h1. apply list_lookup_insert_eq. done. }
      exists b'. split; [done|].
      destruct Hs as (? & ? & ? & Ha). unfold same_but_words.
      repeat split; try done.
      rewrite Ha. simpl. rewrite <- app_assoc. done.
    + destruct (Hboxes p b) as (b' & Hb' & Hs).
      { unfold h1. rewrite list_lookup_insert_ne; done. }
      exists b'. split; done.
Qed.

Lemma AddNode_test (w n : Z) :
  0 < w → 0 ≤ n →
  ((n >? w - 1) && (Z.rem n w =? 0)) = at_capacity w n.
Proof.
  intros Hw Hn. unfold at_capacity. rewrite Z.rem_mod_nonneg by lia.
  destruct (Z.eqb_spec (n mod w) 0) as [E|E]; rewrite ?andb_false_r; [|done].
  rewrite !andb_true_r.
  destruct (Z.ltb_spec 0 n), (Z.gtb_spec n (w - 1)); try done; exfalso.
  - rewrite Z.mod_small in E by lia. lia.
  - lia.
Qed.

Lemma AddNode_spec (g : ADIGraph) (h : heap) (n : ptr) (bn : Box) :
  0 < wordSize g →
  Forall (fun p => (p < length h)%nat) (nodes g) →
  h !! n = Some bn →
  let d := if at_capacity (wordSize g) (Size g) then 1%nat else 0%nat in
  ∃ g' h',
    AddNode g h n = Ret (g', h') ∧
    wordSize g' = wordSize g ∧
    nodes g' = nodes g ++ [n] ∧
    labels g' = <[label bn := Size g]> (labels g) ∧
    growthFactor g' = growthFactor g + Z.of_nat d ∧
    length h' = length h ∧
    ∀ p b, h !! p = Some b →
           ∃ b', h' !! p = Some b' ∧
                 same_but_words (d * occurrences p (nodes g ++ [n])) b b'.
Proof.
  intros Hw Hnodes Hn d.
  assert (Hsz : 0 ≤ Size g) by (unfold Size; lia).
  pose proof (AddNode_test (wordSize g) (Size g) Hw Hsz) as Htest.
  assert (Hlab : Label h n = Ret (label bn)).
  { unfold Label, deref. rewrite Hn. done. }
  unfold AddNode. rewrite Hlab. simpl.
  destruct (Z.eqb_spec (wordSize g) 0) as [?|_]; [lia|].
  destruct (at_capacity (wordSize g) (Size g)) eqn:Hcap; subst d.
  - apply andb_true_iff in Htest as [-> ->].
    destruct (AddColumn_fold (nodes g ++ [n]) h) as (h' & Hrun & Hlen & Hboxes).
    { apply Forall_app. split; [done|]. apply Forall_singleton.
      apply lookup_lt_Some in Hn. done. }
    unfold Grow. simpl. rewrite Hrun. simpl.
    eexists _, h'. split; [done|]. simpl. repeat split; try done; try lia.
    intros p b Hb. destruct (Hboxes p b Hb) as (b' & ? & ?).
    exists b'. split; [done|]. simpl. rewrite Nat.add_0_r. done.
  - assert (Hret : ∃ g', g' = append_node g (label bn) n) by eauto.
    destruct Hret as [g' Hg'].
    exists g', h. split.
    { apply andb_false_iff in Htest as [->| ->]; [subst; done|].
      destruct (Size g >? wordSize g - 1); subst; done. }
    subst g'. simpl. repeat split; try done; try lia.
    intros p b Hb. exists b. split; [done | apply same_but_words_0].
Qed.

Lemma growths_succ (w k : Z) :
  0 < w → 0 ≤ k →
  growths w (k + 1) = growths w k + (if at_capacity w k then 1 else 0).
Proof.
  intros Hw Hk. unfold growths, at_capacity.
  destruct (Z.ltb_spec 0 k) as [Hpos|Hzero]; simpl.
  - replace (Z.max (k + 1 - 1) 0) with k by lia.
    replace (Z.max (k - 1) 0) with (k - 1) by lia.
    pose proof (Z.div_mod k w ltac:(lia)) as Hdm.
    pose proof (Z.mod_pos_bound k w Hw) as Hr.
    destruct (Z.eqb_spec (k mod w) 0) as [E|E].
    + assert ((k - 1) / w = k / w - 1); [|lia].
      symmetry. apply (Z.div_unique _ _ _ (w - 1)); lia.
    + assert ((k - 1) / w = k / w); [|lia].
      symmetry. apply (Z.div_unique _ _ _ (k mod w - 1)); lia.
  - assert (k = 0) as -> by lia. simpl. rewrite Z.div_0_l by lia. done.
Qed.




Lemma occurrences_seq (p n : nat) : (p < n)%nat → occurrences p (seq 0 n) = 1%nat.
Proof.
  intros Hp. unfold occurrences.
  apply NoDup_count_occ'; [apply seq_NoDup | apply in_seq; lia].
Qed.

Lemma build_snoc (w : Z) (ls : list string) (l : string) :
  build w (ls ++ [l]) = (s <- build w ls ;; add_fresh s l).
Proof.
  unfold build. rewrite foldM_app. destruct (foldM _ _ ls); simpl; try done.
  destruct (add_fresh a l); done.
Qed.

Lemma add_fresh_built (w : Z) (ls : list string) (l : string) (s : world) :
  0 < w → built w ls s →
  ∃ s', add_fresh s l = Ret s' ∧ built w (ls ++ [l]) s'.
Proof.
  intros Hw (HW & Hnodes & Hlen & Hgf & Hboxes). destruct s as [g h]. simpl in *.
  set (nb := mkBox l "" [0; 0] false).
  assert (Hnb : (h ++ [nb]) !! length h = Some nb).
  { rewrite lookup_app_r by lia. rewrite Nat.sub_diag. done. }
  assert (Hsize : Size g = Z.of_nat (length ls)).
  { unfold Size. rewrite Hnodes, length_seq. done. }
  destruct (AddNode_spec g (h ++ [nb]) (length h) nb)
    as (g' & h' & Hrun & HW' & Hnodes' & _ & Hgf' & Hlen' & Hboxes'); [lia| |done|].
  { rewrite Hnodes. apply Forall_forall. intros p Hp%list_elem_of_In%in_seq.
    rewrite length_app. simpl. lia. }
  exists (g', h'). split; [exact Hrun|].
  rewrite length_app in *. simpl length in *.
  assert (Hstep := growths_succ w (Z.of_nat (length ls)) Hw ltac:(lia)).
  replace (Z.of_nat (length ls) + 1) with (Z.of_nat (length ls + 1)) in Hstep by lia.
  rewrite HW, Hsize in *.
  unfold built. simpl. rewrite !length_app. simpl length. repeat split.
  - congruence.
  - rewrite Hnodes', Hnodes, Hlen. rewrite seq_app. done.
  - lia.
  - rewrite Hgf', Hgf, Hstep. destruct (at_capacity _ _); lia.
  - destruct (lookup_lt_is_Some_2 (h ++ [nb]) i) as [b0 Hb0].
    { apply lookup_lt_Some in H. rewrite length_app. simpl. lia. }
    destruct (Hboxes' i b0 Hb0) as (b' & Hb' & Hl' & _ & _ & _).
    assert (b' = b) as -> by congruence. rewrite Hl'.
    destruct (decide (i < length h)%nat) as [Hi|Hi].
    + rewrite lookup_app_l in Hb0 by done. rewrite lookup_app_l by lia.
      apply (Hboxes i b0 Hb0).
    + assert (i = length h) as -> by (apply lookup_lt_Some in Hb0;
        rewrite length_app in Hb0; simpl in Hb0; lia).
      assert (b0 = nb) as -> by congruence.
      rewrite lookup_app_r by lia. rewrite Hlen, Nat.sub_diag. done.
  - destruct (lookup_lt_is_Some_2 (h ++ [nb]) i) as [b0 Hb0].
    { apply lookup_lt_Some in H. rewrite length_app. simpl. lia. }
    destruct (Hboxes' i b0 Hb0) as (b' & Hb' & _ & _ & _ & Ha).
    assert (b' = b) as -> by congruence.
    assert (Hocc : occurrences i (nodes g ++ [length h]) = 1%nat).
    { rewrite Hnodes, Hlen. change [length ls] with (seq (0 + length ls) 1).
      rewrite <- seq_app. apply occurrences_seq.
      apply lookup_lt_Some in Hb0. rewrite length_app in Hb0. simpl in Hb0. lia. }
    rewrite Ha, Hocc, Nat.mul_1_r, length_app, length_replicate.
    destruct (decide (i < length h)%nat) as [Hi|Hi].
    + rewrite lookup_app_l in Hb0 by done.
      destruct (Hboxes i b0 Hb0) as [_ Hwords].
      destruct (at_capacity _ _); lia.
    + assert (i = length h) as -> by (apply lookup_lt_Some in Hb0;
        rewrite length_app in Hb0; simpl in Hb0; lia).
      assert (b0 = nb) as -> by congruence. simpl.
      rewrite Hlen. destruct (at_capacity _ _); lia.
Qed.

Lemma build_built (w : Z) (ls : list string) :
  0 < w → ∃ s, build w ls = Ret s ∧ built w ls s.
Proof.
  intros Hw. induction ls as [|l ls IH] using rev_ind.
  - exists (empty_graph w, []). split; [done|].
    unfold built. simpl. repeat split; try done.
  - destruct IH as (s & Hs & Hb).
    destruct (add_fresh_built w ls l s Hw Hb) as (s' & Hs' & Hb').
    exists s'. split; [|done]. rewrite build_snoc, Hs. exact Hs'.
Qed.

Lemma growth_fired_spec (w : Z) (ls : list string) (l : string) :
  0 < w → growth_fired w ls l = at_capacity w (Z.of_nat (length ls)).
Proof.
  intros Hw. unfold growth_fired.
  destruct (build_built w ls Hw) as ([g h] & -> & _ & _ & _ & Hgf & _).
  destruct (build_built w (ls ++ [l]) Hw) as ([g' h'] & -> & _ & _ & _ & Hgf' & _).
  simpl in *. rewrite Hgf, Hgf', length_app. simpl length.
  replace (Z.of_nat (length ls + 1)) with (Z.of_nat (length ls) + 1) by lia.
  rewrite growths_succ by lia.
  destruct (at_capacity _ _); simpl.
  - apply negb_true_iff, Z.eqb_neq. lia.
  - apply negb_false_iff, Z.eqb_eq. lia.
Qed.

(** ** Bytes and bits *)

Lemma byte_small (z : Z) : 0 ≤ z < 256 → byte z = z.
Proof. intros H. unfold byte. apply Z.mod_small. done. Qed.

Lemma shiftl_1_small (k : Z) : 0 ≤ k < 8 → 0 < Z.shiftl 1 k < 256.
Proof.
  intros Hk. rewrite Z.shiftl_1_l. split.
  - apply Z.pow_pos_nonneg; lia.
  - change 256 with (2 ^ 8). apply Z.pow_lt_mono_r; lia.
Qed.

(** The mask computed by the code for a bit position below 8. *)
Lemma mask_small (k : Z) : 0 ≤ k < 8 → byte (Z.shiftl 1 (byte k)) = 2 ^ k.
Proof.
  intros Hk. rewrite (byte_small k) by lia.
  rewrite byte_small by (pose proof (shiftl_1_small k Hk); lia).
  apply Z.shiftl_1_l.
Qed.

Lemma land_pow2_testbit (a k : Z) :
  0 ≤ k → (Z.land a (2 ^ k) =? 0) = negb (Z.testbit a k).
Proof.
  intros Hk. destruct (Z.testbit a k) eqn:E; simpl.
  - apply Z.eqb_neq. intros H0.
    assert (Hb : Z.testbit (Z.land a (2 ^ k)) k = true).
    { rewrite Z.land_spec, E, Z.pow2_bits_true by lia. done. }
    rewrite H0, Z.bits_0 in Hb. discriminate.
  - apply Z.eqb_eq. apply Z.bits_inj'. intros n Hn.
    rewrite Z.land_spec, Z.bits_0, Z.pow2_bits_eqb by lia.
    destruct (Z.eqb_spec k n) as [->|]; [rewrite E|]; rewrite ?andb_false_r; done.
Qed.

Lemma task_hit_testbit (c word k : Z) :
  0 ≤ k < 8 → task_hit (c, word, k) = Z.testbit word k.
Proof.
  intros Hk. unfold task_hit. simpl.
  rewrite mask_small, land_pow2_testbit by lia. apply negb_involutive.
Qed.

Lemma lor_pow2_testbit (a k n : Z) :
  0 ≤ k → 0 ≤ n → Z.testbit (Z.lor a (2 ^ k)) n = Z.testbit a n || (k =? n).
Proof. intros Hk Hn. rewrite Z.lor_spec, Z.pow2_bits_eqb by lia. done. Qed.

Lemma clear_pow2_testbit (a k n : Z) :
  0 ≤ k < 8 → 0 ≤ n < 8 →
  Z.testbit (Z.land a (byte_not (2 ^ k))) n = Z.testbit a n && negb (k =? n).
Proof.
  intros Hk Hn. unfold byte_not.
  rewrite Z.land_spec, Z.lxor_spec, Z.pow2_bits_eqb by lia.
  change 255 with (Z.ones 8). rewrite Z.ones_spec_low by lia.
  destruct (k =? n); done.
Qed.

Lemma clear_subset (a m n : Z) :
  Z.testbit (Z.land a m) n = true → Z.testbit a n = true.
Proof. rewrite Z.land_spec. intros [? _]%andb_true_iff. done. Qed.

(** ** Schedules *)

Lemma insert_at_Permutation {A : Type} (k : nat) (x : A) (l : list A) :
  insert_at k x l ≡ₚ x :: l.
Proof.
  unfold insert_at. rewrite <- Permutation_middle. by rewrite take_drop.
Qed.

Lemma schedule_Permutation {A : Type} (choice : list nat) (tasks : list A) :
  schedule choice tasks ≡ₚ tasks.
Proof.
  revert choice. induction tasks as [|t ts IH]; intros choice; simpl; [done|].
  destruct choice as [|k ks].
  - by rewrite IH.
  - by rewrite insert_at_Permutation, IH.
Qed.

Lemma schedule_nil {A : Type} (tasks : list A) : schedule [] tasks = tasks.
Proof. induction tasks as [|t ts IH]; simpl; [done | by rewrite IH]. Qed.

(** Every order of the tasks is the result of some choice. *)
Lemma schedule_complete {A : Type} (tasks order : list A) :
  order ≡ₚ tasks → ∃ choice, schedule choice tasks = order.
Proof.
  revert order. induction tasks as [|t ts IH]; intros order Hp.
  - apply Permutation_nil_r in Hp as ->. by exists [].
  - assert (Hin : t ∈ order) by (rewrite Hp; left).
    apply list_elem_of_split in Hin as (l1 & l2 & ->).
    rewrite <- Permutation_middle in Hp. apply Permutation_cons_inv in Hp.
    destruct (IH _ Hp) as [ks Hks].
    exists (length l1 :: ks). simpl. rewrite Hks. unfold insert_at.
    rewrite take_app_length, drop_app_length. done.
Qed.

(** ** Neighbor resolution *)

Lemma lookup_unfold (g : ADIGraph) (cap : nat) (ch : list ptr) (t : Z * Z * Z) :
  lookup g cap ch t =
  if task_hit t then
    r <- GetByIndex g (task_index g t) ;;
    match r with
    | Found node => send cap ch node
    | Failed _ => Ret ch
    end
  else Ret ch.
Proof. destruct t as [[col adi] off]. reflexivity. Qed.

Lemma GetByIndex_in_range (g : ADIGraph) (i : Z) :
  0 ≤ i < Size g →
  ∃ p, nodes g !! Z.to_nat i = Some p ∧ GetByIndex g i = Ret (Found p).
Proof.
  intros Hi. unfold Size in Hi.
  destruct (lookup_lt_is_Some_2 (nodes g) (Z.to_nat i)) as [p Hp]; [lia|].
  exists p. split; [done|]. unfold GetByIndex.
  destruct (Z.eqb_spec i (-1)); [lia|].
  assert (index_slice (nodes g) i = Ret p) as -> by (apply index_slice_Ret; split; [lia|done]).
  done.
Qed.

(** A failed resolution sends nothing and raises nothing. *)
Lemma lookup_failed (g : ADIGraph) (cap : nat) (ch : list ptr) (t : Z * Z * Z) (e : error) :
  GetByIndex g (task_index g t) = Ret (Failed e) → lookup g cap ch t = Ret ch.
Proof. intros H. rewrite lookup_unfold, H. simpl. destruct (task_hit t); done. Qed.

Lemma lookup_safe (g : ADIGraph) (cap : nat) (ch : list ptr) (t : Z * Z * Z) :
  task_safe g t →
  lookup g cap ch t =
  match task_target g t with
  | Some p => send cap ch p
  | None => Ret ch
  end.
Proof.
  intros Hsafe. rewrite lookup_unfold. unfold task_target, task_safe in *.
  destruct (task_hit t); [|done].
  destruct (GetByIndex_in_range g (task_index g t)) as (p & -> & ->); auto.
Qed.

Lemma omap_cons_unfold {A B : Type} (f : A → option B) (x : A) (l : list A) :
  omap f (x :: l) = match f x with Some y => y :: omap f l | None => omap f l end.
Proof. reflexivity. Qed.

Lemma foldM_lookup (g : ADIGraph) (cap : nat) (ts : list (Z * Z * Z)) (ch : list ptr) :
  Forall (task_safe g) ts →
  (length ch + length (omap (task_target g) ts) ≤ cap)%nat →
  foldM (lookup g cap) ch ts = Ret (ch ++ omap (task_target g) ts).
Proof.
  revert ch. induction ts as [|t ts IH]; intros ch Hsafe Hcap.
  - simpl. by rewrite app_nil_r.
  - apply Forall_cons in Hsafe as [Ht Hts].
    rewrite omap_cons_unfold in *. cbn [foldM]. rewrite lookup_safe by done.
    destruct (task_target g t) as [p|]; cbn [bind length] in *.
    + unfold send. rewrite bool_decide_eq_true_2 by lia. cbn [bind].
      rewrite IH; [by rewrite <- app_assoc | done |].
      rewrite length_app. cbn [length]. lia.
    + apply IH; done.
Qed.

Lemma elem_of_spawn (w : Z) (a : list Z) (t : Z * Z * Z) :
  t ∈ spawn w a ↔
  ∃ (c : nat) word k, t = (Z.of_nat c, word, k) ∧ a !! c = Some word ∧ 0 ≤ k < w.
Proof.
  unfold spawn. rewrite list_elem_of_join. split.
  - intros (l & Ht & Hl). apply elem_of_lookup_imap in Hl as (c & word & -> & Hc).
    apply list_elem_of_fmap in Ht as (k & -> & Hk). apply elem_of_seqZ in Hk.
    exists c, word, k. split; [done|]. split; [done | lia].
  - intros (c & word & k & -> & Hc & Hk).
    exists ((fun j => (Z.of_nat c, word, j)) <$> seqZ 0 w). split.
    + apply list_elem_of_fmap. exists k. split; [done|]. apply elem_of_seqZ. lia.
    + apply elem_of_lookup_imap. eauto.
Qed.

(** The tasks visit the indices [0, 1, 2, ...] in order, [w] per word. *)
Lemma spawn_indices_from (w : Z) (a : list Z) (f : nat → nat) (base : Z) :
  0 ≤ w → (∀ i, Z.of_nat (f i) = base + Z.of_nat i) →
  (fun t : Z * Z * Z => t.1.1 * w + t.2) <$>
     mjoin (imap (fun i adi => (fun j => (Z.of_nat (f i), adi, j)) <$> seqZ 0 w) a)
  = seqZ (base * w) (Z.of_nat (length a) * w).
Proof.
  intros Hw. revert f base. induction a as [|x a IH]; intros f base Hf.
  - simpl. done.
  - rewrite imap_cons. simpl mjoin. rewrite fmap_app.
    replace (Z.of_nat (length (x :: a)) * w) with (w + Z.of_nat (length a) * w)
      by (simpl length; lia).
    rewrite seqZ_app by lia. f_equal.
    + replace (seqZ (base * w) w) with (Z.add (base * w) <$> seqZ 0 w)
        by (rewrite fmap_add_seqZ; f_equal; lia).
      rewrite <- list_fmap_compose. apply list_fmap_ext. intros _ j _. simpl.
      rewrite Hf. lia.
    + specialize (IH (f ∘ S) (base + 1)).
      replace ((base + 1) * w) with (base * w + w) in IH by lia.
      apply IH. intros i. simpl. rewrite Hf. lia.
Qed.

Lemma spawn_indices (g : ADIGraph) (a : list Z) :
  0 ≤ wordSize g →
  task_index g <$> spawn (wordSize g) a = seqZ 0 (Z.of_nat (length a) * wordSize g).
Proof.
  intros Hw. pose proof (spawn_indices_from (wordSize g) a id 0 Hw) as H.
  simpl in H. apply H. intros i. simpl. lia.
Qed.

Lemma hit_index_sublist (g : ADIGraph) (ts : list (Z * Z * Z)) :
  sublist (omap (hit_index g) ts) (task_index g <$> ts).
Proof.
  induction ts as [|t ts IH]; [constructor|].
  rewrite omap_cons_unfold, fmap_cons. unfold hit_index at 1.
  destruct (task_hit t); by constructor.
Qed.

Lemma targets_le_hits (g : ADIGraph) (ts : list (Z * Z * Z)) :
  (length (omap (task_target g) ts) ≤ length (omap (hit_index g) ts))%nat.
Proof.
  induction ts as [|t ts IH]; [done|].
  rewrite !omap_cons_unfold. unfold task_target at 1, hit_index at 1.
  destruct (task_hit t); [|done]. destruct (nodes g !! _); cbn [length]; lia.
Qed.

(** No more hits than nodes: the channel of [Neighbors] never fills up. *)
Lemma hits_bounded (g : ADIGraph) (a : list Z) :
  0 ≤ wordSize g →
  Forall (task_safe g) (spawn (wordSize g) a) →
  (length (omap (task_target g) (spawn (wordSize g) a)) ≤ length (nodes g))%nat.
Proof.
  intros Hw Hsafe. etrans; [apply targets_le_hits|].
  set (hits := omap (hit_index g) (spawn (wordSize g) a)).
  assert (Hnd : NoDup hits).
  { eapply sublist_NoDup; [|apply hit_index_sublist].
    rewrite spawn_indices by done. apply NoDup_seqZ. }
  assert (Hsub : hits ⊆+ seqZ 0 (Size g)).
  { apply NoDup_submseteq; [done|]. intros i Hi.
    apply list_elem_of_omap in Hi as (t & Ht & Hi). unfold hit_index in Hi.
    destruct (task_hit t) eqn:Hhit; [|done]. injection Hi as <-.
    rewrite Forall_forall in Hsafe. specialize (Hsafe t Ht Hhit).
    apply elem_of_seqZ. lia. }
  apply submseteq_length in Hsub. rewrite length_seqZ in Hsub.
  unfold Size in Hsub. lia.
Qed.

(** The tasks spawned for a box with in-range edges are safe. *)
Lemma spawn_safe (g : ADIGraph) (b : Box) :
  wordSize g = 8 → edges_in_range 8 (Size g) b →
  Forall (task_safe g) (spawn (wordSize g) (adis b)).
Proof.
  intros HW Hb. apply Forall_forall. intros t Ht.
  apply elem_of_spawn in Ht as (c & word & k & -> & Hc & Hk).
  rewrite HW in Hk. unfold task_safe. rewrite task_hit_testbit by done.
  intros Hbit. unfold task_index. simpl. rewrite HW.
  specialize (Hb c word k Hc Hk Hbit). lia.
Qed.

(** The nodes [Neighbors] returns when the goroutines run in the order of
    the loops that start them. *)
Lemma Neighbors_scheduled (choice : list nat) (g : ADIGraph) (h : heap) (n : ptr) (b : Box) :
  wordSize g = 8 → h !! n = Some b → edges_in_range 8 (Size g) b →
  ∃ l, Neighbors choice g h n = Ret l ∧
       l ≡ₚ omap (task_target g) (spawn (wordSize g) (adis b)).
Proof.
  intros HW Hn Hb. unfold Neighbors, Edges, deref. rewrite Hn. simpl.
  pose proof (schedule_Permutation choice (spawn (wordSize g) (adis b))) as Hp.
  pose proof (spawn_safe g b HW Hb) as Hsafe.
  pose proof (hits_bounded g (adis b) ltac:(lia) Hsafe) as Hcap.
  eexists. split.
  - apply foldM_lookup.
    + by rewrite Hp.
    + simpl. by rewrite Hp.
  - simpl. by rewrite Hp.
Qed.

(** ** Locators *)

Lemma GetLocatorsByIndex_nonneg (g : ADIGraph) (i : Z) :
  0 < wordSize g ≤ 8 → 0 ≤ i →
  GetLocatorsByIndex g i = Ret (locate (wordSize g) i, None).
Proof.
  intros Hw Hi. unfold GetLocatorsByIndex, locate.
  destruct (Z.eqb_spec i (-1)); [lia|].
  destruct (Z.eqb_spec (wordSize g) 0); [lia|].
  rewrite Z.quot_div_nonneg, Z.rem_mod_nonneg by lia.
  pose proof (Z.mod_pos_bound i (wordSize g) ltac:(lia)).
  rewrite mask_small, Z.shiftl_1_l by lia. done.
Qed.

Lemma resolve_locations_spec (g : ADIGraph) (ns : list string) :
  0 < wordSize g ≤ 8 →
  (∀ l i, labels g !! l = Some i → i = -1 ∨ 0 ≤ i) →
  resolve_locations g ns = Ret (omap (resolved g) ns).
Proof.
  intros Hw Hlab. induction ns as [|v ns IH]; [done|].
  rewrite omap_cons_unfold. cbn [resolve_locations]. rewrite IH.
  unfold GetLocatorsByLabel, resolved.
  destruct (labels g !! v) as [i|] eqn:Hv; [|done].
  destruct (Hlab v i Hv) as [->|Hi]; [done|].
  rewrite GetLocatorsByIndex_nonneg by done.
  destruct (Z.eqb_spec i (-1)); [lia | done].
Qed.

(** ** Edge updates on the store *)

Lemma foldM_invariant {A S : Type} (P : S → Prop) (f : S → A → outcome S)
    (l : list A) (s s' : S) :
  (∀ s0 x s1, x ∈ l → P s0 → f s0 x = Ret s1 → P s1) →
  P s → foldM f s l = Ret s' → P s'.
Proof.
  revert s. induction l as [|x l IH]; intros s Hstep Hs Hrun; simpl in Hrun.
  - injection Hrun as <-. done.
  - apply bind_Ret_inv in Hrun as (s1 & Hx & Hrun).
    apply (IH s1); [|eapply Hstep; [left|done..]|done].
    intros s0 y s2 Hy. apply Hstep. by right.
Qed.

Lemma update_word_Ret (f : Z → Z) (a a' : list Z) (col : Z) :
  update_word f a col = Ret a' ↔
  0 ≤ col ∧ is_Some (a !! Z.to_nat col) ∧ a' = alter f (Z.to_nat col) a.
Proof.
  unfold update_word. split.
  - intros (word & Hw & Ha)%bind_Ret_inv. apply index_slice_Ret in Hw as [Hc Hw].
    injection Ha as <-. split; [done|]. split; [eauto|].
    apply list_eq. intros i. destruct (decide (i = Z.to_nat col)) as [->|Hne].
    + rewrite list_lookup_insert_eq by (by eapply lookup_lt_Some).
      rewrite list_lookup_alter_eq, Hw. done.
    + rewrite list_lookup_insert_ne, list_lookup_alter_ne by done. done.
  - intros (Hc & [word Hw] & ->).
    assert (index_slice a col = Ret word) as -> by (by apply index_slice_Ret).
    simpl. f_equal.
    apply list_eq. intros i. destruct (decide (i = Z.to_nat col)) as [->|Hne].
    + rewrite list_lookup_insert_eq by (by eapply lookup_lt_Some).
      rewrite list_lookup_alter_eq, Hw. done.
    + rewrite list_lookup_insert_ne, list_lookup_alter_ne by done. done.
Qed.

Lemma AddEdges_one (h h' : heap) (p : ptr) (v : Locator) :
  AddEdges h p [v] = Ret h' ↔
  ∃ b, h !! p = Some b ∧ 0 ≤ column v ∧
       is_Some (adis b !! Z.to_nat (column v)) ∧
       h' = <[p := write_word (fun w => Z.lor w (offset v)) (Z.to_nat (column v)) b]> h.
Proof.
  unfold AddEdges, deref. split.
  - destruct (h !! p) as [b|]; [|done]. simpl.
    intros (a & Ha & Hh)%bind_Ret_inv.
    apply bind_Ret_inv in Ha as (a1 & Ha1 & Ha). injection Ha as <-.
    apply update_word_Ret in Ha1 as (? & ? & ->). injection Hh as <-.
    exists b. done.
  - intros (b & -> & Hc & Hw & ->). simpl.
    assert (add_edge (adis b) v = Ret (alter (fun w => Z.lor w (offset v))
              (Z.to_nat (column v)) (adis b))) as ->; [|done].
    apply update_word_Ret. done.
Qed.

Lemma RemoveEdges_one (h h' : heap) (p : ptr) (v : Locator) :
  RemoveEdges h p [v] = Ret h' ↔
  ∃ b, h !! p = Some b ∧ 0 ≤ column v ∧
       is_Some (adis b !! Z.to_nat (column v)) ∧
       h' = <[p := write_word (fun w => Z.land w (byte_not (offset v)))
                              (Z.to_nat (column v)) b]> h.
Proof.
  unfold RemoveEdges, deref. split.
  - destruct (h !! p) as [b|]; [|done]. simpl.
    intros (a & Ha & Hh)%bind_Ret_inv.
    apply bind_Ret_inv in Ha as (a1 & Ha1 & Ha). injection Ha as <-.
    apply update_word_Ret in Ha1 as (? & ? & ->). injection Hh as <-.
    exists b. done.
  - intros (b & -> & Hc & Hw & ->). simpl.
    assert (remove_edge (adis b) v = Ret (alter (fun w => Z.land w (byte_not (offset v)))
              (Z.to_nat (column v)) (adis b))) as ->; [|done].
    apply update_word_Ret. done.
Qed.

Lemma edges_in_range_write (w size : Z) (f : Z → Z) (col : nat) (b : Box) :
  edges_in_range w size b →
  (∀ word k, adis b !! col = Some word → 0 ≤ k < w → Z.testbit (f word) k = true →
             Z.testbit word k = true ∨ Z.of_nat col * w + k < size) →
  edges_in_range w size (write_word f col b).
Proof.
  intros Hb Hf c word k Hc Hk Hbit. unfold write_word in Hc. simpl in Hc.
  destruct (decide (c = col)) as [->|Hne].
  - rewrite list_lookup_alter_eq in Hc.
    destruct (adis b !! col) as [word0|] eqn:E; [|done].
    injection Hc as <-. destruct (Hf word0 k eq_refl Hk Hbit); [|done].
    by apply (Hb col word0 k).
  - rewrite list_lookup_alter_ne in Hc by done. by apply (Hb c word k).
Qed.

Lemma edges_in_range_mono (w size size' : Z) (b : Box) :
  size ≤ size' → edges_in_range w size b → edges_in_range w size' b.
Proof. intros Hle Hb c word k Hc Hk Hbit. specialize (Hb c word k Hc Hk Hbit). lia. Qed.

Lemma edges_in_range_zeros (w size : Z) (extra : nat) (b b' : Box) :
  same_but_words extra b b' → edges_in_range w size b → edges_in_range w size b'.
Proof.
  intros (_ & _ & _ & Ha) Hb c word k Hc Hk Hbit. rewrite Ha in Hc.
  apply lookup_app_Some in Hc as [Hc|[_ Hc]].
  - by apply (Hb c word k).
  - apply lookup_replicate in Hc as [-> _]. rewrite Z.bits_0 in Hbit. done.
Qed.

(** ** The invariant of the public API *)

Lemma well_formed_NewBox (g : ADIGraph) (h : heap) (l : string) :
  well_formed (g, h) → well_formed (g, snd (NewBox l h)).
Proof.
  intros (HW & Hnodes & Hlab & Hedges). unfold well_formed. simpl in *.
  repeat split; try done.
  - eapply Forall_impl; [exact Hnodes|]. intros p Hp. simpl in Hp.
    rewrite length_app. simpl. lia.
  - apply Forall_app. split; [done|]. apply Forall_singleton.
    intros c word k Hc _ Hbit. simpl in Hc.
    destruct c as [|[|c]]; simpl in Hc; try done;
      injection Hc as <-; rewrite Z.bits_0 in Hbit; done.
Qed.

Lemma well_formed_AddNode (g : ADIGraph) (h : heap) (n : ptr) (s' : world) :
  well_formed (g, h) → AddNode g h n = Ret s' → well_formed s'.
Proof.
  intros (HW & Hnodes & Hlab & Hedges) Hrun. simpl in *.
  destruct (h !! n) as [bn|] eqn:Hn.
  2:{ exfalso. unfold AddNode, Label, deref in Hrun. rewrite Hn in Hrun. simpl in Hrun.
      repeat destruct (_ : bool) in Hrun; discriminate. }
  destruct (AddNode_spec g h n bn ltac:(lia) Hnodes Hn)
    as (g' & h' & Hrun' & HW' & Hnodes' & Hlab' & _ & Hlen & Hboxes).
  rewrite Hrun in Hrun'. injection Hrun' as ->.
  assert (Hsize : Size g' = Size g + 1).
  { unfold Size. rewrite Hnodes', length_app. simpl. lia. }
  unfold well_formed. simpl. rewrite Hsize. repeat split.
  - congruence.
  - rewrite Hnodes', Hlen. apply Forall_app. split; [done|].
    apply Forall_singleton. by eapply lookup_lt_Some.
  - intros l i. rewrite Hlab'. intros Hl.
    apply lookup_insert_Some in Hl as [[_ <-]|[_ Hl]].
    + right. unfold Size. lia.
    + destruct (Hlab l i Hl); [by left | right; lia].
  - apply Forall_lookup. intros i b' Hb'.
    destruct (lookup_lt_is_Some_2 h i) as [b Hb].
    { rewrite <- Hlen. by eapply lookup_lt_Some. }
    destruct (Hboxes i b Hb) as (b'' & Hb'' & Hsame).
    assert (b'' = b') as -> by congruence.
    eapply edges_in_range_zeros; [exact Hsame|].
    eapply edges_in_range_mono; [|eapply Forall_lookup_1; done]. lia.
Qed.

Lemma write_word_fold_invariant (size : Z) (h h' : heap) {A : Type}
    (f : list Box → A → outcome (list Box)) (l : list A) :
  (∀ h0 x h1, x ∈ l → f h0 x = Ret h1 →
     ∃ p b g col, h0 !! p = Some b ∧ h1 = <[p := write_word g col b]> h0 ∧
       ∀ word k, adis b !! col = Some word → 0 ≤ k < 8 →
                 Z.testbit (g word) k = true →
                 Z.testbit word k = true ∨ Z.of_nat col * 8 + k < size) →
  Forall (edges_in_range 8 size) h →
  foldM f h l = Ret h' →
  length h' = length h ∧ Forall (edges_in_range 8 size) h'.
Proof.
  intros Hstep Hh Hrun.
  apply (foldM_invariant
           (fun h0 => length h0 = length h ∧ Forall (edges_in_range 8 size) h0)
           f l h h'); [|done|done].
  intros h0 x h1 Hx [Hlen Hed] Hf.
  destruct (Hstep h0 x h1 Hx Hf) as (p & b & g & col & Hp & -> & Hbits).
  split; [by rewrite length_insert|].
  apply Forall_insert; [done|].
  apply edges_in_range_write; [|done]. by eapply Forall_lookup_1.
Qed.

Lemma resolved_in_range (g : ADIGraph) (ns : list string) (v : Locator) :
  wordSize g = 8 →
  (∀ l i, labels g !! l = Some i → i = -1 ∨ 0 ≤ i < Size g) →
  v ∈ omap (resolved g) ns →
  ∃ i, 0 ≤ i < Size g ∧ v = locate 8 i.
Proof.
  intros HW Hlab (l & _ & Hl)%list_elem_of_omap. unfold resolved in Hl.
  destruct (labels g !! l) as [i|] eqn:E; [|done].
  destruct (Z.eqb_spec i (-1)); [done|]. injection Hl as <-.
  destruct (Hlab l i E); [done|]. exists i. by rewrite HW.
Qed.

Lemma well_formed_Connect (g : ADIGraph) (h : heap) (l : string)
    (ns : list string) (r : option error * list Box) :
  well_formed (g, h) → Connect g h l ns = Ret r → well_formed (g, snd r).
Proof.
  intros Hwf Hrun. pose proof Hwf as (HW & Hnodes & Hlab & Hedges). simpl in *.
  unfold Connect in Hrun. apply bind_Ret_inv in Hrun as ([item|e] & _ & Hrun).
  2:{ injection Hrun as <-. done. }
  rewrite resolve_locations_spec in Hrun;
    [|lia|intros l0 i Hi; destruct (Hlab l0 i Hi); [by left | right; lia]].
  simpl in Hrun. apply bind_Ret_inv in Hrun as (h' & Hfold & Hr).
  injection Hr as <-. simpl.
  eapply write_word_fold_invariant in Hfold as [Hlen Hed]; [|clear Hfold|exact Hedges].
  - unfold well_formed. simpl. rewrite Hlen. done.
  - intros h0 v h1 Hv Hadd.
    apply AddEdges_one in Hadd as (b & Hb & Hc & Hw & ->).
    destruct (resolved_in_range g ns v HW Hlab Hv) as (i & Hi & ->). simpl in *.
    exists item, b, (fun w => Z.lor w (Z.shiftl 1 (i mod 8))), (Z.to_nat (i / 8)).
    split; [done|]. split; [done|].
    intros word k _ Hk Hbit.
    pose proof (Z.mod_pos_bound i 8 ltac:(lia)).
    rewrite Z.shiftl_1_l, lor_pow2_testbit in Hbit by lia.
    apply orb_true_iff in Hbit as [?|Heq%Z.eqb_eq]; [by left|right].
    subst k. rewrite Z2Nat.id by (apply Z.div_pos; lia).
    pose proof (Z.div_mod i 8 ltac:(lia)). lia.
Qed.

Lemma Delete_Ret (h h' : heap) (n : ptr) :
  Delete h n = Ret h' →
  ∃ b, h !! n = Some b ∧ h' = <[n := mkBox (label b) (contents b) (adis b) true]> h.
Proof.
  unfold Delete, deref. destruct (h !! n) as [b|]; [|done]. simpl.
  intros [= <-]. eauto.
Qed.

Lemma well_formed_DeleteByIndex (g : ADIGraph) (h : heap) (index : Z) (s' : world) :
  well_formed (g, h) → DeleteByIndex g h index = Ret s' → well_formed s'.
Proof.
  intros (HW & Hnodes & Hlab & Hedges) Hrun. simpl in *.
  unfold DeleteByIndex in Hrun. apply bind_Ret_inv in Hrun as ([n|e] & _ & Hrun); [|done].
  apply bind_Ret_inv in Hrun as (name & _ & Hrun).
  apply bind_Ret_inv in Hrun as (h1 & Hdel & Hrun).
  apply bind_Ret_inv in Hrun as ([v e] & _ & Hrun).
  apply bind_Ret_inv in Hrun as (h2 & Hfold & Hr). injection Hr as <-.
  simpl in Hfold.
  apply Delete_Ret in Hdel as (bn & Hbn & ->).
  eapply write_word_fold_invariant in Hfold as [Hlen Hed]; [|clear Hfold|].
  - unfold well_formed. simpl. rewrite length_insert in Hlen. rewrite Hlen.
    repeat split; try done.
    intros l i Hl. apply lookup_insert_Some in Hl as [[_ <-]|[_ Hl]]; [by left|].
    by apply (Hlab l i).
  - intros h0 q h3 _ Hrem.
    apply RemoveEdges_one in Hrem as (b & Hb & Hc & Hw & ->).
    exists q, b, (fun w => Z.land w (byte_not (offset v))), (Z.to_nat (column v)).
    split; [done|]. split; [done|].
    intros word k _ _ Hbit. left. by eapply clear_subset.
  - apply Forall_insert; [exact Hedges|].
    intros c word k Hc. simpl in Hc.
    eapply Forall_lookup_1 in Hedges; [|exact Hbn]. by apply Hedges.
Qed.

Lemma well_formed_step (s s' : world) (c : call) :
  well_formed s → step s c = Ret s' → well_formed s'.
Proof.
  destruct s as [g h]. intros Hwf Hstep. destruct c; simpl in Hstep.
  - injection Hstep as <-. by apply well_formed_NewBox.
  - by eapply well_formed_AddNode.
  - apply bind_Ret_inv in Hstep as (r & Hr & Hs). injection Hs as <-.
    by eapply well_formed_Connect.
  - by eapply well_formed_DeleteByIndex.
  - apply bind_Ret_inv in Hstep as (r & Hr & Hs). injection Hs as <-.
    unfold DeleteByLabel in Hr. destruct (labels g !! l) as [i|].
    + apply bind_Ret_inv in Hr as (s1 & Hs1 & Hr). injection Hr as <-. simpl.
      by eapply well_formed_DeleteByIndex.
    + injection Hr as <-. done.
Qed.

Lemma well_formed_init : well_formed (NewGraph, []).
Proof.
  unfold well_formed. simpl. repeat split; try done.
Qed.

Lemma reachable_well_formed (s : world) : reachable s → well_formed s.
Proof.
  intros [calls Hrun]. unfold run in Hrun.
  eapply (foldM_invariant well_formed step calls); [|apply well_formed_init|exact Hrun].
  intros s0 c s1 _. apply well_formed_step.
Qed.

(** ** Word counts after a sequence of insertions *)

Lemma built_words_at (w : Z) (ls : list string) (s : world) (i : nat) :
  built w ls s → (i < length ls)%nat →
  ∃ n, words_at s i = Some n ∧
       Z.of_nat n = 2 + growths w (Z.of_nat (length ls)) - growths w (Z.of_nat i).
Proof.
  intros (_ & Hnodes & Hlen & _ & Hboxes) Hi.
  destruct (lookup_lt_is_Some_2 (snd s) i) as [b Hb]; [lia|].
  exists (length (adis b)). split; [|by apply (Hboxes i b Hb)].
  unfold words_at. rewrite Hnodes, lookup_seq_lt by done. simpl.
  rewrite Hb. done.
Qed.

Lemma built_words_at_None (w : Z) (ls : list string) (s : world) (i : nat) :
  built w ls s → (length ls ≤ i)%nat → words_at s i = None.
Proof.
  intros (_ & Hnodes & _) Hi. unfold words_at.
  rewrite Hnodes, lookup_seq_ge by done. done.
Qed.

(** ** Deletion *)

(** [RemoveEdges] with one locator, on every node of a list. *)
Lemma RemoveEdges_fold (v : Locator) (l : list ptr) (h : heap) :
  0 ≤ column v →
  Forall (fun q => ∃ b, h !! q = Some b ∧
                        (Z.to_nat (column v) < length (adis b))%nat) l →
  let clear := fun w => Z.land w (byte_not (offset v)) in
  ∃ h', foldM (fun h0 q => RemoveEdges h0 q [v]) h l = Ret h' ∧
        length h' = length h ∧
        ∀ q, h' !! q =
             (fun b => if bool_decide (q ∈ l)
                       then write_word clear (Z.to_nat (column v)) b else b)
               <$> h !! q.
Proof.
  intros Hc Hl clear. revert h Hl. induction l as [|q0 l IH]; intros h Hl.
  - exists h. split; [done|]. split; [done|]. intros q. simpl.
    destruct (h !! q); done.
  - apply Forall_cons in Hl as [(b0 & Hb0 & Hlen0) Hl].
    set (h1 := <[q0 := write_word clear (Z.to_nat (column v)) b0]> h).
    assert (Hstep : RemoveEdges h q0 [v] = Ret h1).
    { apply RemoveEdges_one. exists b0. split; [done|]. split; [done|].
      split; [by apply lookup_lt_is_Some_2 | done]. }
    destruct (IH h1) as (h' & Hrun & Hlen & Hboxes).
    { eapply Forall_impl; [exact Hl|]. intros q (b & Hb & Hlenb). simpl.
      destruct (decide (q = q0)) as [->|Hne].
      - exists (write_word clear (Z.to_nat (column v)) b0). split.
        + unfold h1. apply list_lookup_insert_eq. by eapply lookup_lt_Some.
        + simpl. rewrite length_alter. done.
      - exists b. split; [|done]. unfold h1. by rewrite list_lookup_insert_ne. }
    exists h'. split; [simpl; rewrite Hstep; exact Hrun|].
    split; [unfold h1 in Hlen; by rewrite length_insert in Hlen|].
    intros q. rewrite Hboxes. destruct (decide (q = q0)) as [->|Hne].
    + unfold h1. rewrite list_lookup_insert_eq by (by eapply lookup_lt_Some).
      rewrite Hb0. simpl. f_equal.
      rewrite (bool_decide_eq_true_2 (q0 ∈ q0 :: l)) by left.
      destruct (bool_decide (q0 ∈ l)); [|done].
      unfold write_word. simpl. f_equal.
      rewrite list_alter_alter_eq. apply list_alter_ext; [|done].
      intros w _. unfold clear. simpl.
      rewrite <- Z.land_assoc, Z.land_diag. done.
    + unfold h1. rewrite list_lookup_insert_ne by done.
      destruct (h !! q); simpl; [|done]. f_equal.
      destruct (decide (q ∈ l)) as [Hin|Hnin].
      * rewrite !bool_decide_eq_true_2; [done| by right | done].
      * rewrite !bool_decide_eq_false_2; [done| |done].
        intros [?|?]%elem_of_cons; done.
Qed.

Lemma cleared_bit (word k : Z) :
  0 ≤ k < 8 → Z.testbit (Z.land word (byte_not (2 ^ k))) k = false.
Proof.
  intros Hk. rewrite clear_pow2_testbit by lia.
  rewrite Z.eqb_refl, andb_false_r. done.
Qed.

Lemma cleared_mask (word k : Z) :
  0 ≤ k < 8 → Z.land (Z.land word (byte_not (2 ^ k))) (2 ^ k) = 0.
Proof.
  intros Hk. apply Z.eqb_eq. rewrite land_pow2_testbit by lia.
  rewrite cleared_bit by done. done.
Qed.

(** The effect of a deletion on a state in which the index is in the table
    and every node of the table has a word at the deleted node's column. *)
Lemma DeleteByIndex_spec (g : ADIGraph) (h : heap) (i : Z) (p : ptr) (bx : Box) :
  0 < wordSize g ≤ 8 → 0 ≤ i →
  nodes g !! Z.to_nat i = Some p → h !! p = Some bx →
  Forall (fun q => ∃ b, h !! q = Some b ∧
                        (Z.to_nat (i / wordSize g) < length (adis b))%nat) (nodes g) →
  ∃ g' h',
    DeleteByIndex g h i = Ret (g', h') ∧
    nodes g' = nodes g ∧ wordSize g' = wordSize g ∧
    labels g' = <[label bx := -1]> (labels g) ∧
    length h' = length h ∧
    (∀ q b', h' !! q = Some b' →
       ∃ b, h !! q = Some b ∧ label b' = label b ∧
            (deleted b' = true ↔ deleted b = true ∨ q = p) ∧
            length (adis b') = length (adis b) ∧
            (q ∈ nodes g →
               ∀ word, adis b' !! Z.to_nat (i / wordSize g) = Some word →
                       Z.testbit word (i mod wordSize g) = false ∧
                       Z.land word (Z.shiftl 1 (i mod wordSize g)) = 0)).
Proof.
  intros Hw Hi Hp Hbx Hwords.
  pose proof (Z.mod_pos_bound i (wordSize g) ltac:(lia)) as Hmod.
  assert (Hget : GetByIndex g i = Ret (Found p)).
  { unfold GetByIndex. destruct (Z.eqb_spec i (-1)); [lia|].
    assert (index_slice (nodes g) i = Ret p) as -> by (by apply index_slice_Ret). done. }
  set (g' := mkGraph (growthFactor g) (wordSize g) (nodes g)
                     (<[label bx := -1]> (labels g))).
  set (h1 := <[p := mkBox (label bx) (contents bx) (adis bx) true]> h).
  set (v := locate (wordSize g) i).
  destruct (RemoveEdges_fold v (nodes g) h1) as (h' & Hrun & Hlen & Hboxes).
  { simpl. apply Z.div_pos; lia. }
  { eapply Forall_impl; [exact Hwords|]. intros q (b & Hb & Hlenb). simpl.
    destruct (decide (q = p)) as [->|Hne].
    - eexists. split.
      + unfold h1. apply list_lookup_insert_eq. by eapply lookup_lt_Some.
      + simpl. assert (b = bx) as -> by congruence. done.
    - exists b. split; [|done]. unfold h1. by rewrite list_lookup_insert_ne. }
  exists g', h'. split.
  { unfold DeleteByIndex. rewrite Hget. simpl.
    unfold Label, Delete, deref. rewrite Hbx. simpl.
    rewrite (GetLocatorsByIndex_nonneg _ i) by done. simpl. fold g' h1 v.
    rewrite Hrun. done. }
  split; [done|]. split; [done|]. split; [done|].
  split; [unfold h1 in Hlen; by rewrite length_insert in Hlen|].
  intros q b' Hb'. rewrite Hboxes in Hb'.
  assert (Hh1 : ∃ b1, h1 !! q = Some b1 ∧
            (if bool_decide (q ∈ nodes g)
             then write_word (fun w => Z.land w (byte_not (offset v)))
                             (Z.to_nat (column v)) b1 else b1) = b').
  { destruct (h1 !! q) as [b1|]; [|done]. injection Hb' as <-. eauto. }
  destruct Hh1 as (b1 & Hb1 & Hb1').
  assert (Hb : ∃ b, h !! q = Some b ∧ label b1 = label b ∧ adis b1 = adis b ∧
                    (deleted b1 = true ↔ deleted b = true ∨ q = p)).
  { unfold h1 in Hb1. destruct (decide (q = p)) as [->|Hne].
    - rewrite list_lookup_insert_eq in Hb1 by (by eapply lookup_lt_Some).
      injection Hb1 as <-. exists bx. simpl. tauto.
    - rewrite list_lookup_insert_ne in Hb1 by done. exists b1. tauto. }
  destruct Hb as (b & Hb & Hlab & Hadis & Hdel).
  exists b. split; [done|].
  destruct (bool_decide (q ∈ nodes g)) eqn:Hq; subst b'.
  - unfold write_word, v. simpl. rewrite length_alter, Hlab, Hadis.
    split; [done|]. split; [tauto|]. split; [done|].
    intros _ word Hword. rewrite list_lookup_alter_eq in Hword.
    destruct (adis b !! _) as [w0|]; [|done]. injection Hword as <-.
    rewrite !Z.shiftl_1_l. split; [apply cleared_bit | apply cleared_mask]; lia.
  - rewrite Hlab, Hadis. split; [done|]. split; [tauto|]. split; [done|].
    intros Hin. apply bool_decide_eq_false in Hq. done.
Qed.

(** ** Runs of [Neighbors] and [BFS] on well-formed states *)

Lemma well_formed_add_fresh (s s' : world) (l : string) :
  well_formed s → add_fresh s l = Ret s' → well_formed s'.
Proof.
  destruct s as [g h]. unfold add_fresh. simpl. intros Hwf Hrun.
  eapply well_formed_AddNode; [|exact Hrun].
  apply (well_formed_NewBox g h l Hwf).
Qed.

Lemma well_formed_build (ls : list string) (s : world) :
  build 8 ls = Ret s → well_formed s.
Proof.
  intros Hrun. unfold build in Hrun.
  eapply (foldM_invariant well_formed add_fresh ls); [|apply well_formed_init|exact Hrun].
  intros s0 l s1 _. apply well_formed_add_fresh.
Qed.

Lemma well_formed_run (s s' : world) (calls : list call) :
  well_formed s → run s calls = Ret s' → well_formed s'.
Proof.
  intros Hwf Hrun. unfold run in Hrun.
  eapply (foldM_invariant well_formed step calls); [|exact Hwf|exact Hrun].
  intros s0 c s1 _. apply well_formed_step.
Qed.

(** Whatever the scheduler does, [Neighbors] returns the nodes of the
    in-order run, in some order. *)
Lemma Neighbors_order_irrelevant (g : ADIGraph) (h : heap) (choice : list nat)
    (n : ptr) (l0 : list ptr) :
  well_formed (g, h) → Neighbors [] g h n = Ret l0 →
  ∃ l, Neighbors choice g h n = Ret l ∧ l ≡ₚ l0.
Proof.
  intros (HW & _ & _ & Hedges) Hrun. simpl in *.
  assert (Hb : ∃ b, h !! n = Some b).
  { unfold Neighbors, Edges, deref in Hrun. destruct (h !! n); [eauto | done]. }
  destruct Hb as [b Hb].
  pose proof (Forall_lookup_1 _ _ _ _ Hedges Hb) as Hin.
  destruct (Neighbors_scheduled [] g h n b HW Hb Hin) as (l1 & Hl1 & Hp1).
  destruct (Neighbors_scheduled choice g h n b HW Hb Hin) as (l & Hl & Hp).
  exists l. split; [done|]. rewrite Hrun in Hl1. injection Hl1 as <-.
  by rewrite Hp, Hp1.
Qed.

Lemma BFS_loop_found (fuel : nat) (sched : nat → list nat) (k : nat)
    (g : ADIGraph) (h : heap) (v : Locator) (q : ptr) (rest : list ptr) :
  HasEdges h q false [v] = Ret true →
  BFS_loop (S fuel) sched k g h v (q :: rest) = Some (Ret true).
Proof. intros H. simpl. rewrite H. done. Qed.

Lemma BFS_loop_next (fuel : nat) (sched : nat → list nat) (k : nat)
    (g : ADIGraph) (h : heap) (v : Locator) (q : ptr) (rest items : list ptr) :
  HasEdges h q false [v] = Ret false →
  Neighbors (sched k) g h q = Ret items →
  BFS_loop (S fuel) sched k g h v (q :: rest)
  = BFS_loop fuel sched (S k) g h v (rest ++ items).
Proof. intros H1 H2. simpl. rewrite H1, H2. done. Qed.

Lemma BFS_loop_more_fuel (fuel extra : nat) (sched : nat → list nat) (k : nat)
    (g : ADIGraph) (h : heap) (v : Locator) (queue : list ptr) (r : outcome bool) :
  BFS_loop fuel sched k g h v queue = Some r →
  BFS_loop (fuel + extra) sched k g h v queue = Some r.
Proof.
  revert k queue. induction fuel as [|fuel IH]; intros k queue.
  - destruct queue; [|done]. intros [= <-]. destruct extra; done.
  - destruct queue as [|q rest]; [done|]. simpl.
    destruct (HasEdges h q false [v]) as [[|]| |]; try done.
    destruct (Neighbors (sched k) g h q); try done. apply IH.
Qed.

(** The loop is out of fuel only while its queue is not empty. *)
Lemma BFS_loop_running (fuel : nat) (sched : nat → list nat) (k : nat)
    (g : ADIGraph) (h : heap) (v : Locator) (queue : list ptr) :
  BFS_loop fuel sched k g h v queue = None → queue ≠ [].
Proof. destruct fuel, queue; done. Qed.

Lemma Permutation_pair {A : Type} (l : list A) (a b : A) :
  l ≡ₚ [a; b] → l = [a; b] ∨ l = [b; a].
Proof.
  intros Hp. pose proof (Permutation_length Hp) as Hlen.
  destruct l as [|x [|y [|z l]]]; simpl in Hlen; try lia.
  assert (Hx : x ∈ [a; b]) by (rewrite <- Hp; left).
  assert (Hy : y ∈ [a; b]) by (rewrite <- Hp; right; left).
  apply elem_of_cons in Hx as [->|Hx%list_elem_of_singleton].
  - apply Permutation_cons_inv, Permutation_singleton_inj in Hp as ->. by left.
  - subst x. rewrite (Permutation_swap b a []) in Hp.
    apply Permutation_cons_inv, Permutation_singleton_inj in Hp as ->. by right.
Qed.

(** ** Connection *)

Lemma Connect_absent_source (g : ADIGraph) (h : heap) (l : string) (ns : list string) :
  labels g !! l = None → Connect g h l ns = Ret (Some errLabelNotFound, h).
Proof. intros Hl. unfold Connect, GetByLabel. rewrite Hl. done. Qed.

Lemma add_all_length (a : list Z) (locs : list Locator) :
  length (add_all a locs) = length a.
Proof.
  revert a. induction locs as [|v locs IH]; intros a; [done|].
  unfold add_all in *. simpl. rewrite IH, length_alter. done.
Qed.

Lemma add_all_bit (a : list Z) (locs : list Locator) (c : nat) (k : Z) :
  is_Some (a !! c) →
  bit (add_all a locs) c k = bit a c k || sets_bit locs c k.
Proof.
  revert a. induction locs as [|v locs IH]; intros a [w0 Hc].
  - simpl. by rewrite orb_false_r.
  - unfold add_all, sets_bit in *. simpl.
    destruct (decide (Z.to_nat (column v) = c)) as [Heq|Hne].
    + rewrite IH by (rewrite Heq, list_lookup_alter_eq, Hc; by eexists).
      rewrite bool_decide_eq_true_2 by done. unfold bit.
      rewrite Heq, list_lookup_alter_eq, Hc. simpl. rewrite Z.lor_spec.
      by rewrite orb_assoc.
    + rewrite IH by (rewrite list_lookup_alter_ne, Hc; [by eexists | done]).
      rewrite bool_decide_eq_false_2 by done. unfold bit.
      rewrite list_lookup_alter_ne, Hc by done. done.
Qed.

Lemma AddEdges_fold (item : ptr) (locs : list Locator) (h : heap) (b : Box) :
  h !! item = Some b →
  Forall (fun v => 0 ≤ column v ∧ (Z.to_nat (column v) < length (adis b))%nat) locs →
  foldM (fun h0 v => AddEdges h0 item [v]) h locs
  = Ret (<[item := set_adis b (add_all (adis b) locs)]> h).
Proof.
  revert h b. induction locs as [|v locs IH]; intros h b Hb Hlocs.
  - simpl. rewrite list_insert_id; [done|]. destruct b; done.
  - apply Forall_cons in Hlocs as [[Hc Hlt] Hlocs].
    set (b1 := write_word (fun w => Z.lor w (offset v)) (Z.to_nat (column v)) b).
    assert (Hstep : AddEdges h item [v] = Ret (<[item := b1]> h)).
    { apply AddEdges_one. exists b. split; [done|]. split; [done|].
      split; [by apply lookup_lt_is_Some_2 | done]. }
    cbn [foldM]. rewrite Hstep. cbn [bind].
    rewrite (IH _ b1).
    + rewrite list_insert_insert_eq. done.
    + apply list_lookup_insert_eq. by eapply lookup_lt_Some.
    + eapply Forall_impl; [exact Hlocs|]. intros v' [? ?]. simpl.
      rewrite length_alter. done.
Qed.

(** When the source resolves and has a word at the column of every target
    that resolves, [Connect] returns no error, changes the source only, and
    sets on it exactly the bits of the resolved targets' locators. *)
Lemma Connect_resolved (g : ADIGraph) (h : heap) (l : string) (ns : list string)
    (item : ptr) (b : Box) :
  0 < wordSize g ≤ 8 →
  (∀ l0 i, labels g !! l0 = Some i → i = -1 ∨ 0 ≤ i) →
  GetByLabel g l = Ret (Found item) → h !! item = Some b →
  Forall (fun v => (Z.to_nat (column v) < length (adis b))%nat) (omap (resolved g) ns) →
  ∃ b',
    Connect g h l ns = Ret (None, <[item := b']> h) ∧
    label b' = label b ∧ deleted b' = deleted b ∧
    length (adis b') = length (adis b) ∧
    ∀ (c : nat) k, (c < length (adis b))%nat →
      bit (adis b') c k = bit (adis b) c k || sets_bit (omap (resolved g) ns) c k.
Proof.
  intros Hw Hlab Hsrc Hb Hcols.
  exists (set_adis b (add_all (adis b) (omap (resolved g) ns))).
  split.
  { unfold Connect. rewrite Hsrc. cbn [bind].
    rewrite resolve_locations_spec by done. cbn [bind].
    rewrite (AddEdges_fold item _ h b Hb); [done|].
    apply Forall_forall. intros v Hv. split.
    - apply list_elem_of_omap in Hv as (n & _ & Hn). unfold resolved in Hn.
      destruct (labels g !! n) as [i|] eqn:E; [|done].
      destruct (Z.eqb_spec i (-1)); [done|]. injection Hn as <-. simpl.
      destruct (Hlab n i E); [done|]. apply Z.div_pos; lia.
    - rewrite Forall_forall in Hcols. by apply Hcols. }
  simpl. split; [done|]. split; [done|]. split; [apply add_all_length|].
  intros c k Hc. apply add_all_bit. by apply lookup_lt_is_Some_2.
Qed.

Ltac split_facts :=
  repeat match goal with
         | H : (_, _) = (_, _) |- _ => injection H as ? ?
         | H : _ :: _ = _ :: _ |- _ => injection H as ? ?
         | H : [] = [] |- _ => clear H
         end.

Ltac perm_cases H :=
  first [ apply Permutation_nil_r in H; subst
        | apply Permutation_singleton_r in H; subst
        | apply Permutation_pair in H as [-> | ->] ].

(** Runs the loop of [BFS] on a concrete graph, branching on every order in
    which [Neighbors] may deliver the front node's neighbors. *)
Ltac bfs_explore Hwf :=
  lazymatch goal with
  | |- BFS_loop _ _ _ _ _ _ [] = _ => reflexivity
  | |- BFS_loop (S ?f) ?sched ?k ?g ?h ?v (?q :: ?rest) = _ =>
      first
        [ apply BFS_loop_found; eassumption
        | match goal with
          | Hn : Neighbors [] g h q = Ret ?l0 |- _ =>
              let items := fresh "items" in
              let Hrun := fresh "Hrun" in
              let Hp := fresh "Hp" in
              destruct (Neighbors_order_irrelevant g h (sched k) q l0 Hwf Hn)
                as (items & Hrun & Hp);
              rewrite (BFS_loop_next f sched k g h v q rest items) by eassumption;
              clear Hrun; perm_cases Hp; cbn [app]; bfs_explore Hwf
          end ]
  end.

(** ** Clients with several graphs *)

Lemma graph_ok_mono (g : ADIGraph) (h h' : heap) :
  (length h ≤ length h')%nat → graph_ok g h → graph_ok g h'.
Proof.
  intros Hle (HW & Hnodes & Hlab). split; [done|]. split; [|done].
  eapply Forall_impl; [exact Hnodes|]. intros p Hp. simpl in *. lia.
Qed.

Lemma GetByLabel_Found (g : ADIGraph) (l : string) (p : ptr) :
  GetByLabel g l = Ret (Found p) → p ∈ nodes g.
Proof.
  unfold GetByLabel, GetByIndex. destruct (labels g !! l) as [i|]; [|done].
  destruct (i =? -1); [done|]. intros Hr.
  apply bind_Ret_inv in Hr as (q & Hq & [= ->]).
  apply index_slice_Ret in Hq as [_ Hq]. by eapply list_elem_of_lookup_2.
Qed.

Lemma AddNode_boxes (g g' : ADIGraph) (h h' : heap) (n : ptr) :
  graph_ok g h → AddNode g h n = Ret (g', h') →
  graph_ok g' h' ∧ length h' = length h ∧ nodes g' = nodes g ++ [n] ∧
  boxes_kept g' h h'.
Proof.
  intros (HW & Hnodes & Hlab) Hrun.
  destruct (h !! n) as [bn|] eqn:Hn.
  2:{ exfalso. unfold AddNode, Label, deref in Hrun. rewrite Hn in Hrun. simpl in Hrun.
      repeat destruct (_ : bool) in Hrun; discriminate. }
  destruct (AddNode_spec g h n bn ltac:(lia) Hnodes Hn)
    as (g1 & h1 & Hrun' & HW' & Hnodes' & Hlab' & _ & Hlen & Hboxes).
  rewrite Hrun in Hrun'. injection Hrun' as <- <-.
  assert (Hsize : Size g' = Size g + 1).
  { unfold Size. rewrite Hnodes', length_app. simpl. lia. }
  split; [|split; [done|split; [done|]]].
  - split; [congruence|]. split.
    + rewrite Hnodes', Hlen. apply Forall_app. split; [done|].
      apply Forall_singleton. by eapply lookup_lt_Some.
    + intros l i. rewrite Hlab'. intros Hl.
      apply lookup_insert_Some in Hl as [[_ <-]|[_ Hl]].
      * right. unfold Size in *. lia.
      * destruct (Hlab l i Hl); [by left | right; lia].
  - intros p b' Hb'. right.
    destruct (lookup_lt_is_Some_2 h p) as [b Hb].
    { rewrite <- Hlen. by eapply lookup_lt_Some. }
    destruct (Hboxes p b Hb) as (b'' & Hb'' & Hsame).
    assert (b'' = b') as -> by congruence.
    exists b. split; [done|]. intros size Hin _.
    by eapply edges_in_range_zeros.
Qed.

Lemma Connect_boxes (g : ADIGraph) (h h' : heap) (l : string) (ns : list string)
    (e : option error) :
  graph_ok g h → Connect g h l ns = Ret (e, h') →
  length h' = length h ∧ boxes_kept g h h'.
Proof.
  intros (HW & Hnodes & Hlab) Hrun.
  assert (Hsame : ∀ p b', h !! p = Some b' →
            ∃ b, h !! p = Some b ∧
                 ∀ size, edges_in_range 8 size b → p ∉ nodes g ∨ Size g ≤ size →
                         edges_in_range 8 size b') by eauto.
  unfold Connect in Hrun. apply bind_Ret_inv in Hrun as ([item|e0] & Hget & Hrun).
  2:{ injection Hrun as _ <-. split; [done|]. intros p b' Hb'. right. eauto. }
  apply GetByLabel_Found in Hget.
  rewrite resolve_locations_spec in Hrun;
    [|lia|intros l0 i Hi; destruct (Hlab l0 i Hi); [by left | right; lia]].
  simpl in Hrun. apply bind_Ret_inv in Hrun as (h1 & Hfold & Hr).
  injection Hr as _ <-.
  cut (length h1 = length h ∧
       ∀ p b', h1 !! p = Some b' →
         ∃ b, h !! p = Some b ∧
              ∀ size, edges_in_range 8 size b → p ∉ nodes g ∨ Size g ≤ size →
                      edges_in_range 8 size b').
  { intros [Hlen Hk]. split; [done|]. intros p b' Hb'. right. eauto. }
  eapply (foldM_invariant
            (fun h0 => length h0 = length h ∧
               ∀ p b', h0 !! p = Some b' →
                 ∃ b, h !! p = Some b ∧
                      ∀ size, edges_in_range 8 size b → p ∉ nodes g ∨ Size g ≤ size →
                              edges_in_range 8 size b'));
    [|split; [done|exact Hsame]|exact Hfold].
  intros h0 v h2 Hv [Hlen Hk] Hadd.
  apply AddEdges_one in Hadd as (b0 & Hb0 & Hc & Hw & ->).
  split; [by rewrite length_insert|].
  intros p b' Hb'. destruct (decide (p = item)) as [->|Hne].
  - rewrite list_lookup_insert_eq in Hb' by (by eapply lookup_lt_Some).
    injection Hb' as <-.
    destruct (Hk item b0 Hb0) as (b & Hb & Hkeep). exists b. split; [done|].
    intros size Hin [Hout|Hsize]; [done|].
    destruct (resolved_in_range g ns v HW Hlab Hv) as (i & Hi & ->). simpl in *.
    apply edges_in_range_write; [apply Hkeep; auto|].
    intros word k _ Hk8 Hbit.
    pose proof (Z.mod_pos_bound i 8 ltac:(lia)).
    rewrite Z.shiftl_1_l, lor_pow2_testbit in Hbit by lia.
    apply orb_true_iff in Hbit as [?|Heq%Z.eqb_eq]; [by left|right].
    subst k. rewrite Z2Nat.id by (apply Z.div_pos; lia).
    pose proof (Z.div_mod i 8 ltac:(lia)). lia.
  - rewrite list_lookup_insert_ne in Hb' by done. by apply Hk.
Qed.

Lemma DeleteByIndex_boxes (g g' : ADIGraph) (h h' : heap) (index : Z) :
  graph_ok g h → DeleteByIndex g h index = Ret (g', h') →
  graph_ok g' h' ∧ length h' = length h ∧ nodes g' = nodes g ∧
  boxes_kept g' h h'.
Proof.
  intros (HW & Hnodes & Hlab) Hrun.
  unfold DeleteByIndex in Hrun. apply bind_Ret_inv in Hrun as ([n|e] & _ & Hrun); [|done].
  apply bind_Ret_inv in Hrun as (name & _ & Hrun).
  apply bind_Ret_inv in Hrun as (h1 & Hdel & Hrun).
  apply bind_Ret_inv in Hrun as ([v e] & _ & Hrun).
  apply bind_Ret_inv in Hrun as (h2 & Hfold & Hr). injection Hr as <- <-.
  simpl in Hfold.
  apply Delete_Ret in Hdel as (bn & Hbn & ->).
  cut (length h2 = length h ∧
       ∀ p b', h2 !! p = Some b' →
         ∃ b, h !! p = Some b ∧
              ∀ size, edges_in_range 8 size b → edges_in_range 8 size b').
  { intros [Hlen Hk]. split; [|split; [done|split; [done|]]].
    - split; [done|]. simpl. rewrite Hlen. split; [done|].
      intros l i Hl. apply lookup_insert_Some in Hl as [[_ <-]|[_ Hl]]; [by left|].
      by apply (Hlab l i).
    - intros p b' Hb'. right. destruct (Hk p b' Hb') as (b & Hb & Hkeep).
      exists b. split; [done|]. intros size Hin _. by apply Hkeep. }
  eapply (foldM_invariant
            (fun h0 => length h0 = length h ∧
               ∀ p b', h0 !! p = Some b' →
                 ∃ b, h !! p = Some b ∧
                      ∀ size, edges_in_range 8 size b → edges_in_range 8 size b'));
    [| |exact Hfold].
  - intros h0 q h3 _ [Hlen Hk] Hrem.
    apply RemoveEdges_one in Hrem as (b0 & Hb0 & Hc & Hw & ->).
    split; [by rewrite length_insert|].
    intros p b' Hb'. destruct (decide (p = q)) as [->|Hne].
    + rewrite list_lookup_insert_eq in Hb' by (by eapply lookup_lt_Some).
      injection Hb' as <-.
      destruct (Hk q b0 Hb0) as (b & Hb & Hkeep). exists b. split; [done|].
      intros size Hin. apply edges_in_range_write; [by apply Hkeep|].
      intros word k _ _ Hbit. left. by eapply clear_subset.
    + rewrite list_lookup_insert_ne in Hb' by done. by apply Hk.
  - split; [by rewrite length_insert|].
    intros p b' Hb'. destruct (decide (p = n)) as [->|Hne].
    + rewrite list_lookup_insert_eq in Hb' by (by eapply lookup_lt_Some).
      injection Hb' as <-. exists bn. split; [done|].
      intros size Hin c word k Hc. simpl in Hc. by apply Hin.
    + rewrite list_lookup_insert_ne in Hb' by done. eauto.
Qed.

Lemma step_boxes (g g' : ADIGraph) (h h' : heap) (c : call) :
  graph_ok g h → step (g, h) c = Ret (g', h') →
  graph_ok g' h' ∧ (length h ≤ length h')%nat ∧
  (∀ p, p ∈ nodes g → p ∈ nodes g') ∧ Size g ≤ Size g' ∧
  boxes_kept g' h h'.
Proof.
  intros Hok Hstep. destruct c; simpl in Hstep.
  - injection Hstep as <- <-. simpl. rewrite length_app. simpl.
    split; [eapply graph_ok_mono; [|done]; rewrite length_app; simpl; lia|].
    split; [lia|]. split; [done|]. split; [lia|].
    intros p b' Hb'. apply lookup_app_Some in Hb' as [Hb'|[Hlen Hb']].
    + right. eauto.
    + left. split; [by apply lookup_ge_None_2|].
      apply list_lookup_singleton_Some in Hb' as [_ <-].
      intros c word k Hc _ Hbit. simpl in Hc.
      destruct c as [|[|c]]; simpl in Hc; try done;
        injection Hc as <-; rewrite Z.bits_0 in Hbit; done.
  - destruct (AddNode_boxes g g' h h' n Hok Hstep) as (Hok' & Hlen & Hnodes & Hkept).
    split; [done|]. split; [lia|]. split; [|split; [|done]].
    + intros p Hp. rewrite Hnodes. apply elem_of_app. by left.
    + unfold Size. rewrite Hnodes, length_app. simpl. lia.
  - apply bind_Ret_inv in Hstep as ([e h1] & Hr & [= <- <-]).
    destruct (Connect_boxes g h h1 l neighbors e Hok Hr) as [Hlen Hkept].
    split; [eapply graph_ok_mono; [|done]; simpl; lia|].
    split; [simpl; lia|]. split; [done|]. split; [lia|done].
  - destruct (DeleteByIndex_boxes g g' h h' index Hok Hstep)
      as (Hok' & Hlen & Hnodes & Hkept).
    split; [done|]. split; [lia|]. split; [by rewrite Hnodes|].
    split; [unfold Size; rewrite Hnodes; lia | done].
  - apply bind_Ret_inv in Hstep as ([e [g1 h1]] & Hr & [= <- <-]).
    unfold DeleteByLabel in Hr. destruct (labels g !! l) as [i|].
    + apply bind_Ret_inv in Hr as ([g2 h2] & Hd & [= _ <- <-]).
      destruct (DeleteByIndex_boxes g g2 h h2 i Hok Hd)
        as (Hok' & Hlen & Hnodes & Hkept).
      split; [done|]. split; [simpl; lia|]. split; [by rewrite Hnodes|].
      split; [unfold Size; rewrite Hnodes; lia | done].
    + injection Hr as _ <- <-. split; [done|]. split; [done|]. split; [done|].
      split; [lia|]. intros p b' Hb'. right. eauto.
Qed.

Lemma client_inv_on_graph (gs : list ADIGraph) (h : heap) (k : nat) (c : call)
    (s' : list ADIGraph * list Box) :
  client_inv (gs, h) → on_graph gs h k c = Ret s' → client_inv s'.
Proof.
  intros (Hoks & Hfree & Hown) Hrun. simpl in *. unfold on_graph in Hrun.
  destruct (gs !! k) as [g|] eqn:Hg; [|done].
  apply bind_Ret_inv in Hrun as ([g' h'] & Hstep & [= <-]). simpl.
  destruct (step_boxes g g' h h' c (Hoks k g Hg) Hstep)
    as (Hok' & Hlen & Hsub & Hsize & Hkept).
  assert (Hk : (k < length gs)%nat) by (by eapply lookup_lt_Some).
  assert (Hg' : <[k := g']> gs !! k = Some g') by (by apply list_lookup_insert_eq).
  assert (Hfree' : ∀ p, in_no_table (<[k := g']> gs) p → in_no_table gs p).
  { intros p Hp j gj Hj. destruct (decide (j = k)) as [->|Hne].
    - assert (gj = g) as -> by congruence. intros Hin. by apply (Hp k g' Hg'), Hsub.
    - apply (Hp j gj). by rewrite list_lookup_insert_ne. }
  unfold client_inv. simpl. split; [|split].
  - intros j gj Hj. destruct (decide (j = k)) as [->|Hne].
    + by assert (gj = g') as -> by congruence.
    + rewrite list_lookup_insert_ne in Hj by done.
      eapply graph_ok_mono; [exact Hlen|]. by apply (Hoks j).
  - intros p b' Hb' Hp. destruct (Hkept p b' Hb') as [[_ H0]|(b & Hb & Hkeep)]; [done|].
    apply Hkeep; [by apply (Hfree p b Hb), Hfree'|]. left. by apply (Hp k g' Hg').
  - intros j gj p b' Hj Hin Hb' Hun.
    destruct (Hkept p b' Hb') as [[_ H0]|(b & Hb & Hkeep)].
    { eapply edges_in_range_mono; [|exact H0]. unfold Size. lia. }
    destruct (decide (j = k)) as [->|Hne].
    + assert (gj = g') as -> by congruence.
      apply Hkeep; [|right; lia].
      assert (Hun0 : unshared gs k p).
      { intros i gi Hi Hgi. apply (Hun i gi Hi). by rewrite list_lookup_insert_ne. }
      destruct (decide (p ∈ nodes g)) as [Hpg|Hpg].
      * eapply edges_in_range_mono; [exact Hsize|]. by apply (Hown k g p b).
      * eapply edges_in_range_mono; [|apply (Hfree p b Hb)].
        { unfold Size. lia. }
        intros i gi Hgi. destruct (decide (i = k)) as [->|Hi].
        -- by assert (gi = g) as -> by congruence.
        -- by apply (Hun0 i gi).
    + rewrite list_lookup_insert_ne in Hj by done.
      assert (Hout : p ∉ nodes g') by (by apply (Hun k g')).
      apply Hkeep; [|by left]. apply (Hown j gj p b Hj Hin Hb).
      intros i gi Hi Hgi. destruct (decide (i = k)) as [->|Hik].
      * assert (gi = g) as -> by congruence. intros Hpg. by apply Hout, Hsub.
      * apply (Hun i gi Hi). by rewrite list_lookup_insert_ne.
Qed.

Lemma client_inv_step (s s' : list ADIGraph * list Box) (c : client_call) :
  client_inv s → client_step s c = Ret s' → client_inv s'.
Proof.
  destruct s as [gs h]. intros Hinv Hstep.
  destruct c; simpl in Hstep; try (by eapply client_inv_on_graph).
  - injection Hstep as <-. destruct Hinv as (Hoks & Hfree & Hown). simpl in *.
    unfold client_inv. simpl. split; [|split].
    + intros k g Hg. apply lookup_app_Some in Hg as [Hg|[_ Hg]]; [by apply (Hoks k)|].
      apply list_lookup_singleton_Some in Hg as [_ <-].
      split; [done|]. split; [by apply Forall_nil|]. intros l i Hl. done.
    + intros p b Hb Hp. apply (Hfree p b Hb).
      intros j g Hj. apply (Hp j g). by apply lookup_app_l_Some.
    + intros k g p b Hg Hin Hb Hun.
      apply lookup_app_Some in Hg as [Hg|[_ Hg]].
      * apply (Hown k g p b Hg Hin Hb).
        intros j gj Hj Hgj. apply (Hun j gj Hj). by apply lookup_app_l_Some.
      * apply list_lookup_singleton_Some in Hg as [_ <-]. simpl in Hin.
        by apply elem_of_nil in Hin.
  - injection Hstep as <-. destruct Hinv as (Hoks & Hfree & Hown). simpl in *.
    unfold client_inv. simpl. split; [|split].
    + intros k g Hg. eapply graph_ok_mono; [|by apply (Hoks k)].
      rewrite length_app. simpl. lia.
    + intros p b Hb Hp. apply lookup_app_Some in Hb as [Hb|[_ Hb]]; [by apply (Hfree p b)|].
      apply list_lookup_singleton_Some in Hb as [_ <-].
      intros c word k Hc _ Hbit. simpl in Hc.
      destruct c as [|[|c]]; simpl in Hc; try done;
        injection Hc as <-; rewrite Z.bits_0 in Hbit; done.
    + intros k g p b Hg Hin Hb Hun.
      apply (Hown k g p b Hg Hin); [|done].
      destruct (Hoks k g Hg) as (_ & Hvalid & _). rewrite Forall_forall in Hvalid.
      specialize (Hvalid p Hin). simpl in Hvalid.
      by rewrite lookup_app_l in Hb.
Qed.

Lemma client_reachable_inv (s : list ADIGraph * list Box) :
  client_reachable s → client_inv s.
Proof.
  intros [calls Hrun]. unfold client_run in Hrun.
  eapply (foldM_invariant client_inv client_step calls); [| |exact Hrun].
  - intros s0 c s1 _. apply client_inv_step.
  - unfold client_inv. simpl. split; [|split].
    + intros k g Hg. done.
    + intros p b Hb. done.
    + intros k g p b Hg. done.
Qed.

(** A client with one graph is a client. *)
Lemma run_client_run (calls : list call) (g g' : ADIGraph) (h h' : heap) :
  run (g, h) calls = Ret (g', h') →
  client_run ([g], h) (on_first <$> calls) = Ret ([g'], h').
Proof.
  revert g h. induction calls as [|c calls IH]; intros g h Hrun.
  - injection Hrun as <- <-. done.
  - unfold run in Hrun. cbn [foldM] in Hrun.
    apply bind_Ret_inv in Hrun as ([g1 h1] & Hstep & Hrun).
    unfold client_run. cbn [fmap list_fmap foldM].
    assert (Hc : client_step ([g], h) (on_first c) = Ret ([g1], h1)).
    { destruct c; simpl in Hstep |- *; unfold on_graph; simpl;
        try (rewrite Hstep; done).
      injection Hstep as <- <-. done. }
    rewrite Hc. cbn [bind]. by apply IH.
Qed.

Lemma reachable_client_reachable (g : ADIGraph) (h : heap) :
  reachable (g, h) → client_reachable ([g], h).
Proof.
  intros [calls Hrun]. exists (ClientNewGraph :: (on_first <$> calls)).
  unfold client_run. cbn [foldM client_step bind app].
  by apply run_client_run.
Qed.

Lemma unshared_table_closed (gs : list ADIGraph) (h : heap) (k : nat) (g : ADIGraph) :
  client_reachable (gs, h) → gs !! k = Some g →
  (∀ p, p ∈ nodes g → unshared gs k p) →
  wordSize g = 8 ∧ table_closed g h.
Proof.
  intros Hreach Hg Hun.
  destruct (client_reachable_inv _ Hreach) as (Hoks & _ & Hown). simpl in *.
  destruct (Hoks k g Hg) as (HW & Hvalid & _). split; [done|].
  unfold table_closed. apply Forall_forall. intros p Hp.
  rewrite Forall_forall in Hvalid.
  destruct (lookup_lt_is_Some_2 h p (Hvalid p Hp)) as [b Hb].
  exists b. split; [done|]. by apply (Hown k g p b); [| | |apply Hun].
Qed.


(** A goroutine whose bit is set and whose index is outside the table
    panics, whatever the others do before it. *)
Lemma foldM_lookup_panic (g : ADIGraph) (cap : nat) (ts : list (Z * Z * Z))
    (ch : list ptr) :
  forallb (misses_or_panics g) ts = true →
  existsb task_hit ts = true →
  foldM (lookup g cap) ch ts = Panic.
Proof.
  induction ts as [|t ts IH]; [done|]. cbn [forallb existsb foldM].
  intros [Ht Hts]%andb_true_iff Hex. rewrite lookup_unfold.
  unfold misses_or_panics in Ht. destruct (task_hit t); simpl in Ht, Hex.
  - destruct (GetByIndex g (task_index g t)); done.
  - cbn [bind]. by apply IH.
Qed.

Lemma forallb_Permutation {A : Type} (f : A → bool) (l l' : list A) :
  l ≡ₚ l' → forallb f l = forallb f l'.
Proof.
  induction 1 as [|x l l' _ IH|x y l|l l' l'' _ IH _ IH']; simpl;
    [done | by rewrite IH | by destruct (f x), (f y) | congruence].
Qed.

Lemma existsb_Permutation {A : Type} (f : A → bool) (l l' : list A) :
  l ≡ₚ l' → existsb f l = existsb f l'.
Proof.
  induction 1 as [|x l l' _ IH|x y l|l l' l'' _ IH _ IH']; simpl;
    [done | by rewrite IH | by destruct (f x), (f y) | congruence].
Qed.

(** * The claims *)

(** C1, as amended.  Inserting a fresh node after [ls] makes the graph grow
    exactly when the table length before appending, [length ls], is a
    positive multiple of the word size, which is the test [AddNode] makes
    before it appends.  When it grows, the growth factor goes up by one and
    every node of the table, the new one included, gets one more word;
    otherwise nothing changes and the new node has its two words. *)
Theorem growth_when_table_was_full (w : Z) (ls : list string) (l : string) :
  0 < w →
  (growth_fired w ls l = true ↔
     0 < Z.of_nat (length ls) ∧ Z.of_nat (length ls) mod w = 0) ∧
  ∃ s s',
    build w ls = Ret s ∧ build w (ls ++ [l]) = Ret s' ∧
    Size (fst s') = Z.of_nat (length ls) + 1 ∧
    let d := if growth_fired w ls l then 1%nat else 0%nat in
    growthFactor (fst s') = growthFactor (fst s) + Z.of_nat d ∧
    (∀ i n, words_at s i = Some n → words_at s' i = Some (n + d)%nat) ∧
    words_at s' (length ls) = Some (2 + d)%nat.
Proof.
  intros Hw. pose proof (growth_fired_spec w ls l Hw) as Hfired.
  split.
  { rewrite Hfired. unfold at_capacity. rewrite andb_true_iff, Z.ltb_lt, Z.eqb_eq. done. }
  destruct (build_built w ls Hw) as (s & Hs & Hb).
  destruct (build_built w (ls ++ [l]) Hw) as (s' & Hs' & Hb').
  exists s, s'. split; [done|]. split; [done|].
  pose proof (growths_succ w (Z.of_nat (length ls)) Hw ltac:(lia)) as Hstep.
  rewrite <- Hfired in Hstep.
  assert (Hlen : length (ls ++ [l]) = S (length ls)) by (rewrite length_app; simpl; lia).
  pose proof Hb as (_ & _ & _ & Hgf & _).
  pose proof Hb' as (_ & Hnodes' & _ & Hgf' & _).
  rewrite Hlen in Hgf'.
  replace (Z.of_nat (S (length ls))) with (Z.of_nat (length ls) + 1) in Hgf' by lia.
  split; [unfold Size; rewrite Hnodes', length_seq; lia|].
  split; [rewrite Hgf', Hgf, Hstep; destruct (growth_fired w ls l); lia|].
  split.
  - intros i n Hn.
    destruct (decide (i < length ls)%nat) as [Hi|Hi].
    2:{ rewrite (built_words_at_None w ls s i Hb) in Hn by lia. done. }
    destruct (built_words_at w ls s i Hb Hi) as (n0 & Hn0 & Hwords).
    destruct (built_words_at w (ls ++ [l]) s' i Hb' ltac:(lia)) as (n1 & Hn1 & Hwords').
    rewrite Hn1. f_equal. assert (n0 = n) as -> by congruence.
    rewrite Hlen in Hwords'.
    replace (Z.of_nat (S (length ls))) with (Z.of_nat (length ls) + 1) in Hwords' by lia.
    rewrite Hstep in Hwords'. destruct (growth_fired w ls l); lia.
  - destruct (built_words_at w (ls ++ [l]) s' (length ls) Hb' ltac:(lia))
      as (n1 & Hn1 & Hwords').
    rewrite Hn1. f_equal. rewrite Hlen in Hwords'.
    replace (Z.of_nat (S (length ls))) with (Z.of_nat (length ls) + 1) in Hwords' by lia.
    rewrite Hstep in Hwords'. destruct (growth_fired w ls l); lia.
Qed.

(** With word size 8: no growth on the first and on the 8th insertion,
    growth on the 9th and on the 17th. *)
Lemma growth_when_table_was_full_witness :
  0 < 8 ∧
  (growth_fired 8 (node_labels 8) "Node 8" = true ↔
     0 < Z.of_nat (length (node_labels 8)) ∧ Z.of_nat (length (node_labels 8)) mod 8 = 0) ∧
  growth_fired 8 [] "Node 0" = false ∧
  growth_fired 8 (node_labels 7) "Node 7" = false ∧
  growth_fired 8 (node_labels 8) "Node 8" = true ∧
  growth_fired 8 (node_labels 16) "Node 16" = true.
Proof.
  split; [lia|]. split.
  - apply (growth_when_table_was_full 8 (node_labels 8) "Node 8"). lia.
  - repeat split; vm_compute; reflexivity.
Defined.

(** C1 as stated fails: the 8th insertion into a graph of word size 8 brings
    the table length to 8, a positive multiple of 8, and growth does not
    fire. *)
Lemma growth_not_on_fill :
  ¬ (∀ (w : Z) (ls : list string) (l : string), 0 < w →
       (growth_fired w ls l = true ↔
          0 < Z.of_nat (length (ls ++ [l])) ∧ Z.of_nat (length (ls ++ [l])) mod w = 0)).
Proof.
  intros H. specialize (H 8 (node_labels 7) "Node 7" ltac:(lia)).
  assert (Hno : growth_fired 8 (node_labels 7) "Node 7" = false) by (vm_compute; reflexivity).
  rewrite Hno in H. destruct H as [_ H].
  assert (false = true); [|done]. apply H. vm_compute. split; reflexivity.
Qed.




(** C3, as amended.  In a graph whose nodes all have a word at the column
    of index [i], deleting the node [x] at that index, by [DeleteByIndex] or
    by [DeleteByLabel] on a label mapped to [i], leaves the size unchanged,
    clears the bit of [x]'s locator in every node of the table, flags [x]
    deleted, and makes [GetByLabel] on [x]'s label fail with [errDeleted]
    (the label stays in the index, mapped to the sentinel -1). *)
Theorem delete_scrubs_and_keeps_slot (g : ADIGraph) (h : heap) (i : Z) (x : ptr) (bx : Box) :
  0 < wordSize g ≤ 8 → 0 ≤ i →
  nodes g !! Z.to_nat i = Some x → h !! x = Some bx →
  column_present g h i →
  ∃ g' h',
    DeleteByIndex g h i = Ret (g', h') ∧
    (∀ l, labels g !! l = Some i → DeleteByLabel g h l = Ret (None, (g', h'))) ∧
    Size g' = Size g ∧
    GetByLabel g' (label bx) = Ret (Failed errDeleted) ∧
    Deleted h' x = Ret true ∧
    ∀ q, q ∈ nodes g' →
      HasEdges h' q false [locate (wordSize g) i] = Ret false ∧
      ∃ b' word, h' !! q = Some b' ∧
                 adis b' !! Z.to_nat (i / wordSize g) = Some word ∧
                 Z.testbit word (i mod wordSize g) = false.
Proof.
  intros Hw Hi Hx Hbx Hcols.
  destruct (DeleteByIndex_spec g h i x bx Hw Hi Hx Hbx Hcols)
    as (g' & h' & Hrun & Hnodes & HW & Hlab & Hlen & Hboxes).
  exists g', h'. split; [done|]. split.
  { intros l Hl. unfold DeleteByLabel. rewrite Hl, Hrun. done. }
  split; [unfold Size; by rewrite Hnodes|]. split.
  { unfold GetByLabel. rewrite Hlab, lookup_insert_eq. done. }
  assert (Hsome : ∀ q, q ∈ nodes g → ∃ b b', h !! q = Some b ∧ h' !! q = Some b' ∧
            (Z.to_nat (i / wordSize g) < length (adis b))%nat).
  { intros q Hq. unfold column_present in Hcols. rewrite Forall_forall in Hcols.
    destruct (Hcols q Hq) as (b & Hb & Hlenb).
    destruct (lookup_lt_is_Some_2 h' q) as [b' Hb'].
    { rewrite Hlen. by eapply lookup_lt_Some. }
    eauto. }
  split.
  { destruct (Hsome x) as (b & b' & Hb & Hb' & _).
    { by eapply list_elem_of_lookup_2. }
    destruct (Hboxes x b' Hb') as (b0 & _ & _ & Hdel & _).
    unfold Deleted, deref. rewrite Hb'. simpl. f_equal. apply Hdel. by right. }
  intros q Hq. rewrite Hnodes in Hq.
  destruct (Hsome q Hq) as (b & b' & Hb & Hb' & Hlenb).
  destruct (Hboxes q b' Hb') as (b0 & Hb0 & _ & _ & Hlen' & Hbits).
  assert (b0 = b) as -> by congruence.
  destruct (lookup_lt_is_Some_2 (adis b') (Z.to_nat (i / wordSize g))) as [word Hword];
    [lia|].
  destruct (Hbits Hq word Hword) as [Hbit Hmask].
  split; [|by eauto].
  unfold HasEdges, deref. rewrite Hb'. simpl.
  assert (index_slice (adis b') (i / wordSize g) = Ret word) as ->.
  { apply index_slice_Ret. split; [apply Z.div_pos; lia | done]. }
  simpl. rewrite Hmask. done.
Qed.

Lemma delete_scrubs_and_keeps_slot_witness :
  let g := mkGraph 0 8 [0; 1]%nat (<["b" := 1]> (<["a" := 0]> ∅)) in
  let h := [mkBox "a" "" [0; 0] false; mkBox "b" "" [1; 0] false] in
  ∃ g' h',
    DeleteByIndex g h 0 = Ret (g', h') ∧
    (∀ l, labels g !! l = Some 0 → DeleteByLabel g h l = Ret (None, (g', h'))) ∧
    Size g' = Size g ∧
    GetByLabel g' "a" = Ret (Failed errDeleted) ∧
    Deleted h' 0%nat = Ret true ∧
    ∀ q, q ∈ nodes g' →
      HasEdges h' q false [locate 8 0] = Ret false ∧
      ∃ b' word, h' !! q = Some b' ∧
                 adis b' !! Z.to_nat (0 / 8) = Some word ∧
                 Z.testbit word (0 mod 8) = false.
Proof.
  intros g h.
  apply (delete_scrubs_and_keeps_slot g h 0 0%nat (mkBox "a" "" [0; 0] false)).
  - simpl. lia.
  - lia.
  - reflexivity.
  - reflexivity.
  - unfold column_present.
    constructor; [eexists; split; [reflexivity | vm_compute; lia]|].
    constructor; [eexists; split; [reflexivity | vm_compute; lia]|].
    constructor.
Defined.

(** C3 as stated fails: after a deletion the label is still in the index,
    mapped to -1, and [GetByLabel] reports [errDeleted], not
    [errLabelNotFound]. *)
Lemma deleted_label_is_not_absent :
  ¬ (∀ s r, build 8 ["x"] = Ret s →
            DeleteByLabel (fst s) (snd s) "x" = Ret r →
            GetByLabel (fst (snd r)) "x" = Ret (Failed errLabelNotFound)).
Proof.
  intros H.
  destruct (build 8 ["x"]) as [s| |] eqn:Hs; [|by vm_compute in Hs..].
  destruct (DeleteByLabel (fst s) (snd s) "x") as [r| |] eqn:Hr.
  - specialize (H s r eq_refl Hr).
    assert (E : (s0 <- build 8 ["x"] ;; r0 <- DeleteByLabel (fst s0) (snd s0) "x" ;;
                 GetByLabel (fst (snd r0)) "x") = Ret (Failed errLabelNotFound)).
    { rewrite Hs. simpl. rewrite Hr. simpl. exact H. }
    vm_compute in E. discriminate.
  - assert (E : (s0 <- build 8 ["x"] ;; DeleteByLabel (fst s0) (snd s0) "x") = Panic).
    { rewrite Hs. simpl. exact Hr. }
    vm_compute in E. discriminate.
  - assert (E : (s0 <- build 8 ["x"] ;; DeleteByLabel (fst s0) (snd s0) "x") = Deadlock).
    { rewrite Hs. simpl. exact Hr. }
    vm_compute in E. discriminate.
Qed.

(** C4 fails on the code: the second [DeleteByLabel] of the same label finds
    the sentinel -1 in the index, [DeleteByIndex] drops the error of
    [GetByIndex] and calls [Label] on the nil node, which panics. *)
Theorem second_DeleteByLabel_panics :
  (s <- build 8 ["a"] ;;
   r <- DeleteByLabel (fst s) (snd s) "a" ;;
   Ret (fst r, labels (fst (snd r)) !! "a",
        DeleteByLabel (fst (snd r)) (snd (snd r)) "a"))
  = Ret (None, Some (-1), Panic).
Proof. vm_compute. reflexivity. Qed.

(** C5 fails on the code: in a graph of eighteen fresh nodes the last node
    has two words (it was inserted after both growth steps), ["Node 16"]
    resolves to column 2, and [Connect] panics in [AddEdges] instead of
    setting the bit. *)
Theorem Connect_from_late_node_panics :
  (s <- build 8 (node_labels 18) ;;
   Ret (GetByLabel (fst s) "Node 17", GetLocatorsByLabel (fst s) "Node 16",
        words_at s 17, Connect (fst s) (snd s) "Node 17" ["Node 16"]))
  = Ret (Ret (Found 17%nat), Ret (mkLocator 2 1, None), Some 2%nat, Panic).
Proof. vm_compute. reflexivity. Qed.

(** C6, as amended.  In a graph of word size 8, for a node all of whose set
    bits stand for indices inside the node table, whatever order the
    scheduler picks, [Neighbors] returns normally and a node is in the
    result exactly when it sits at index [c * W + k] for a set bit [k] of
    word [c] of the node; so the result, as a set, does not depend on the
    run.  A lookup whose resolution fails sends nothing and raises
    nothing. *)
Theorem Neighbors_is_the_edge_set (g : ADIGraph) (h : heap) (n : ptr) (b : Box)
    (choice : list nat) :
  wordSize g = 8 → h !! n = Some b → edges_in_range 8 (Size g) b →
  ∃ l,
    Neighbors choice g h n = Ret l ∧
    (∀ q, q ∈ l ↔ edge_target g b q) ∧
    (∀ t cap ch e, GetByIndex g (task_index g t) = Ret (Failed e) →
                   lookup g cap ch t = Ret ch).
Proof.
  intros HW Hb Hin.
  destruct (Neighbors_scheduled choice g h n b HW Hb Hin) as (l & Hl & Hp).
  exists l. split; [done|]. split.
  - intros q. rewrite Hp, list_elem_of_omap. unfold edge_target. split.
    + intros (t & Ht & Hq). apply elem_of_spawn in Ht as (c & word & k & -> & Hc & Hk).
      unfold task_target in Hq. rewrite task_hit_testbit in Hq by lia.
      destruct (Z.testbit word k) eqn:Hbit; [|done].
      exists c, word, k. done.
    + intros (c & word & k & Hc & Hk & Hbit & Hq).
      exists (Z.of_nat c, word, k). split; [apply elem_of_spawn; eauto 10|].
      unfold task_target. rewrite task_hit_testbit, Hbit by lia. done.
  - intros t cap ch e. apply lookup_failed.
Qed.

Lemma Neighbors_is_the_edge_set_witness :
  let g := mkGraph 0 8 [0; 1]%nat (<["b" := 1]> (<["a" := 0]> ∅)) in
  let h := [mkBox "a" "" [2; 0] false; mkBox "b" "" [0; 0] false] in
  ∃ l,
    Neighbors [1; 0; 3]%nat g h 0 = Ret l ∧
    (∀ q, q ∈ l ↔ edge_target g (mkBox "a" "" [2; 0] false) q) ∧
    (∀ t cap ch e, GetByIndex g (task_index g t) = Ret (Failed e) →
                   lookup g cap ch t = Ret ch).
Proof.
  intros g h.
  apply (Neighbors_is_the_edge_set g h 0%nat (mkBox "a" "" [2; 0] false)
           [1; 0; 3]%nat).
  - reflexivity.
  - reflexivity.
  - intros c word k Hc Hk Hbit. unfold g, Size. simpl.
    destruct c as [|[|c]]; simpl in Hc; try done; injection Hc as <-.
    + assert (k = 1) as ->; [|lia].
      assert (k = 0 ∨ k = 1 ∨ k = 2 ∨ k = 3 ∨ k = 4 ∨ k = 5 ∨ k = 6 ∨ k = 7)
        as [->|[->|[->|[->|[->|[->|[->| ->]]]]]]] by lia; done.
    + rewrite Z.bits_0 in Hbit. done.
Defined.

(** C6 as stated fails: not in every graph.  A box that was connected in
    one graph and then added to a second one carries a set bit that stands
    for no index of the second table, and [Neighbors] of the second graph
    panics on it under every scheduler instead of returning a set. *)
Lemma Neighbors_panics_on_shared_box :
  ∃ g1 g2 h,
    shared_box = Ret ([g1; g2], h) ∧ nodes g2 = [0%nat] ∧
    ∀ choice, Neighbors choice g2 h 0 = Panic.
Proof.
  remember shared_box as o eqn:E. vm_compute in E. subst o.
  eexists _, _, _. split; [reflexivity|]. split; [reflexivity|].
  intros choice. unfold Neighbors, Edges, deref. cbn [lookup bind nodes length].
  simpl (_ !! _). cbn [bind adis wordSize].
  apply foldM_lookup_panic.
  - rewrite (forallb_Permutation _ _ _ (schedule_Permutation choice _)).
    vm_compute. reflexivity.
  - rewrite (existsb_Permutation _ _ _ (schedule_Permutation choice _)).
    vm_compute. reflexivity.
Qed.

(** C7.  On the driver's graph, for every behaviour of the scheduler, the
    search from ["Node 0"] to ["Node 9"] returns true (within six rounds of
    the loop) and the search from ["Node 9"] to ["Node 0"] returns false. *)
Theorem demo_BFS (sched : nat → list nat) (fuel : nat) :
  BFS_by_label (6 + fuel) sched demo "Node 0" "Node 9" = Some (Ret true) ∧
  BFS_by_label fuel sched demo "Node 9" "Node 0" = Some (Ret false).
Proof.
  destruct demo as [[g h]| |] eqn:Hdemo; [|by vm_compute in Hdemo..].
  assert (Hwf : well_formed (g, h)).
  { unfold demo in Hdemo. apply bind_Ret_inv in Hdemo as (s0 & Hb & Hr).
    eapply well_formed_run; [eapply well_formed_build|]; eauto. }
  remember (demo_facts (g, h)) as o eqn:Ho.
  assert (E : (s <- demo ;; Ret (demo_facts s)) = Ret o)
    by (rewrite Hdemo; simpl; congruence).
  vm_compute in E. injection E as <-.
  unfold demo_facts, observe in Ho. cbn [fmap list_fmap seq fst snd] in Ho.
  symmetry in Ho. split_facts.
  split.
  - cbn [BFS_by_label Nat.add].
    repeat match goal with H : GetByLabel _ _ = _ |- _ => rewrite H; clear H end.
    unfold BFS.
    repeat match goal with H : (_ <- Label _ _ ;; _) = _ |- _ => rewrite H; clear H end.
    match goal with H : HasEdges h 0 false [mkLocator 1 2] = _ |- _ => rewrite H end.
    match goal with Hn : Neighbors [] g h 0 = Ret ?l0 |- _ =>
      destruct (Neighbors_order_irrelevant g h (sched O) 0%nat l0 Hwf Hn)
        as (items & -> & Hp) end.
    perm_cases Hp; bfs_explore Hwf.
  - cbn [BFS_by_label].
    repeat match goal with H : GetByLabel _ _ = _ |- _ => rewrite H; clear H end.
    unfold BFS.
    repeat match goal with H : (_ <- Label _ _ ;; _) = _ |- _ => rewrite H; clear H end.
    match goal with H : HasEdges h 9 false [mkLocator 0 1] = _ |- _ => rewrite H end.
    match goal with Hn : Neighbors [] g h 9 = Ret ?l0 |- _ =>
      destruct (Neighbors_order_irrelevant g h (sched O) 9%nat l0 Hwf Hn)
        as (items & -> & Hp) end.
    perm_cases Hp. destruct fuel; reflexivity.
Qed.

(** C8.  With nodes ["a"] and ["b"] connected to each other and a node
    ["c"] that neither points to, the search from ["a"] to ["c"] is still
    in its loop after any number of rounds, for every behaviour of the
    scheduler: the queue alternates between [b] and [a] and is never
    empty ([BFS_loop] answers [None] only on a non-empty queue). *)
Theorem BFS_cycle_never_returns (sched : nat → list nat) (fuel : nat) :
  BFS_by_label fuel sched cycle "a" "c" = None.
Proof.
  destruct cycle as [[g h]| |] eqn:Hcycle; [|by vm_compute in Hcycle..].
  assert (Hwf : well_formed (g, h)).
  { unfold cycle in Hcycle. apply bind_Ret_inv in Hcycle as (s0 & Hb & Hr).
    eapply well_formed_run; [eapply well_formed_build|]; eauto. }
  remember (cycle_facts (g, h)) as o eqn:Ho.
  assert (E : (s <- cycle ;; Ret (cycle_facts s)) = Ret o)
    by (rewrite Hcycle; simpl; congruence).
  vm_compute in E. injection E as <-.
  unfold cycle_facts, observe in Ho. cbn [fmap list_fmap seq fst snd] in Ho.
  symmetry in Ho. split_facts.
  assert (Hloop : ∀ fuel k,
            BFS_loop fuel sched k g h (mkLocator 0 4) [0%nat] = None ∧
            BFS_loop fuel sched k g h (mkLocator 0 4) [1%nat] = None).
  { clear fuel. induction fuel as [|fuel IH]; intros k; [done|]. split.
    - match goal with Hn : Neighbors [] g h 0 = Ret ?l0 |- _ =>
        destruct (Neighbors_order_irrelevant g h (sched k) 0%nat l0 Hwf Hn)
          as (items & Hrun & Hp) end.
      rewrite (BFS_loop_next fuel sched k g h _ _ [] items) by eassumption.
      perm_cases Hp. apply IH.
    - match goal with Hn : Neighbors [] g h 1 = Ret ?l0 |- _ =>
        destruct (Neighbors_order_irrelevant g h (sched k) 1%nat l0 Hwf Hn)
          as (items & Hrun & Hp) end.
      rewrite (BFS_loop_next fuel sched k g h _ _ [] items) by eassumption.
      perm_cases Hp. apply IH. }
  cbn [BFS_by_label].
  repeat match goal with H : GetByLabel _ _ = _ |- _ => rewrite H; clear H end.
  unfold BFS.
  repeat match goal with H : (_ <- Label _ _ ;; _) = _ |- _ => rewrite H; clear H end.
  match goal with H : HasEdges h 0 false _ = _ |- _ => rewrite H end.
  match goal with Hn : Neighbors [] g h 0 = Ret ?l0 |- _ =>
    destruct (Neighbors_order_irrelevant g h (sched O) 0%nat l0 Hwf Hn)
      as (items & -> & Hp) end.
  perm_cases Hp. apply Hloop.
Qed.

(** C9.  For a word size between 1 and 8 (the graph's is 8) and
    non-negative indices, [GetLocatorsByIndex] succeeds with column
    [i div W] and mask [1 << (i mod W)], distinct indices get distinct
    (column, mask) pairs, and index -1 fails with [errDeleted]. *)
Theorem locators_are_distinct (g : ADIGraph) (i j : Z) :
  0 < wordSize g ≤ 8 → 0 ≤ i → 0 ≤ j →
  GetLocatorsByIndex g i = Ret (locate (wordSize g) i, None) ∧
  (i ≠ j → ∀ vi vj ei ej,
     GetLocatorsByIndex g i = Ret (vi, ei) →
     GetLocatorsByIndex g j = Ret (vj, ej) →
     (column vi, offset vi) ≠ (column vj, offset vj)) ∧
  ∃ v, GetLocatorsByIndex g (-1) = Ret (v, Some errDeleted).
Proof.
  intros Hw Hi Hj. split; [by apply GetLocatorsByIndex_nonneg|]. split; [|by eexists].
  intros Hne vi vj ei ej. rewrite !GetLocatorsByIndex_nonneg by done.
  intros [= <- <-] [= <- <-]. unfold locate. simpl. intros [= Hcol Hmask].
  apply Hne.
  pose proof (Z.mod_pos_bound i (wordSize g) ltac:(lia)).
  pose proof (Z.mod_pos_bound j (wordSize g) ltac:(lia)).
  rewrite !Z.shiftl_1_l in Hmask. apply Z.pow_inj_r in Hmask; [|lia..].
  rewrite (Z.div_mod i (wordSize g)), (Z.div_mod j (wordSize g)) by lia.
  congruence.
Qed.

Lemma locators_are_distinct_witness :
  GetLocatorsByIndex NewGraph 3 = Ret (locate (wordSize NewGraph) 3, None) ∧
  (3 ≠ 11 → ∀ vi vj ei ej,
     GetLocatorsByIndex NewGraph 3 = Ret (vi, ei) →
     GetLocatorsByIndex NewGraph 11 = Ret (vj, ej) →
     (column vi, offset vi) ≠ (column vj, offset vj)) ∧
  ∃ v, GetLocatorsByIndex NewGraph (-1) = Ret (v, Some errDeleted).
Proof.
  apply (locators_are_distinct NewGraph 3 11).
  - simpl. lia.
  - lia.
  - lia.
Defined.

(** C10, as amended.  In every state that a client with any number of
    graphs reaches from [NewGraph] through [NewBox], [AddNode], [Connect],
    [DeleteByIndex] and [DeleteByLabel], for every graph and every node of
    its table that is in the table of no other graph, every set bit [k] of
    every word [c] of the node stands for an index [c * W + k] below the
    size of the table; so each lookup of [Neighbors] that finds its bit
    set resolves an index inside the table, and [Neighbors] returns
    normally for the node. *)
Theorem edges_stay_in_table (gs : list ADIGraph) (h : heap) (k : nat)
    (g : ADIGraph) (n : ptr) :
  client_reachable (gs, h) → gs !! k = Some g → n ∈ nodes g → unshared gs k n →
  wordSize g = 8 ∧
  ∃ b, h !! n = Some b ∧
       edges_in_range (wordSize g) (Size g) b ∧
       (∀ t, t ∈ spawn (wordSize g) (adis b) → task_hit t = true →
             0 ≤ task_index g t < Size g ∧
             ∃ q, GetByIndex g (task_index g t) = Ret (Found q)) ∧
       (∀ choice, ∃ l, Neighbors choice g h n = Ret l).
Proof.
  intros Hreach Hg Hn Hun.
  destruct (client_reachable_inv _ Hreach) as (Hoks & _ & Hown). simpl in *.
  destruct (Hoks k g Hg) as (HW & Hvalid & _). split; [done|].
  rewrite Forall_forall in Hvalid.
  destruct (lookup_lt_is_Some_2 h n (Hvalid n Hn)) as [b Hb].
  pose proof (Hown k g n b Hg Hn Hb Hun) as Hin.
  exists b. split; [done|]. rewrite HW. split; [done|]. split.
  - intros t Ht Hhit.
    pose proof (spawn_safe g b HW Hin) as Hsafe. rewrite HW in Hsafe.
    rewrite Forall_forall in Hsafe. specialize (Hsafe t Ht Hhit).
    split; [done|]. destruct (GetByIndex_in_range g _ Hsafe) as (q & _ & Hq). eauto.
  - intros choice.
    destruct (Neighbors_scheduled choice g h n b HW Hb Hin) as (l & Hl & _). eauto.
Qed.

Lemma edges_stay_in_table_witness :
  let g := mkGraph 0 8 [0; 1]%nat (<["b" := 1]> (<["a" := 0]> ∅)) in
  let g' := mkGraph 0 8 [2]%nat (<["c" := 0]> ∅) in
  let h := [mkBox "a" "" [2; 0] false; mkBox "b" "" [0; 0] false;
            mkBox "c" "" [0; 0] false] in
  wordSize g = 8 ∧
  ∃ b, h !! 0%nat = Some b ∧
       edges_in_range (wordSize g) (Size g) b ∧
       (∀ t, t ∈ spawn (wordSize g) (adis b) → task_hit t = true →
             0 ≤ task_index g t < Size g ∧
             ∃ q, GetByIndex g (task_index g t) = Ret (Found q)) ∧
       (∀ choice, ∃ l, Neighbors choice g h 0 = Ret l).
Proof.
  intros g g' h. apply (edges_stay_in_table [g; g'] h 0%nat g 0%nat).
  - exists [ClientNewGraph; ClientNewGraph;
            ClientNewBox "a"; ClientNewBox "b"; ClientNewBox "c";
            ClientAddNode 0 0; ClientAddNode 0 1; ClientAddNode 1 2;
            ClientConnect 0 "a" ["b"]].
    vm_compute. reflexivity.
  - reflexivity.
  - left.
  - intros j gj Hj Hgj. destruct j as [|[|j]]; [done| |done].
    injection Hgj as <-. simpl.
    intros Hin%list_elem_of_singleton. done.
Defined.

(** C10 as stated fails: the listed calls reach a graph with a set bit
    outside its table.  After ["a"] has been connected to ["c"] in a graph
    of three nodes and added to a second graph, the second table has one
    node and bit 2 of its word 0 is set; the lookup for that bit reads
    past the end of the table. *)
Lemma shared_box_edge_leaves_table :
  ∃ g1 g2 h b,
    shared_box = Ret ([g1; g2], h) ∧
    nodes g2 = [0%nat] ∧ Size g2 = 1 ∧ h !! 0%nat = Some b ∧
    adis b !! 0%nat = Some 4 ∧ Z.testbit 4 2 = true ∧
    ¬ edges_in_range (wordSize g2) (Size g2) b ∧
    lookup g2 (length (nodes g2)) [] (0, 4, 2) = Panic.
Proof.
  remember shared_box as o eqn:E. vm_compute in E. subst o.
  eexists _, _, _, _. split; [reflexivity|].
  split; [reflexivity|]. split; [reflexivity|]. split; [reflexivity|].
  split; [reflexivity|]. split; [reflexivity|]. split; [|reflexivity].
  intros Hin. specialize (Hin 0%nat 4 2 eq_refl ltac:(simpl; lia) eq_refl).
  vm_compute in Hin. done.
Qed.

(** * Further properties of the code *)

(** ** Edges of a box *)

Lemma update_word_eq (f : Z → Z) (a : list Z) (v : Locator) :
  update_word f a (column v)
  = if in_range (length a) v then Ret (alter f (Z.to_nat (column v)) a) else Panic.
Proof.
  unfold in_range. destruct (update_word f a (column v)) as [a'| |] eqn:E.
  - apply update_word_Ret in E as (Hc & Hw & ->). apply lookup_lt_is_Some in Hw.
    rewrite (proj2 (Z.leb_le _ _)), (proj2 (Z.ltb_lt _ _)) by lia. done.
  - destruct (Z.leb_spec 0 (column v)), (Z.ltb_spec (column v) (Z.of_nat (length a)));
      try done.
    assert (Hret : update_word f a (column v) = Ret (alter f (Z.to_nat (column v)) a)).
    { apply update_word_Ret. split; [done|]. split; [|done].
      apply lookup_lt_is_Some_2. lia. }
    congruence.
  - unfold update_word, index_slice in E.
    destruct (column v <? 0); [done|]. destruct (a !! _); done.
Qed.

Lemma update_fold (f : Locator → Z → Z) (locs : list Locator) (a : list Z) :
  foldM (fun a0 v => update_word (f v) a0 (column v)) a locs
  = if forallb (in_range (length a)) locs
    then Ret (foldl (fun a0 v => alter (f v) (Z.to_nat (column v)) a0) a locs)
    else Panic.
Proof.
  revert a. induction locs as [|v locs IH]; intros a; [done|].
  cbn [foldM forallb foldl]. rewrite update_word_eq.
  destruct (in_range (length a) v); [|done]. cbn [bind andb].
  rewrite IH, length_alter. done.
Qed.

Lemma AddEdges_eq (h : heap) (p : ptr) (b : Box) (locs : list Locator) :
  h !! p = Some b →
  AddEdges h p locs
  = if forallb (in_range (length (adis b))) locs
    then Ret (<[p := set_adis b (add_all (adis b) locs)]> h) else Panic.
Proof.
  intros Hb. unfold AddEdges, deref. rewrite Hb. cbn [bind].
  change (foldM add_edge (adis b) locs)
    with (foldM (fun a0 v => update_word ((fun v0 w => Z.lor w (offset v0)) v) a0 (column v))
                (adis b) locs).
  rewrite update_fold. destruct (forallb _ locs); done.
Qed.

Lemma RemoveEdges_eq (h : heap) (p : ptr) (b : Box) (locs : list Locator) :
  h !! p = Some b →
  RemoveEdges h p locs
  = if forallb (in_range (length (adis b))) locs
    then Ret (<[p := set_adis b (remove_all (adis b) locs)]> h) else Panic.
Proof.
  intros Hb. unfold RemoveEdges, deref. rewrite Hb. cbn [bind].
  change (foldM remove_edge (adis b) locs)
    with (foldM (fun a0 v => update_word
                   ((fun v0 w => Z.land w (byte_not (offset v0))) v) a0 (column v))
                (adis b) locs).
  rewrite update_fold. destruct (forallb _ locs); done.
Qed.

Lemma remove_all_length (a : list Z) (locs : list Locator) :
  length (remove_all a locs) = length a.
Proof.
  revert a. induction locs as [|v locs IH]; intros a; [done|].
  unfold remove_all in *. simpl. rewrite IH, length_alter. done.
Qed.

Lemma remove_all_bit (a : list Z) (locs : list Locator) (c : nat) (k : Z) :
  bit (remove_all a locs) c k = bit a c k && keeps_bit locs c k.
Proof.
  revert a. induction locs as [|v locs IH]; intros a.
  - simpl. by rewrite andb_true_r.
  - unfold remove_all, keeps_bit in *. simpl. rewrite IH.
    destruct (decide (Z.to_nat (column v) = c)) as [Heq|Hne].
    + rewrite bool_decide_eq_true_2 by done. unfold bit.
      rewrite Heq, list_lookup_alter_eq. simpl.
      destruct (a !! c); simpl; [|done]. rewrite Z.land_spec. by rewrite andb_assoc.
    + rewrite bool_decide_eq_false_2 by done. unfold bit.
      rewrite list_lookup_alter_ne by done. done.
Qed.

(** Two lists of words with the same length and the same bits are equal. *)
Lemma words_eq (a a' : list Z) :
  length a = length a' →
  (∀ c k, is_Some (a !! c) → bit a c k = bit a' c k) → a = a'.
Proof.
  intros Hlen Hbits. apply list_eq. intros c.
  destruct (a !! c) as [w|] eqn:Hc.
  - destruct (lookup_lt_is_Some_2 a' c) as [w' Hc'].
    { rewrite <- Hlen. by eapply lookup_lt_Some. }
    rewrite Hc'. f_equal. apply Z.bits_inj. intros k.
    specialize (Hbits c k). unfold bit in Hbits. rewrite Hc, Hc' in Hbits.
    apply Hbits. by eexists.
  - symmetry. apply lookup_ge_None. rewrite <- Hlen. by apply lookup_ge_None.
Qed.

Lemma in_range_spec (n : nat) (v : Locator) :
  in_range n v = true ↔ 0 ≤ column v < Z.of_nat n.
Proof. unfold in_range. rewrite andb_true_iff, Z.leb_le, Z.ltb_lt. done. Qed.

Lemma index_slice_in_range (a : list Z) (v : Locator) :
  index_slice a (column v)
  = if in_range (length a) v then Ret (word_of a v) else Panic.
Proof.
  unfold word_of. destruct (in_range (length a) v) eqn:E.
  - apply in_range_spec in E.
    destruct (lookup_lt_is_Some_2 a (Z.to_nat (column v))) as [w Hw]; [lia|].
    rewrite Hw. apply index_slice_Ret. split; [lia | done].
  - destruct (index_slice a (column v)) as [w| |] eqn:Hs; [|done|].
    + apply index_slice_Ret in Hs as [Hc Hw%lookup_lt_Some].
      assert (in_range (length a) v = true) by (apply in_range_spec; lia). congruence.
    + unfold index_slice in Hs. destruct (column v <? 0); [done|].
      destruct (a !! _); done.
Qed.

Lemma has_all_eq (a : list Z) (locs : list Locator) :
  forallb (in_range (length a)) locs = true →
  has_all a locs
  = Ret (forallb (fun v => Z.land (word_of a v) (offset v) =? offset v) locs).
Proof.
  induction locs as [|v locs IH]; [done|]. cbn [forallb has_all].
  intros [Hv Hlocs]%andb_true_iff. rewrite index_slice_in_range, Hv. cbn [bind].
  destruct (_ =? offset v); [by apply IH | done].
Qed.

Lemma has_any_eq (a : list Z) (locs : list Locator) :
  forallb (in_range (length a)) locs = true →
  has_any a locs
  = Ret (existsb (fun v => 0 <? Z.land (word_of a v) (offset v)) locs).
Proof.
  induction locs as [|v locs IH]; [done|]. cbn [forallb existsb has_any].
  intros [Hv Hlocs]%andb_true_iff. rewrite index_slice_in_range, Hv. cbn [bind].
  destruct (0 <? _); [done | by apply IH].
Qed.

(** X1.  On a node whose words cover the locator's column, and for a
    non-zero byte mask: after [AddEdges] both the strict and the non-strict
    [HasEdges] answer true, and after [RemoveEdges] of the same locator the
    non-strict one answers false. *)
Theorem edges_round_trip (h : heap) (p : ptr) (b : Box) (v : Locator) :
  h !! p = Some b → in_range (length (adis b)) v = true → 0 < offset v < 256 →
  ∃ h1 h2,
    AddEdges h p [v] = Ret h1 ∧
    HasEdges h1 p false [v] = Ret true ∧ HasEdges h1 p true [v] = Ret true ∧
    RemoveEdges h1 p [v] = Ret h2 ∧
    HasEdges h2 p false [v] = Ret false.
Proof.
  intros Hb Hv Hoff. pose proof (proj1 (in_range_spec _ _) Hv) as Hcol.
  destruct (lookup_lt_is_Some_2 (adis b) (Z.to_nat (column v))) as [w Hw]; [lia|].
  assert (Hp : (p < length h)%nat) by (by eapply lookup_lt_Some).
  set (b1 := set_adis b (add_all (adis b) [v])).
  set (h1 := <[p := b1]> h).
  assert (Hb1 : h1 !! p = Some b1) by (by apply list_lookup_insert_eq).
  assert (Hv1 : in_range (length (adis b1)) v = true).
  { unfold b1. simpl. rewrite length_alter. done. }
  assert (Hw1 : word_of (adis b1) v = Z.lor w (offset v)).
  { unfold word_of, b1. simpl. rewrite list_lookup_alter_eq, Hw. done. }
  set (b2 := set_adis b1 (remove_all (adis b1) [v])).
  set (h2 := <[p := b2]> h1).
  assert (Hb2 : h2 !! p = Some b2).
  { apply list_lookup_insert_eq. unfold h1. by rewrite length_insert. }
  assert (Hv2 : in_range (length (adis b2)) v = true).
  { unfold b2. simpl. rewrite !length_alter. done. }
  assert (Hw2 : word_of (adis b2) v
                = Z.land (Z.lor w (offset v)) (byte_not (offset v))).
  { assert (Hl1 : adis b1 !! Z.to_nat (column v) = Some (Z.lor w (offset v))).
    { unfold b1. simpl. rewrite list_lookup_alter_eq, Hw. done. }
    unfold word_of, b2. cbn [adis set_adis remove_all foldl].
    rewrite list_lookup_alter_eq, Hl1. done. }
  assert (Hset : Z.land (Z.lor w (offset v)) (offset v) = offset v).
  { apply Z.bits_inj. intros k. rewrite Z.land_spec, Z.lor_spec.
    destruct (Z.testbit w k), (Z.testbit (offset v) k); done. }
  assert (Hclear : Z.land (Z.land (Z.lor w (offset v)) (byte_not (offset v)))
                          (offset v) = 0).
  { apply Z.bits_inj'. intros k Hk. unfold byte_not.
    rewrite !Z.land_spec, Z.lxor_spec, Z.bits_0.
    destruct (Z.testbit (offset v) k) eqn:Hbit; rewrite ?andb_false_r; [|done].
    destruct (Z.ltb_spec k 8) as [Hlt|Hge].
    - change 255 with (Z.ones 8). rewrite Z.ones_spec_low by lia.
      by rewrite andb_false_r.
    - exfalso. rewrite Z.bits_above_log2 in Hbit; [done | lia|].
      apply Z.log2_lt_pow2; [lia|]. apply Z.lt_le_trans with (2 ^ 8); [simpl; lia|].
      apply Z.pow_le_mono_r; lia. }
  exists h1, h2. split.
  { rewrite (AddEdges_eq h p b [v] Hb). cbn [forallb]. by rewrite Hv. }
  split.
  { unfold HasEdges, deref. rewrite Hb1. cbn [bind].
    rewrite has_any_eq by (cbn [forallb]; by rewrite Hv1).
    cbn [existsb]. rewrite Hw1, Hset.
    by rewrite (proj2 (Z.ltb_lt _ _)) by lia. }
  split.
  { unfold HasEdges, deref. rewrite Hb1. cbn [bind].
    rewrite has_all_eq by (cbn [forallb]; by rewrite Hv1).
    cbn [forallb]. rewrite Hw1, Hset, Z.eqb_refl. done. }
  split.
  { rewrite (RemoveEdges_eq h1 p b1 [v] Hb1). cbn [forallb]. by rewrite Hv1. }
  unfold HasEdges, deref. rewrite Hb2. cbn [bind].
  rewrite has_any_eq by (cbn [forallb]; by rewrite Hv2).
  cbn [existsb]. rewrite Hw2, Hclear. done.
Qed.

Lemma edges_round_trip_witness :
  ∃ h1 h2,
    AddEdges [mkBox "a" "" [0; 0] false] 0 [mkLocator 1 4] = Ret h1 ∧
    HasEdges h1 0 false [mkLocator 1 4] = Ret true ∧
    HasEdges h1 0 true [mkLocator 1 4] = Ret true ∧
    RemoveEdges h1 0 [mkLocator 1 4] = Ret h2 ∧
    HasEdges h2 0 false [mkLocator 1 4] = Ret false.
Proof.
  apply (edges_round_trip [mkBox "a" "" [0; 0] false] 0
           (mkBox "a" "" [0; 0] false) (mkLocator 1 4)).
  - reflexivity.
  - reflexivity.
  - simpl. lia.
Defined.

(** X2.  When every locator's column is inside the node's words, the strict
    [HasEdges] is the conjunction over the locators of "all the mask's bits
    are set" and the non-strict one the disjunction of "some bit of the
    mask is set"; on an empty list they answer true and false. *)
Theorem HasEdges_all_or_any (h : heap) (p : ptr) (b : Box) (locs : list Locator) :
  h !! p = Some b → forallb (in_range (length (adis b))) locs = true →
  HasEdges h p true locs
  = Ret (forallb (fun v => Z.land (word_of (adis b) v) (offset v) =? offset v) locs) ∧
  HasEdges h p false locs
  = Ret (existsb (fun v => 0 <? Z.land (word_of (adis b) v) (offset v)) locs) ∧
  HasEdges h p true [] = Ret true ∧ HasEdges h p false [] = Ret false.
Proof.
  intros Hb Hlocs. unfold HasEdges, deref. rewrite Hb. cbn [bind].
  rewrite has_all_eq, has_any_eq by done. done.
Qed.

Lemma HasEdges_all_or_any_witness :
  let h := [mkBox "a" "" [5; 0] false] in
  let locs := [mkLocator 0 4; mkLocator 1 1] in
  HasEdges h 0 true locs
  = Ret (forallb (fun v => Z.land (word_of [5; 0] v) (offset v) =? offset v) locs) ∧
  HasEdges h 0 false locs
  = Ret (existsb (fun v => 0 <? Z.land (word_of [5; 0] v) (offset v)) locs) ∧
  HasEdges h 0 true [] = Ret true ∧ HasEdges h 0 false [] = Ret false.
Proof.
  intros h locs. apply (HasEdges_all_or_any h 0 (mkBox "a" "" [5; 0] false) locs).
  - reflexivity.
  - reflexivity.
Defined.

(** X3.  [HasEdges] returns at the first locator that decides the answer
    and never indexes the locators after it: past in-range locators, a hit
    makes the non-strict query true and a miss makes the strict query
    false whatever follows, even a column outside the words; a column
    outside the words that is reached panics. *)
Theorem HasEdges_stops_at_decision (h : heap) (p : ptr) (b : Box)
    (pre rest : list Locator) (v : Locator) :
  h !! p = Some b →
  forallb (in_range (length (adis b))) pre = true →
  (in_range (length (adis b)) v = true →
   0 < Z.land (word_of (adis b) v) (offset v) →
   HasEdges h p false (pre ++ v :: rest) = Ret true) ∧
  (in_range (length (adis b)) v = true →
   Z.land (word_of (adis b) v) (offset v) ≠ offset v →
   HasEdges h p true (pre ++ v :: rest) = Ret false) ∧
  (in_range (length (adis b)) v = false →
   existsb (fun u => 0 <? Z.land (word_of (adis b) u) (offset u)) pre = false →
   HasEdges h p false (pre ++ v :: rest) = Panic) ∧
  (in_range (length (adis b)) v = false →
   forallb (fun u => Z.land (word_of (adis b) u) (offset u) =? offset u) pre = true →
   HasEdges h p true (pre ++ v :: rest) = Panic).
Proof.
  intros Hb Hpre. unfold HasEdges, deref. rewrite Hb. cbn [bind].
  induction pre as [|u pre IH]; cbn [app has_any has_all forallb existsb] in *.
  - rewrite !index_slice_in_range. repeat split.
    + intros -> Hhit. cbn [bind]. by rewrite (proj2 (Z.ltb_lt _ _)).
    + intros -> Hmiss. cbn [bind]. by rewrite (proj2 (Z.eqb_neq _ _)).
    + intros -> _. done.
    + intros -> _. done.
  - apply andb_true_iff in Hpre as [Hu Hpre].
    destruct (IH Hpre) as (IH1 & IH2 & IH3 & IH4).
    rewrite !index_slice_in_range, Hu. cbn [bind]. repeat split.
    + intros Hv Hhit. destruct (0 <? _); [done | by apply IH1].
    + intros Hv Hmiss. destruct (_ =? offset u); [by apply IH2 | done].
    + intros Hv [Hno Hnone]%orb_false_iff. rewrite Hno. by apply IH3.
    + intros Hv [Hyes Hall]%andb_true_iff. rewrite Hyes. by apply IH4.
Qed.

Lemma HasEdges_stops_at_decision_witness :
  let h := [mkBox "a" "" [5; 0] false] in
  let b := mkBox "a" "" [5; 0] false in
  let pre := [mkLocator 1 1] in
  let rest := [mkLocator 7 1] in
  let v := mkLocator 0 4 in
  (in_range (length (adis b)) v = true →
   0 < Z.land (word_of (adis b) v) (offset v) →
   HasEdges h 0 false (pre ++ v :: rest) = Ret true) ∧
  (in_range (length (adis b)) v = true →
   Z.land (word_of (adis b) v) (offset v) ≠ offset v →
   HasEdges h 0 true (pre ++ v :: rest) = Ret false) ∧
  (in_range (length (adis b)) v = false →
   existsb (fun u => 0 <? Z.land (word_of (adis b) u) (offset u)) pre = false →
   HasEdges h 0 false (pre ++ v :: rest) = Panic) ∧
  (in_range (length (adis b)) v = false →
   forallb (fun u => Z.land (word_of (adis b) u) (offset u) =? offset u) pre = true →
   HasEdges h 0 true (pre ++ v :: rest) = Panic).
Proof.
  intros h b pre rest v. apply (HasEdges_stops_at_decision h 0 b pre rest v).
  - reflexivity.
  - reflexivity.
Defined.

Lemma forallb_false {A : Type} (f : A → bool) (l : list A) :
  forallb f l = false ↔ ∃ x, x ∈ l ∧ f x = false.
Proof.
  induction l as [|y l IH]; cbn [forallb].
  - split; [done|]. intros (x & Hx & _). by apply not_elem_of_nil in Hx.
  - rewrite andb_false_iff, IH. split.
    + intros [Hy|(x & Hx & Hf)]; [exists y; split; [left | done]|].
      exists x. split; [by right | done].
    + intros (x & [->|Hx]%elem_of_cons & Hf); [by left | right; eauto].
Qed.

(** X4.  [AddEdges] and [RemoveEdges] never check a column against the
    node's words: on a valid node each panics exactly when one of the
    locators has a column outside [0, len(adis)), and otherwise returns. *)
Theorem edge_writes_panic_out_of_range (h : heap) (p : ptr) (b : Box)
    (locs : list Locator) :
  h !! p = Some b →
  let bad := ∃ v, v ∈ locs ∧ ¬ (0 ≤ column v < Z.of_nat (length (adis b))) in
  (AddEdges h p locs = Panic ↔ bad) ∧
  (RemoveEdges h p locs = Panic ↔ bad) ∧
  (¬ bad → ∃ h1 h2, AddEdges h p locs = Ret h1 ∧ RemoveEdges h p locs = Ret h2).
Proof.
  intros Hb bad.
  assert (Hbad : forallb (in_range (length (adis b))) locs = false ↔ bad).
  { unfold bad. rewrite forallb_false. split.
    - intros (v & Hin & Hv). exists v. split; [done|].
      rewrite <- in_range_spec. by rewrite Hv.
    - intros (v & Hin & Hv). exists v. split; [done|].
      apply not_true_is_false. by rewrite in_range_spec. }
  rewrite (AddEdges_eq h p b locs Hb), (RemoveEdges_eq h p b locs Hb).
  destruct (forallb _ locs) eqn:E.
  - split; [|split].
    + split; [done|]. intros H. apply Hbad in H. done.
    + split; [done|]. intros H. apply Hbad in H. done.
    + intros _. eauto.
  - split; [|split].
    + split; [intros _; by apply Hbad | done].
    + split; [intros _; by apply Hbad | done].
    + intros Hnot. exfalso. by apply Hnot, Hbad.
Qed.

Lemma edge_writes_panic_out_of_range_witness :
  let h := [mkBox "a" "" [0; 0] false] in
  let locs := [mkLocator 0 1; mkLocator 2 1] in
  let bad := ∃ v, v ∈ locs ∧ ¬ (0 ≤ column v < Z.of_nat (length [0; 0])) in
  (AddEdges h 0 locs = Panic ↔ bad) ∧
  (RemoveEdges h 0 locs = Panic ↔ bad) ∧
  (¬ bad → ∃ h1 h2, AddEdges h 0 locs = Ret h1 ∧ RemoveEdges h 0 locs = Ret h2).
Proof.
  intros h locs.
  apply (edge_writes_panic_out_of_range h 0 (mkBox "a" "" [0; 0] false) locs).
  reflexivity.
Defined.

(** X5.  [AddEdges] and [RemoveEdges] are idempotent: repeating a call that
    returned leaves the store as the first call left it. *)
Theorem edge_writes_idempotent (h h1 : heap) (p : ptr) (locs : list Locator) :
  (AddEdges h p locs = Ret h1 → AddEdges h1 p locs = Ret h1) ∧
  (RemoveEdges h p locs = Ret h1 → RemoveEdges h1 p locs = Ret h1).
Proof.
  split; intros Hrun.
  - assert (Hb : ∃ b, h !! p = Some b).
    { unfold AddEdges, deref in Hrun. destruct (h !! p); [eauto | done]. }
    destruct Hb as [b Hb]. rewrite (AddEdges_eq h p b locs Hb) in Hrun.
    destruct (forallb _ locs) eqn:E; [|done]. injection Hrun as <-.
    assert (Hp : (p < length h)%nat) by (by eapply lookup_lt_Some).
    rewrite (AddEdges_eq _ p (set_adis b (add_all (adis b) locs)) locs)
      by (by apply list_lookup_insert_eq).
    cbn [adis set_adis]. rewrite add_all_length, E, list_insert_insert_eq.
    do 2 f_equal. unfold set_adis. cbn [label contents deleted]. f_equal.
    symmetry. apply words_eq; [by rewrite !add_all_length|].
    intros c k Hc. rewrite (add_all_bit (add_all (adis b) locs) locs c k Hc).
    assert (Hc0 : is_Some (adis b !! c)).
    { apply lookup_lt_is_Some. apply lookup_lt_is_Some in Hc.
      by rewrite add_all_length in Hc. }
    rewrite add_all_bit by done. by destruct (bit (adis b) c k), (sets_bit locs c k).
  - assert (Hb : ∃ b, h !! p = Some b).
    { unfold RemoveEdges, deref in Hrun. destruct (h !! p); [eauto | done]. }
    destruct Hb as [b Hb]. rewrite (RemoveEdges_eq h p b locs Hb) in Hrun.
    destruct (forallb _ locs) eqn:E; [|done]. injection Hrun as <-.
    assert (Hp : (p < length h)%nat) by (by eapply lookup_lt_Some).
    rewrite (RemoveEdges_eq _ p (set_adis b (remove_all (adis b) locs)) locs)
      by (by apply list_lookup_insert_eq).
    cbn [adis set_adis]. rewrite remove_all_length, E, list_insert_insert_eq.
    do 2 f_equal. unfold set_adis. cbn [label contents deleted]. f_equal.
    symmetry. apply words_eq; [by rewrite !remove_all_length|].
    intros c k _. rewrite !remove_all_bit.
    by destruct (bit (adis b) c k), (keeps_bit locs c k).
Qed.

Lemma edge_writes_idempotent_witness :
  let h := [mkBox "a" "" [3; 0] false] in
  let locs := [mkLocator 0 2; mkLocator 1 8] in
  AddEdges (<[0%nat := mkBox "a" "" [3; 8] false]> h) 0 locs
  = Ret (<[0%nat := mkBox "a" "" [3; 8] false]> h) ∧
  RemoveEdges (<[0%nat := mkBox "a" "" [1; 0] false]> h) 0 locs
  = Ret (<[0%nat := mkBox "a" "" [1; 0] false]> h).
Proof.
  intros h locs. split.
  - apply (edge_writes_idempotent h _ 0%nat locs). reflexivity.
  - apply (edge_writes_idempotent h _ 0%nat locs). reflexivity.
Defined.

(** ** What the calls leave in place *)

Lemma labels_insert (h : heap) (p : ptr) (b b' : Box) :
  h !! p = Some b → label b' = label b →
  label <$> <[p := b']> h = label <$> h.
Proof.
  intros Hb Hl. rewrite list_fmap_insert, Hl. apply list_insert_id.
  rewrite list_lookup_fmap, Hb. done.
Qed.

Lemma AddColumn_labels (l : list ptr) (h h' : heap) :
  foldM AddColumn h l = Ret h' → label <$> h' = label <$> h.
Proof.
  apply (foldM_invariant (fun h0 => label <$> h0 = label <$> h) AddColumn l h h'); [|done].
  intros h0 p h1 _ Hh0 Hstep. unfold AddColumn, deref in Hstep.
  destruct (h0 !! p) as [b|] eqn:Hb; [|done]. injection Hstep as <-.
  rewrite <- Hh0. by apply (labels_insert h0 p b).
Qed.

Lemma AddEdges_one_labels (locs : list Locator) (item : ptr) (h h' : heap) :
  foldM (fun h0 v => AddEdges h0 item [v]) h locs = Ret h' →
  label <$> h' = label <$> h.
Proof.
  apply (foldM_invariant (fun h0 => label <$> h0 = label <$> h)
           (fun h0 v => AddEdges h0 item [v]) locs h h'); [|done].
  intros h0 v h1 _ Hh0 Hstep. apply AddEdges_one in Hstep as (b & Hb & _ & _ & ->).
  rewrite <- Hh0. by apply (labels_insert h0 item b).
Qed.

Lemma RemoveEdges_one_labels (v : Locator) (l : list ptr) (h h' : heap) :
  foldM (fun h0 q => RemoveEdges h0 q [v]) h l = Ret h' →
  label <$> h' = label <$> h.
Proof.
  apply (foldM_invariant (fun h0 => label <$> h0 = label <$> h)
           (fun h0 q => RemoveEdges h0 q [v]) l h h'); [|done].
  intros h0 q h1 _ Hh0 Hstep. apply RemoveEdges_one in Hstep as (b & Hb & _ & _ & ->).
  rewrite <- Hh0. by apply (labels_insert h0 q b).
Qed.

Lemma AddNode_Ret_inv (g g' : ADIGraph) (h h' : heap) (n : ptr) :
  AddNode g h n = Ret (g', h') →
  ∃ bn, h !! n = Some bn ∧
        nodes g' = nodes g ++ [n] ∧
        labels g' = <[label bn := Size g]> (labels g) ∧
        wordSize g' = wordSize g ∧
        growthFactor g ≤ growthFactor g' ∧
        label <$> h' = label <$> h.
Proof.
  intros Hrun. destruct (h !! n) as [bn|] eqn:Hn.
  2:{ exfalso. unfold AddNode, Label, deref in Hrun. rewrite Hn in Hrun. simpl in Hrun.
      repeat destruct (_ : bool) in Hrun; discriminate. }
  exists bn. split; [done|].
  assert (Hplain : Ret (append_node g (label bn) n, h) = Ret (g', h') →
            nodes g' = nodes g ++ [n] ∧ labels g' = <[label bn := Size g]> (labels g) ∧
            wordSize g' = wordSize g ∧ growthFactor g ≤ growthFactor g' ∧
            label <$> h' = label <$> h).
  { intros [= <- <-]. simpl. repeat split; try done. }
  unfold AddNode, Label, deref in Hrun. rewrite Hn in Hrun. cbn [bind] in Hrun.
  destruct (Size g >? wordSize g - 1); [|by apply Hplain].
  destruct (wordSize g =? 0); [done|].
  destruct (Z.rem (Size g) (wordSize g) =? 0); [|by apply Hplain].
  unfold Grow in Hrun. apply bind_Ret_inv in Hrun as (h1 & Hfold & Hret).
  injection Hret as <- <-. simpl. repeat split; try done; [lia|].
  by eapply AddColumn_labels.
Qed.

Lemma Connect_Ret_inv (g : ADIGraph) (h h' : heap) (l : string) (ns : list string)
    (e : option error) :
  Connect g h l ns = Ret (e, h') → label <$> h' = label <$> h.
Proof.
  unfold Connect. intros ([item|e0] & _ & Hrun)%bind_Ret_inv.
  - apply bind_Ret_inv in Hrun as (locs & _ & Hrun).
    apply bind_Ret_inv in Hrun as (h1 & Hfold & [= <- <-]).
    by eapply AddEdges_one_labels.
  - by injection Hrun as <- <-.
Qed.

Lemma DeleteByIndex_Ret_inv (g g' : ADIGraph) (h h' : heap) (index : Z) :
  DeleteByIndex g h index = Ret (g', h') →
  ∃ n bn, GetByIndex g index = Ret (Found n) ∧ h !! n = Some bn ∧
          nodes g' = nodes g ∧ wordSize g' = wordSize g ∧
          growthFactor g' = growthFactor g ∧
          labels g' = <[label bn := -1]> (labels g) ∧
          label <$> h' = label <$> h.
Proof.
  unfold DeleteByIndex. intros ([n|e] & Hget & Hrun)%bind_Ret_inv; [|done].
  apply bind_Ret_inv in Hrun as (name & Hname & Hrun).
  apply bind_Ret_inv in Hrun as (h1 & Hdel & Hrun).
  apply bind_Ret_inv in Hrun as ([v e] & _ & Hrun).
  apply bind_Ret_inv in Hrun as (h2 & Hfold & [= <- <-]).
  apply Delete_Ret in Hdel as (bn & Hbn & ->).
  unfold Label, deref in Hname. rewrite Hbn in Hname. injection Hname as <-.
  exists n, bn. simpl in *. repeat split; try done.
  apply RemoveEdges_one_labels in Hfold. rewrite Hfold.
  by apply (labels_insert h n bn).
Qed.

(** X6.  Insertion and lookup: when [AddNode] returns, the node's label
    resolves to the node (whatever the label was mapped to before), the
    node sits at the old size as its index, the size has grown by one, and
    every index and every other label resolves as it did. *)
Theorem AddNode_then_lookup (g g' : ADIGraph) (h h' : heap) (n : ptr) :
  AddNode g h n = Ret (g', h') →
  ∃ l, Label h n = Ret l ∧ Label h' n = Ret l ∧
       GetByLabel g' l = Ret (Found n) ∧
       GetByIndex g' (Size g) = Ret (Found n) ∧
       Size g' = Size g + 1 ∧
       (∀ i r, GetByIndex g i = Ret r → GetByIndex g' i = Ret r) ∧
       (∀ l' r, l' ≠ l → GetByLabel g l' = Ret r → GetByLabel g' l' = Ret r).
Proof.
  intros Hrun.
  destruct (AddNode_Ret_inv _ _ _ _ _ Hrun) as (bn & Hn & Hnodes & Hlab & _ & _ & Hh).
  assert (Hidx : ∀ i r, GetByIndex g i = Ret r → GetByIndex g' i = Ret r).
  { intros i r. unfold GetByIndex. destruct (i =? -1); [done|].
    intros (p & Hp & Hr)%bind_Ret_inv. apply index_slice_Ret in Hp as [Hi Hp].
    assert (index_slice (nodes g') i = Ret p) as ->; [|done].
    apply index_slice_Ret. split; [done|]. rewrite Hnodes. by apply lookup_app_l_Some. }
  assert (Hnew : GetByIndex g' (Size g) = Ret (Found n)).
  { unfold GetByIndex, Size. destruct (Z.eqb_spec (Z.of_nat (length (nodes g))) (-1)); [lia|].
    rewrite (index_slice_lookup (nodes g') (length (nodes g)) n); [done|].
    rewrite Hnodes, lookup_app_r, Nat.sub_diag by lia. done. }
  exists (label bn). split; [unfold Label, deref; by rewrite Hn|]. split.
  { assert (Hl : (label <$> h') !! n = Some (label bn)).
    { rewrite Hh, list_lookup_fmap, Hn. done. }
    rewrite list_lookup_fmap in Hl. unfold Label, deref.
    destruct (h' !! n) as [b'|]; [|done]. simpl in *. congruence. }
  split; [unfold GetByLabel; by rewrite Hlab, lookup_insert_eq|].
  split; [done|]. split; [unfold Size; rewrite Hnodes, length_app; simpl; lia|].
  split; [done|]. intros l' r Hne. unfold GetByLabel.
  rewrite Hlab, lookup_insert_ne by done. destruct (labels g !! l'); [apply Hidx | done].
Qed.

Lemma AddNode_then_lookup_witness :
  let g := mkGraph 0 8 [0]%nat (<["a" := 0]> ∅) in
  let h := [mkBox "a" "" [0; 0] false; mkBox "a" "" [0; 0] false] in
  ∃ l, Label h 1 = Ret l ∧ Label h 1 = Ret l ∧
       GetByLabel (append_node g "a" 1) l = Ret (Found 1%nat) ∧
       GetByIndex (append_node g "a" 1) (Size g) = Ret (Found 1%nat) ∧
       Size (append_node g "a" 1) = Size g + 1 ∧
       (∀ i r, GetByIndex g i = Ret r → GetByIndex (append_node g "a" 1) i = Ret r) ∧
       (∀ l' r, l' ≠ l → GetByLabel g l' = Ret r →
                GetByLabel (append_node g "a" 1) l' = Ret r).
Proof.
  intros g h. apply (AddNode_then_lookup g (append_node g "a" 1) h h 1%nat).
  reflexivity.
Defined.

Lemma extends_refl (s : world) : extends s s.
Proof. unfold extends. done. Qed.

Lemma extends_trans (s1 s2 s3 : world) : extends s1 s2 → extends s2 s3 → extends s1 s3.
Proof.
  intros (HW & Hn & Hg & Hl) (HW' & Hn' & Hg' & Hl'). unfold extends.
  split; [congruence|]. split; [by etrans|]. split; [lia | by etrans].
Qed.

Lemma step_extends (s s' : world) (c : call) : step s c = Ret s' → extends s s'.
Proof.
  destruct s as [g h], s' as [g' h']. intros Hstep. unfold extends.
  destruct c; simpl in Hstep |- *.
  - injection Hstep as <- <-. repeat split; try done.
    rewrite fmap_app. by apply prefix_app_r.
  - apply AddNode_Ret_inv in Hstep as (bn & _ & Hnodes & _ & HW & Hgf & Hh).
    rewrite Hnodes, Hh. repeat split; try done. by apply prefix_app_r.
  - apply bind_Ret_inv in Hstep as ([e h1] & Hr & [= <- <-]).
    apply Connect_Ret_inv in Hr. simpl. rewrite Hr. done.
  - apply DeleteByIndex_Ret_inv in Hstep
      as (n & bn & _ & _ & Hnodes & HW & Hgf & _ & Hh).
    rewrite Hnodes, Hh, Hgf. done.
  - apply bind_Ret_inv in Hstep as ([e [g1 h1]] & Hr & [= <- <-]).
    unfold DeleteByLabel in Hr. destruct (labels g !! l).
    + apply bind_Ret_inv in Hr as ([g2 h2] & Hd & [= _ <- <-]).
      apply DeleteByIndex_Ret_inv in Hd
        as (n & bn & _ & _ & Hnodes & HW & Hgf & _ & Hh).
      rewrite Hnodes, Hh, Hgf. done.
    + injection Hr as _ <- <-. done.
Qed.

(** X7.  Along every run of API calls the word size never changes, the
    node table only grows at its end (no index is reused or renumbered),
    the growth factor never decreases, and the boxes of the store keep
    their places and labels. *)
Theorem run_only_extends (s s' : world) (calls : list call) :
  run s calls = Ret s' →
  wordSize (fst s') = wordSize (fst s) ∧
  nodes (fst s) `prefix_of` nodes (fst s') ∧
  Size (fst s) ≤ Size (fst s') ∧
  growthFactor (fst s) ≤ growthFactor (fst s') ∧
  (label <$> snd s) `prefix_of` (label <$> snd s').
Proof.
  intros Hrun.
  assert (Hext : extends s s').
  { apply (foldM_invariant (extends s) step calls s s'); [|apply extends_refl|done].
    intros s0 c s1 _ H0 Hstep. eapply extends_trans; [exact H0|].
    by eapply step_extends. }
  destruct Hext as (HW & Hn & Hg & Hl). repeat split; try done.
  unfold Size. apply prefix_length in Hn. lia.
Qed.

Lemma run_only_extends_witness :
  let s := (NewGraph, [mkBox "a" "" [0; 0] false]) in
  let s' := (append_node NewGraph "a" 0, [mkBox "a" "" [0; 0] false]) in
  wordSize (fst s') = wordSize (fst s) ∧
  nodes (fst s) `prefix_of` nodes (fst s') ∧
  Size (fst s) ≤ Size (fst s') ∧
  growthFactor (fst s) ≤ growthFactor (fst s') ∧
  (label <$> snd s) `prefix_of` (label <$> snd s').
Proof.
  intros s s'. apply (run_only_extends s s' [CallAddNode 0; CallConnect "a" []]).
  reflexivity.
Defined.

(** ** More invariants of the public API *)

Lemma growth_factor_step (s s' : world) (c : call) :
  well_formed s → growthFactor (fst s) = growths 8 (Size (fst s)) →
  step s c = Ret s' →
  growthFactor (fst s') = growths 8 (Size (fst s')).
Proof.
  destruct s as [g h], s' as [g' h']. intros Hwf Hgf Hstep. simpl in *.
  assert (Hdel : ∀ i g2 h2, DeleteByIndex g h i = Ret (g2, h2) →
            growthFactor g2 = growths 8 (Size g2)).
  { intros i g2 h2 Hd. apply DeleteByIndex_Ret_inv in Hd
      as (n & bn & _ & _ & Hnodes & _ & Hgf2 & _). unfold Size. by rewrite Hnodes, Hgf2. }
  destruct c; simpl in Hstep.
  - by injection Hstep as <- <-.
  - destruct Hwf as (HW & Hnodes & _). simpl in *.
    destruct (AddNode_Ret_inv _ _ _ _ _ Hstep) as (bn & Hn & _).
    destruct (AddNode_spec g h n bn ltac:(lia) Hnodes Hn)
      as (g2 & h2 & Hrun & _ & Hnodes2 & _ & Hgf2 & _).
    rewrite Hstep in Hrun. injection Hrun as <- <-.
    assert (Hsize : Size g' = Size g + 1).
    { unfold Size. rewrite Hnodes2, length_app. simpl. lia. }
    rewrite Hgf2, Hsize, Hgf, HW. rewrite growths_succ by (unfold Size; lia).
    destruct (at_capacity 8 (Size g)); done.
  - apply bind_Ret_inv in Hstep as (r & _ & [= <- <-]). done.
  - by eapply Hdel.
  - apply bind_Ret_inv in Hstep as ([e [g1 h1]] & Hr & [= <- <-]).
    unfold DeleteByLabel in Hr. destruct (labels g !! l).
    + apply bind_Ret_inv in Hr as ([g2 h2] & Hd & [= _ <- <-]). by eapply Hdel.
    + by injection Hr as _ <- <-.
Qed.

(** X8.  In every state reached from [NewGraph] through the API, whatever
    nodes were inserted, the growth factor is the number of positive
    multiples of 8 below the size of the table: [max (Size - 1) 0 div 8]. *)
Theorem growth_factor_of_size (g : ADIGraph) (h : heap) :
  reachable (g, h) → growthFactor g = Z.max (Size g - 1) 0 / 8.
Proof.
  intros [calls Hrun]. fold (growths 8 (Size g)).
  assert (H : well_formed (g, h) ∧ growthFactor (fst (g, h)) = growths 8 (Size (fst (g, h)))).
  { apply (foldM_invariant
             (fun s => well_formed s ∧ growthFactor (fst s) = growths 8 (Size (fst s)))
             step calls (NewGraph, []) (g, h)); [| |exact Hrun].
    - intros s0 c s1 _ [Hwf Hgf] Hstep. split.
      + by eapply well_formed_step.
      + by eapply growth_factor_step.
    - split; [apply well_formed_init | done]. }
  apply H.
Qed.

Lemma growth_factor_of_size_witness :
  let g := mkGraph 0 8 [0; 0]%nat (<["a" := 1]> (<["a" := 0]> ∅)) in
  growthFactor g = Z.max (Size g - 1) 0 / 8.
Proof.
  intros g. apply (growth_factor_of_size g [mkBox "a" "" [0; 0] false]).
  exists [CallNewBox "a"; CallAddNode 0; CallAddNode 0].
  vm_compute. reflexivity.
Defined.

Lemma labels_consistent_step (s s' : world) (c : call) :
  labels_consistent s → step s c = Ret s' → labels_consistent s'.
Proof.
  destruct s as [g h], s' as [g' h']. unfold labels_consistent. simpl.
  intros Hlc Hstep.
  assert (Hdel : ∀ i g2 h2, DeleteByIndex g h i = Ret (g2, h2) →
            ∀ l0 i0, labels g2 !! l0 = Some i0 →
              i0 = -1 ∨ 0 ≤ i0 ∧ ∃ p, nodes g2 !! Z.to_nat i0 = Some p ∧
                                      (label <$> h2) !! p = Some l0).
  { intros i g2 h2 Hd l0 i0. apply DeleteByIndex_Ret_inv in Hd
      as (n & bn & _ & _ & Hnodes & _ & _ & Hlab & Hh).
    rewrite Hlab, Hnodes, Hh. intros [[_ <-]|[_ Hl0]]%lookup_insert_Some; [by left|].
    by apply Hlc. }
  destruct c; simpl in Hstep.
  - injection Hstep as <- <-. intros l0 i0 Hl0.
    destruct (Hlc l0 i0 Hl0) as [?|(Hi & p & Hp & Hlp)]; [by left | right].
    split; [done|]. exists p. split; [done|]. simpl.
    rewrite fmap_app. by apply lookup_app_l_Some.
  - apply AddNode_Ret_inv in Hstep as (bn & Hn & Hnodes & Hlab & _ & _ & Hh).
    intros l0 i0. rewrite Hlab, Hnodes, Hh.
    intros [[<- <-]|[_ Hl0]]%lookup_insert_Some.
    + right. split; [unfold Size; lia|]. exists n. unfold Size.
      rewrite Nat2Z.id, lookup_app_r, Nat.sub_diag by lia. split; [done|].
      rewrite list_lookup_fmap, Hn. done.
    + destruct (Hlc l0 i0 Hl0) as [?|(Hi & p & Hp & Hlp)]; [by left | right].
      split; [done|]. exists p. split; [by apply lookup_app_l_Some | done].
  - apply bind_Ret_inv in Hstep as ([e h1] & Hr & [= <- <-]).
    apply Connect_Ret_inv in Hr. simpl. intros l0 i0 Hl0. rewrite Hr. by apply Hlc.
  - by eapply Hdel.
  - apply bind_Ret_inv in Hstep as ([e [g1 h1]] & Hr & [= <- <-]).
    unfold DeleteByLabel in Hr. destruct (labels g !! l).
    + apply bind_Ret_inv in Hr as ([g2 h2] & Hd & [= _ <- <-]). by eapply Hdel.
    + injection Hr as _ <- <-. done.
Qed.

Lemma reachable_labels_consistent (s : world) : reachable s → labels_consistent s.
Proof.
  intros [calls Hrun].
  apply (foldM_invariant labels_consistent step calls (NewGraph, []) s); [| |done].
  - intros s0 c s1 _. apply labels_consistent_step.
  - intros l i Hl. simpl in Hl. by rewrite lookup_empty in Hl.
Qed.

(** X9.  In every state reached through the API, a label that
    [GetByLabel] resolves yields a node of the table whose [Label] is that
    label. *)
Theorem GetByLabel_returns_the_labelled_node (g : ADIGraph) (h : heap)
    (l : string) (p : ptr) :
  reachable (g, h) → GetByLabel g l = Ret (Found p) →
  Label h p = Ret l ∧ p ∈ nodes g.
Proof.
  intros Hreach Hget. pose proof (reachable_labels_consistent _ Hreach) as Hlc.
  unfold GetByLabel in Hget. destruct (labels g !! l) as [i|] eqn:Hl; [|done].
  unfold GetByIndex in Hget. destruct (Z.eqb_spec i (-1)) as [->|Hne]; [done|].
  apply bind_Ret_inv in Hget as (q & Hq & [= ->]).
  apply index_slice_Ret in Hq as [Hi Hq].
  destruct (Hlc l i Hl) as [?|(_ & p' & Hp' & Hlp)]; [done|]. simpl in *.
  assert (p' = p) as -> by congruence.
  split; [|by eapply list_elem_of_lookup_2].
  rewrite list_lookup_fmap in Hlp. unfold Label, deref.
  destruct (h !! p) as [b|]; [|done]. simpl in *. congruence.
Qed.

Lemma GetByLabel_returns_the_labelled_node_witness :
  let g := mkGraph 0 8 [0; 1]%nat (<["b" := 1]> (<["a" := 0]> ∅)) in
  let h := [mkBox "a" "" [2; 0] false; mkBox "b" "" [0; 0] false] in
  Label h 1 = Ret "b" ∧ (1%nat ∈ nodes g).
Proof.
  intros g h. apply (GetByLabel_returns_the_labelled_node g h "b" 1%nat).
  - exists [CallNewBox "a"; CallNewBox "b"; CallAddNode 0; CallAddNode 1;
            CallConnect "a" ["b"]].
    vm_compute. reflexivity.
  - vm_compute. reflexivity.
Defined.

(** ** Connection, continued *)

(** X10.  The only error of [Connect] is [errLabelNotFound]; it is returned
    exactly when the source label is absent from the index or mapped to
    the deleted sentinel (the [errDeleted] of the lookup is replaced), and
    the store is then untouched. *)
Theorem Connect_error_iff (g : ADIGraph) (h h' : heap) (l : string)
    (ns : list string) (e : error) :
  Connect g h l ns = Ret (Some e, h') ↔
  e = errLabelNotFound ∧ h' = h ∧
  (labels g !! l = None ∨ labels g !! l = Some (-1)).
Proof.
  unfold Connect, GetByLabel. split.
  - destruct (labels g !! l) as [i|] eqn:Hl.
    + unfold GetByIndex. destruct (Z.eqb_spec i (-1)) as [->|Hne].
      * cbn [bind]. intros [= <- <-]. auto.
      * destruct (index_slice (nodes g) i); cbn [bind]; [|done..].
        intros (locs & _ & Hrun)%bind_Ret_inv.
        apply bind_Ret_inv in Hrun as (h1 & _ & Hr). done.
    + cbn [bind]. intros [= <- <-]. auto.
  - intros (-> & -> & [Hl|Hl]); rewrite Hl; done.
Qed.

Lemma well_formed_labels_nonneg (g : ADIGraph) (h : heap) :
  well_formed (g, h) → ∀ l i, labels g !! l = Some i → i = -1 ∨ 0 ≤ i.
Proof.
  intros (_ & _ & Hlab & _) l i Hl. destruct (Hlab l i Hl); [by left | right]. simpl in *. lia.
Qed.

Lemma sets_bit_resolved (g : ADIGraph) (ns : list string) (c : nat) (k : Z) :
  0 < wordSize g →
  (∀ l i, labels g !! l = Some i → i = -1 ∨ 0 ≤ i) →
  0 ≤ k < wordSize g →
  sets_bit (omap (resolved g) ns) c k = true ↔
  ∃ n i, n ∈ ns ∧ labels g !! n = Some i ∧ i ≠ -1 ∧ Z.of_nat c * wordSize g + k = i.
Proof.
  intros Hw Hlab Hk. unfold sets_bit. rewrite existsb_exists. split.
  - intros (v & Hv%list_elem_of_In & Hbit).
    apply list_elem_of_omap in Hv as (n & Hn & Hres). unfold resolved in Hres.
    destruct (labels g !! n) as [i|] eqn:Hl; [|done].
    destruct (Z.eqb_spec i (-1)) as [|Hne]; [done|]. injection Hres as <-.
    destruct (Hlab n i Hl) as [|Hi]; [done|].
    apply andb_true_iff in Hbit as [Hcol%bool_decide_eq_true Hoff]. simpl in *.
    pose proof (Z.mod_pos_bound i (wordSize g) Hw).
    rewrite Z.shiftl_1_l, Z.pow2_bits_eqb in Hoff by lia. apply Z.eqb_eq in Hoff.
    exists n, i. repeat split; try done.
    pose proof (Z.div_pos i (wordSize g) Hi Hw).
    pose proof (Z.div_mod i (wordSize g) ltac:(lia)). subst c.
    rewrite Z2Nat.id by done. lia.
  - intros (n & i & Hn & Hl & Hne & Hi).
    exists (locate (wordSize g) i). split.
    + apply list_elem_of_In, list_elem_of_omap. exists n. split; [done|].
      unfold resolved. rewrite Hl. destruct (Z.eqb_spec i (-1)); done.
    + assert (Hdiv : i / wordSize g = Z.of_nat c).
      { symmetry. apply (Z.div_unique _ _ _ k); lia. }
      assert (Hmod : i mod wordSize g = k).
      { symmetry. apply (Z.mod_unique _ _ (Z.of_nat c)); lia. }
      simpl. rewrite Hdiv, Hmod, Nat2Z.id, bool_decide_eq_true_2 by done.
      rewrite Z.shiftl_1_l, Z.pow2_bits_true by lia. done.
Qed.

(** X11.  When the source label resolves to a node that has a word at the
    column of every target that resolves, [Connect] returns no error,
    writes the source node only, keeps its label, contents, deleted flag
    and number of words, and sets on it exactly the bits of the targets
    that resolve: bit [k] of word [c] is set afterwards if and only if it
    was set before or some target label is mapped to index [c * W + k];
    absent and deleted targets are skipped. *)
Theorem Connect_sets_the_resolved_bits (g : ADIGraph) (h : heap) (l : string)
    (ns : list string) (item : ptr) (b : Box) :
  0 < wordSize g ≤ 8 →
  (∀ l0 i, labels g !! l0 = Some i → i = -1 ∨ 0 ≤ i) →
  GetByLabel g l = Ret (Found item) → h !! item = Some b →
  (∀ n i, n ∈ ns → labels g !! n = Some i → i ≠ -1 →
          i / wordSize g < Z.of_nat (length (adis b))) →
  ∃ b',
    Connect g h l ns = Ret (None, <[item := b']> h) ∧
    label b' = label b ∧ contents b' = contents b ∧ deleted b' = deleted b ∧
    length (adis b') = length (adis b) ∧
    ∀ (c : nat) k, (c < length (adis b))%nat → 0 ≤ k < wordSize g →
      (bit (adis b') c k = true ↔
       bit (adis b) c k = true ∨
       ∃ n i, n ∈ ns ∧ labels g !! n = Some i ∧ i ≠ -1 ∧
              Z.of_nat c * wordSize g + k = i).
Proof.
  intros Hw Hlab Hsrc Hb Hcols.
  assert (Hcols' : Forall (fun v => (Z.to_nat (column v) < length (adis b))%nat)
                          (omap (resolved g) ns)).
  { apply Forall_forall. intros v (n & Hn & Hres)%list_elem_of_omap.
    unfold resolved in Hres. destruct (labels g !! n) as [i|] eqn:Hl; [|done].
    destruct (Z.eqb_spec i (-1)) as [|Hne]; [done|]. injection Hres as <-. simpl.
    specialize (Hcols n i Hn Hl Hne). destruct (Hlab n i Hl) as [|Hi]; [done|].
    pose proof (Z.div_pos i (wordSize g) Hi ltac:(lia)). lia. }
  exists (set_adis b (add_all (adis b) (omap (resolved g) ns))).
  split.
  { unfold Connect. rewrite Hsrc. cbn [bind].
    rewrite resolve_locations_spec by done. cbn [bind].
    rewrite (AddEdges_fold item _ h b Hb); [done|].
    apply Forall_forall. intros v Hv. split.
    - apply list_elem_of_omap in Hv as (n & _ & Hn). unfold resolved in Hn.
      destruct (labels g !! n) as [i|] eqn:E; [|done].
      destruct (Z.eqb_spec i (-1)); [done|]. injection Hn as <-. simpl.
      destruct (Hlab n i E); [done|]. apply Z.div_pos; lia.
    - rewrite Forall_forall in Hcols'. by apply Hcols'. }
  simpl. split; [done|]. split; [done|]. split; [done|].
  split; [apply add_all_length|].
  intros c k Hc Hk. rewrite add_all_bit by (by apply lookup_lt_is_Some_2).
  rewrite orb_true_iff, sets_bit_resolved by (done || lia). done.
Qed.

Lemma Connect_sets_the_resolved_bits_witness :
  let g := mkGraph 0 8 [0; 1]%nat (<["b" := 1]> (<["a" := 0]> ∅)) in
  let h := [mkBox "a" "" [0; 0] false; mkBox "b" "" [0; 0] false] in
  let ns := ["b"; "unknown"] in
  ∃ b',
    Connect g h "a" ns = Ret (None, <[0%nat := b']> h) ∧
    label b' = "a" ∧ contents b' = "" ∧ deleted b' = false ∧
    length (adis b') = 2%nat ∧
    ∀ (c : nat) k, (c < 2)%nat → 0 ≤ k < 8 →
      (bit (adis b') c k = true ↔
       bit [0; 0] c k = true ∨
       ∃ n i, n ∈ ns ∧ labels g !! n = Some i ∧ i ≠ -1 ∧ Z.of_nat c * 8 + k = i).
Proof.
  intros g h ns.
  apply (Connect_sets_the_resolved_bits g h "a" ns 0%nat (mkBox "a" "" [0; 0] false)).
  - simpl. lia.
  - intros l0 i Hl. destruct (decide (l0 = "b")) as [->|Hb].
    + vm_compute in Hl. injection Hl as <-. right. lia.
    + unfold g in Hl. simpl in Hl. rewrite lookup_insert_ne in Hl by done.
      destruct (decide (l0 = "a")) as [->|Ha].
      * rewrite lookup_insert_eq in Hl. injection Hl as <-. right. lia.
      * rewrite lookup_insert_ne, lookup_empty in Hl by done. done.
  - vm_compute. reflexivity.
  - reflexivity.
  - intros n i Hn Hl Hne. unfold ns in Hn.
    apply elem_of_cons in Hn as [->|Hn%list_elem_of_singleton].
    + vm_compute in Hl. injection Hl as <-. vm_compute. reflexivity.
    + subst n. vm_compute in Hl. done.
Defined.

Lemma land_pow2_pos (w k : Z) :
  0 ≤ k → (0 <? Z.land w (2 ^ k)) = Z.testbit w k.
Proof.
  intros Hk. pose proof (land_pow2_testbit w k Hk) as H.
  assert (Hnn : 0 ≤ Z.land w (2 ^ k)).
  { apply Z.land_nonneg. right. apply Z.pow_nonneg. lia. }
  destruct (Z.testbit w k); simpl in H.
  - apply Z.eqb_neq in H. apply Z.ltb_lt. lia.
  - apply Z.eqb_eq in H. rewrite H. done.
Qed.

(** The non-strict query for the locator of an index reads one bit. *)
Lemma HasEdges_locate (g : ADIGraph) (h : heap) (p : ptr) (b : Box) (i : Z) :
  0 < wordSize g → 0 ≤ i → h !! p = Some b →
  (Z.to_nat (i / wordSize g) < length (adis b))%nat →
  HasEdges h p false [locate (wordSize g) i]
  = Ret (bit (adis b) (Z.to_nat (i / wordSize g)) (i mod wordSize g)).
Proof.
  intros Hw Hi Hb Hlen. unfold HasEdges, deref. rewrite Hb. cbn [bind has_any].
  destruct (lookup_lt_is_Some_2 _ _ Hlen) as [w Hword].
  assert (index_slice (adis b) (column (locate (wordSize g) i)) = Ret w) as ->.
  { apply index_slice_Ret. simpl. split; [apply Z.div_pos; lia | done]. }
  cbn [bind]. simpl offset. pose proof (Z.mod_pos_bound i (wordSize g) Hw).
  rewrite Z.shiftl_1_l, land_pow2_pos by lia. unfold bit. rewrite Hword.
  by destruct (Z.testbit w _).
Qed.

(** X12.  [Connect] followed by [BFS]: once a source has been connected to
    a target label, the search from the source to a node carrying that
    label answers true at once, for every scheduler and without using any
    fuel. *)
Theorem Connect_then_BFS (g : ADIGraph) (h : heap) (la lb : string)
    (a pb : ptr) (ba bb : Box) (ib : Z) :
  0 < wordSize g ≤ 8 →
  (∀ l0 i, labels g !! l0 = Some i → i = -1 ∨ 0 ≤ i) →
  GetByLabel g la = Ret (Found a) → h !! a = Some ba →
  labels g !! lb = Some ib → 0 ≤ ib →
  (Z.to_nat (ib / wordSize g) < length (adis ba))%nat →
  h !! pb = Some bb → label bb = lb →
  ∃ h', Connect g h la [lb] = Ret (None, h') ∧
        ∀ fuel sched, BFS fuel sched g h' a pb = Some (Ret true).
Proof.
  intros Hw Hlab Hsrc Ha Hlb Hib Hlen Hpb Hbb.
  assert (Hres : omap (resolved g) [lb] = [locate (wordSize g) ib]).
  { cbn. unfold resolved. rewrite Hlb. destruct (Z.eqb_spec ib (-1)); [lia | done]. }
  destruct (Connect_resolved g h la [lb] a ba Hw Hlab Hsrc Ha)
    as (b' & Hrun & Hlabel & _ & Hlen' & Hbits).
  { rewrite Hres. by apply Forall_singleton. }
  exists (<[a := b']> h). split; [done|]. intros fuel sched.
  assert (Hpa : (a < length h)%nat) by (by eapply lookup_lt_Some).
  assert (Ha' : <[a := b']> h !! a = Some b') by (by apply list_lookup_insert_eq).
  assert (Hlabel' : Label (<[a := b']> h) pb = Ret lb).
  { unfold Label, deref. destruct (decide (pb = a)) as [->|Hne].
    - rewrite Ha'. simpl. f_equal. congruence.
    - rewrite list_lookup_insert_ne, Hpb by done. simpl. by f_equal. }
  unfold BFS. rewrite Hlabel'. cbn [bind]. unfold GetLocatorsByLabel.
  rewrite Hlb, GetLocatorsByIndex_nonneg by done.
  rewrite (HasEdges_locate g _ a b' ib) by (done || lia).
  rewrite Hbits by done. rewrite Hres. unfold sets_bit. cbn [existsb locate column offset].
  rewrite bool_decide_eq_true_2 by done.
  pose proof (Z.mod_pos_bound ib (wordSize g) ltac:(lia)).
  rewrite Z.shiftl_1_l, Z.pow2_bits_true by lia. by rewrite orb_true_r.
Qed.

Lemma Connect_then_BFS_witness :
  let g := mkGraph 0 8 [0; 1]%nat (<["b" := 1]> (<["a" := 0]> ∅)) in
  let h := [mkBox "a" "" [0; 0] false; mkBox "b" "" [0; 0] false] in
  ∃ h', Connect g h "a" ["b"] = Ret (None, h') ∧
        ∀ fuel sched, BFS fuel sched g h' 0 1 = Some (Ret true).
Proof.
  intros g h.
  apply (Connect_then_BFS g h "a" "b" 0%nat 1%nat
           (mkBox "a" "" [0; 0] false) (mkBox "b" "" [0; 0] false) 1).
  - simpl. lia.
  - intros l0 i Hl. destruct (decide (l0 = "b")) as [->|Hb].
    + vm_compute in Hl. injection Hl as <-. right. lia.
    + unfold g in Hl. simpl in Hl. rewrite lookup_insert_ne in Hl by done.
      destruct (decide (l0 = "a")) as [->|Ha].
      * rewrite lookup_insert_eq in Hl. injection Hl as <-. right. lia.
      * rewrite lookup_insert_ne, lookup_empty in Hl by done. done.
  - vm_compute. reflexivity.
  - reflexivity.
  - vm_compute. reflexivity.
  - lia.
  - vm_compute. lia.
  - reflexivity.
  - reflexivity.
Defined.

(** ** Deletion, continued *)

(** X13.  [DeleteByIndex] returns no error for an index outside the table:
    it panics for every index that is not in [0, Size), the sentinel -1
    included, and so does [DeleteByLabel] on a label already mapped to the
    sentinel. *)
Theorem DeleteByIndex_panics_outside (g : ADIGraph) (h : heap) (i : Z) :
  ¬ (0 ≤ i < Size g) →
  DeleteByIndex g h i = Panic ∧
  (∀ l, labels g !! l = Some (-1) → DeleteByLabel g h l = Panic).
Proof.
  intros Hout. split.
  - unfold DeleteByIndex, GetByIndex. destruct (i =? -1); [done|].
    unfold index_slice. destruct (Z.ltb_spec i 0); [done|].
    destruct (nodes g !! Z.to_nat i) eqn:E; [|done].
    apply lookup_lt_Some in E. unfold Size in Hout. lia.
  - intros l Hl. unfold DeleteByLabel. rewrite Hl. done.
Qed.

Lemma DeleteByIndex_panics_outside_witness :
  DeleteByIndex NewGraph [] 0 = Panic ∧
  (∀ l, labels NewGraph !! l = Some (-1) → DeleteByLabel NewGraph [] l = Panic).
Proof.
  apply (DeleteByIndex_panics_outside NewGraph [] 0). unfold Size. simpl. lia.
Defined.

(** ** Searches that cannot succeed *)

Lemma HasEdges_zero_locator (h : heap) (q : ptr) :
  HasEdges h q false [mkLocator 0 0] ≠ Ret true.
Proof.
  unfold HasEdges, deref. destruct (h !! q) as [b|]; [|done]. cbn [bind has_any].
  destruct (index_slice (adis b) (column (mkLocator 0 0))); [|done..]. cbn [bind].
  simpl. rewrite Z.land_0_r. done.
Qed.

Lemma BFS_loop_zero_locator (fuel : nat) (sched : nat → list nat) (k : nat)
    (g : ADIGraph) (h : heap) (queue : list ptr) :
  BFS_loop fuel sched k g h (mkLocator 0 0) queue ≠ Some (Ret true).
Proof.
  revert k queue. induction fuel as [|fuel IH]; intros k queue.
  - destruct queue; done.
  - destruct queue as [|q rest]; [done|]. cbn [BFS_loop].
    pose proof (HasEdges_zero_locator h q) as Hq.
    destruct (HasEdges h q false [mkLocator 0 0]) as [[|]| |]; try done.
    destruct (Neighbors (sched k) g h q); [apply IH | done..].
Qed.

(** X14.  A search towards a node whose label is absent from the index or
    mapped to the deleted sentinel never answers true: [BFS] drops the
    error of the locator lookup and searches for the zero locator, which no
    node has an edge to. *)
Theorem BFS_never_finds_unresolved (g : ADIGraph) (h : heap) (a b : ptr)
    (bb : Box) (fuel : nat) (sched : nat → list nat) :
  h !! b = Some bb →
  labels g !! label bb = None ∨ labels g !! label bb = Some (-1) →
  BFS fuel sched g h a b ≠ Some (Ret true).
Proof.
  intros Hb Hl. unfold BFS, Label, deref. rewrite Hb. cbn [bind].
  assert (Hloc : ∃ e, GetLocatorsByLabel g (label bb) = Ret (mkLocator 0 0, e)).
  { unfold GetLocatorsByLabel. destruct Hl as [-> | ->]; eauto. }
  destruct Hloc as [e ->].
  pose proof (HasEdges_zero_locator h a) as Ha.
  destruct (HasEdges h a false [mkLocator 0 0]) as [[|]| |]; try done.
  destruct (Neighbors (sched 0%nat) g h a); try done.
  apply BFS_loop_zero_locator.
Qed.

Lemma BFS_never_finds_unresolved_witness :
  let g := mkGraph 0 8 [0; 1]%nat (<["b" := -1]> (<["a" := 0]> ∅)) in
  let h := [mkBox "a" "" [2; 0] false; mkBox "b" "" [0; 0] true] in
  BFS 5 (fun _ => []) g h 0 1 ≠ Some (Ret true).
Proof.
  intros g h.
  apply (BFS_never_finds_unresolved g h 0%nat 1%nat (mkBox "b" "" [0; 0] true)).
  - reflexivity.
  - right. vm_compute. reflexivity.
Defined.

Lemma lookup_zero_words (g : ADIGraph) (cap : nat) (ts : list (Z * Z * Z))
    (ch : list ptr) :
  Forall (fun t => t.1.2 = 0) ts → foldM (lookup g cap) ch ts = Ret ch.
Proof.
  induction ts as [|[[col adi] off] ts IH]; [done|].
  intros [Ht Hts]%Forall_cons. simpl in Ht. subst adi.
  cbn [foldM lookup]. rewrite Z.land_0_l. cbn [Z.eqb negb bind]. by apply IH.
Qed.

(** X15.  A search from a node all of whose words are zero never enters
    the loop: for every fuel (none included) and every scheduler, [BFS]
    answers false when the target is a box, its locator can be computed
    and the locator's column is inside the source's words, and panics in
    every other case (a nil target, a zero word size, a column outside the
    source's words).  It never answers true and never keeps running. *)
Theorem BFS_from_isolated_node (g : ADIGraph) (h : heap) (a b : ptr) (ba : Box)
    (fuel : nat) (sched : nat → list nat) :
  h !! a = Some ba → Forall (fun w => w = 0) (adis ba) →
  (located g h ba b → BFS fuel sched g h a b = Some (Ret false)) ∧
  (¬ located g h ba b → BFS fuel sched g h a b = Some Panic).
Proof.
  intros Ha Hzero.
  assert (Hn : Neighbors (sched 0%nat) g h a = Ret []).
  { unfold Neighbors, Edges, deref. rewrite Ha. cbn [bind]. apply lookup_zero_words.
    apply Forall_forall. intros t Ht.
    rewrite schedule_Permutation in Ht.
    apply elem_of_spawn in Ht as (c & word & k & -> & Hc & _). simpl.
    rewrite Forall_forall in Hzero. apply Hzero. by eapply list_elem_of_lookup_2. }
  assert (Hhas : ∀ v, HasEdges h a false [v]
                      = if in_range (length (adis ba)) v then Ret false else Panic).
  { intros v. unfold HasEdges, deref. rewrite Ha. cbn [bind has_any].
    rewrite index_slice_in_range. destruct (in_range _ v) eqn:Hr; [|done].
    cbn [bind]. apply in_range_spec in Hr.
    destruct (lookup_lt_is_Some_2 (adis ba) (Z.to_nat (column v))) as [w Hw]; [lia|].
    unfold word_of. rewrite Hw. simpl.
    rewrite Forall_forall in Hzero. rewrite (Hzero w) by (by eapply list_elem_of_lookup_2).
    done. }
  assert (Hno : ∀ lb, GetLocatorsByLabel g lb ≠ Deadlock).
  { intros lb. unfold GetLocatorsByLabel, GetLocatorsByIndex.
    destruct (labels g !! lb); [|done]. repeat destruct (_ =? _); done. }
  split.
  - intros (bb & v & e & Hb & Hloc & Hcol). unfold BFS, Label, deref.
    rewrite Hb. cbn [bind]. rewrite Hloc, Hhas.
    assert (in_range (length (adis ba)) v = true) as ->
      by (apply in_range_spec; lia).
    rewrite Hn. by destruct fuel.
  - intros Hnot. unfold BFS, Label, deref.
    destruct (h !! b) as [bb|] eqn:Hb; cbn [bind]; [|done].
    destruct (GetLocatorsByLabel g (label bb)) as [[v e]| |] eqn:Hloc;
      [|done|by destruct (Hno (label bb))].
    rewrite Hhas. destruct (in_range (length (adis ba)) v) eqn:Hr; [|done].
    destruct Hnot. exists bb, v, e. apply in_range_spec in Hr. done.
Qed.

Lemma BFS_from_isolated_node_witness :
  let g := mkGraph 0 8 [0; 1]%nat (<["b" := 1]> (<["a" := 0]> ∅)) in
  let h := [mkBox "a" "" [2; 0] false; mkBox "b" "" [0; 0] false] in
  BFS 0 (fun _ => [2]%nat) g h 1 0 = Some (Ret false) ∧
  BFS 0 (fun _ => [2]%nat) g h 1 7 = Some Panic.
Proof.
  intros g h. split.
  - apply (BFS_from_isolated_node g h 1%nat 0%nat (mkBox "b" "" [0; 0] false)).
    + reflexivity.
    + repeat constructor.
    + exists (mkBox "a" "" [2; 0] false), (mkLocator 0 1), None.
      split; [reflexivity|]. split; [reflexivity|]. simpl. lia.
  - apply (BFS_from_isolated_node g h 1%nat 7%nat (mkBox "b" "" [0; 0] false)).
    + reflexivity.
    + repeat constructor.
    + intros (bb & v & e & Hb & _). discriminate Hb.
Defined.

(** ** Soundness of the search *)

Lemma Neighbors_elem (g : ADIGraph) (h : heap) (choice : list nat) (n q : ptr)
    (l : list ptr) :
  well_formed (g, h) → Neighbors choice g h n = Ret l → q ∈ l →
  has_edge_to g h n q.
Proof.
  intros (HW & _ & _ & Hedges) Hrun Hq. simpl in *.
  assert (Hb : ∃ b, h !! n = Some b).
  { unfold Neighbors, Edges, deref in Hrun. destruct (h !! n); [eauto | done]. }
  destruct Hb as [b Hb]. exists b. split; [done|].
  pose proof (Forall_lookup_1 _ _ _ _ Hedges Hb) as Hin.
  destruct (Neighbors_scheduled choice g h n b HW Hb Hin) as (l' & Hl' & Hp).
  rewrite Hrun in Hl'. injection Hl' as <-.
  rewrite Hp in Hq. apply list_elem_of_omap in Hq as (t & Ht & Htq).
  apply elem_of_spawn in Ht as (c & word & k & -> & Hc & Hk).
  unfold task_target in Htq. rewrite task_hit_testbit in Htq by lia.
  destruct (Z.testbit word k) eqn:Hbit; [|done].
  exists c, word, k. done.
Qed.

Lemma HasEdges_locate_true (g : ADIGraph) (h : heap) (p q : ptr) (i : Z) :
  0 < wordSize g → 0 ≤ i → nodes g !! Z.to_nat i = Some q →
  HasEdges h p false [locate (wordSize g) i] = Ret true →
  has_edge_to g h p q.
Proof.
  intros Hw Hi Hq Hhas. unfold HasEdges, deref in Hhas.
  destruct (h !! p) as [b|] eqn:Hb; [|done]. cbn [bind has_any] in Hhas.
  apply bind_Ret_inv in Hhas as (w & Hword & Hhit).
  apply index_slice_Ret in Hword as [Hc Hword]. simpl in Hc, Hword, Hhit.
  pose proof (Z.mod_pos_bound i (wordSize g) Hw) as Hmod.
  rewrite Z.shiftl_1_l, land_pow2_pos in Hhit by lia.
  destruct (Z.testbit w (i mod wordSize g)) eqn:Hbit; [|done].
  exists b. split; [done|].
  exists (Z.to_nat (i / wordSize g)), w, (i mod wordSize g).
  split; [done|]. split; [done|]. split; [done|].
  rewrite Z2Nat.id by done.
  replace (i / wordSize g * wordSize g + i mod wordSize g) with i; [done|].
  pose proof (Z.div_mod i (wordSize g) ltac:(lia)). lia.
Qed.

Lemma BFS_loop_sound (g : ADIGraph) (h : heap) (a : ptr) (v : Locator)
    (sched : nat → list nat) (fuel k : nat) (queue : list ptr) :
  well_formed (g, h) →
  Forall (rtc (has_edge_to g h) a) queue →
  BFS_loop fuel sched k g h v queue = Some (Ret true) →
  ∃ p, rtc (has_edge_to g h) a p ∧ HasEdges h p false [v] = Ret true.
Proof.
  intros Hwf. revert k queue. induction fuel as [|fuel IH]; intros k queue Hqueue Hrun.
  - destruct queue; done.
  - destruct queue as [|q rest]; [done|]. cbn [BFS_loop] in Hrun.
    apply Forall_cons in Hqueue as [Hq Hrest].
    destruct (HasEdges h q false [v]) as [[|]| |] eqn:Hhas; try done.
    { exists q. done. }
    destruct (Neighbors (sched k) g h q) as [items| |] eqn:Hn; try done.
    apply (IH (S k) (rest ++ items)); [|done].
    apply Forall_app. split; [done|]. apply Forall_forall. intros x Hx.
    eapply rtc_r; [exact Hq|]. by eapply Neighbors_elem.
Qed.

(** X16.  The search is sound: in a state reached through the API, when
    [BFS] answers true, the target's label is mapped to the index of a
    node [q] of the table that carries that label, and there is a path of
    edges from the source to a node that has an edge to [q]. *)
Theorem BFS_true_means_path (g : ADIGraph) (h : heap) (a b : ptr)
    (fuel : nat) (sched : nat → list nat) :
  reachable (g, h) → BFS fuel sched g h a b = Some (Ret true) →
  ∃ l p q i,
    Label h b = Ret l ∧ labels g !! l = Some i ∧ 0 ≤ i ∧
    nodes g !! Z.to_nat i = Some q ∧ Label h q = Ret l ∧
    rtc (has_edge_to g h) a p ∧ has_edge_to g h p q.
Proof.
  intros Hreach Hrun. pose proof (reachable_well_formed _ Hreach) as Hwf.
  pose proof (reachable_labels_consistent _ Hreach) as Hlc.
  pose proof Hwf as (HW & _ & Hlab & _). simpl in HW, Hlab.
  unfold BFS in Hrun. destruct (Label h b) as [l| |] eqn:Hl; try done.
  cbn [bind] in Hrun.
  assert (Hzero : ∀ e, GetLocatorsByLabel g l = Ret (mkLocator 0 0, Some e) → False).
  { intros e He. rewrite He in Hrun.
    pose proof (HasEdges_zero_locator h a) as Ha.
    destruct (HasEdges h a false [mkLocator 0 0]) as [[|]| |]; try done.
    destruct (Neighbors (sched 0%nat) g h a); try done.
    by apply BFS_loop_zero_locator in Hrun. }
  unfold GetLocatorsByLabel in Hrun, Hzero.
  destruct (labels g !! l) as [i|] eqn:Hi; [|exfalso; by eapply Hzero].
  destruct (Hlab l i Hi) as [->|Hrange]; [exfalso; by eapply Hzero|].
  rewrite GetLocatorsByIndex_nonneg in Hrun by lia.
  destruct (Hlc l i Hi) as [->|(_ & q & Hq & Hlq)]; [lia|]. simpl in Hq, Hlq.
  assert (Hlabel_q : Label h q = Ret l).
  { rewrite list_lookup_fmap in Hlq. unfold Label, deref.
    destruct (h !! q); simpl in *; [congruence | done]. }
  assert (Hend : ∃ p, rtc (has_edge_to g h) a p ∧
                      HasEdges h p false [locate (wordSize g) i] = Ret true).
  { destruct (HasEdges h a false [locate (wordSize g) i]) as [[|]| |] eqn:Hhas; try done.
    { exists a. done. }
    destruct (Neighbors (sched 0%nat) g h a) as [items| |] eqn:Hn; try done.
    eapply BFS_loop_sound; [done| |exact Hrun].
    apply Forall_forall. intros x Hx. apply rtc_once. by eapply Neighbors_elem. }
  destruct Hend as (p & Hpath & Hhas).
  exists l, p, q, i. repeat split; try done; try lia.
  eapply HasEdges_locate_true; [lia| |exact Hq|exact Hhas]. lia.
Qed.

Lemma BFS_true_means_path_witness :
  let g := mkGraph 0 8 [0; 1]%nat (<["b" := 1]> (<["a" := 0]> ∅)) in
  let h := [mkBox "a" "" [2; 0] false; mkBox "b" "" [0; 0] false] in
  ∃ l p q i,
    Label h 1 = Ret l ∧ labels g !! l = Some i ∧ 0 ≤ i ∧
    nodes g !! Z.to_nat i = Some q ∧ Label h q = Ret l ∧
    rtc (has_edge_to g h) 0%nat p ∧ has_edge_to g h p q.
Proof.
  intros g h. apply (BFS_true_means_path g h 0%nat 1%nat 0 (fun _ => [])).
  - exists [CallNewBox "a"; CallNewBox "b"; CallAddNode 0; CallAddNode 1;
            CallConnect "a" ["b"]].
    vm_compute. reflexivity.
  - vm_compute. reflexivity.
Defined.

(** ** Neighbors, continued *)

Lemma NoDup_omap_inj {A B : Type} (f : A → option B) (l : list A) :
  NoDup l →
  (∀ x y z, x ∈ l → y ∈ l → f x = Some z → f y = Some z → x = y) →
  NoDup (omap f l).
Proof.
  induction 1 as [|x l Hx Hl IH]; intros Hinj; [constructor|].
  rewrite omap_cons_unfold.
  assert (Hrest : NoDup (omap f l)).
  { apply IH. intros x0 y z Hx0 Hy. apply Hinj; by right. }
  destruct (f x) as [z|] eqn:Hfx; [|done].
  constructor; [|done]. intros (y & Hy & Hfy)%list_elem_of_omap.
  apply Hx. rewrite (Hinj x y z); [done|left|by right|done|done].
Qed.

Lemma targets_via_hits (g : ADIGraph) (ts : list (Z * Z * Z)) :
  omap (task_target g) ts
  = omap (fun i => nodes g !! Z.to_nat i) (omap (hit_index g) ts).
Proof.
  induction ts as [|t ts IH]; [done|].
  rewrite !omap_cons_unfold. unfold task_target at 1, hit_index at 1.
  destruct (task_hit t); [|done]. rewrite omap_cons_unfold.
  destruct (nodes g !! _); by rewrite IH.
Qed.

(** X17.  In a state reached through the API in which no box sits twice in
    the table, the list [Neighbors] returns has no duplicates and is no
    longer than the table. *)
Theorem Neighbors_without_duplicates (g : ADIGraph) (h : heap) (n : ptr)
    (choice : list nat) (l : list ptr) :
  reachable (g, h) → NoDup (nodes g) → Neighbors choice g h n = Ret l →
  NoDup l ∧ (length l ≤ length (nodes g))%nat.
Proof.
  intros Hreach Hnd Hrun. pose proof (reachable_well_formed _ Hreach) as Hwf.
  destruct Hwf as (HW & _ & _ & Hedges). simpl in *.
  assert (Hb : ∃ b, h !! n = Some b).
  { unfold Neighbors, Edges, deref in Hrun. destruct (h !! n); [eauto | done]. }
  destruct Hb as [b Hb].
  pose proof (Forall_lookup_1 _ _ _ _ Hedges Hb) as Hin.
  destruct (Neighbors_scheduled choice g h n b HW Hb Hin) as (l' & Hl' & Hp).
  rewrite Hrun in Hl'. injection Hl' as <-.
  pose proof (spawn_safe g b HW Hin) as Hsafe.
  pose proof (hits_bounded g (adis b) ltac:(lia) Hsafe) as Hcap.
  rewrite Hp. split; [|done]. rewrite targets_via_hits.
  apply NoDup_omap_inj.
  - eapply sublist_NoDup; [|apply hit_index_sublist].
    rewrite spawn_indices by lia. apply NoDup_seqZ.
  - intros i j q Hi Hj Hqi Hqj.
    assert (Hnn : ∀ x, x ∈ omap (hit_index g) (spawn (wordSize g) (adis b)) → 0 ≤ x).
    { intros x (t & Ht & Hx)%list_elem_of_omap. unfold hit_index in Hx.
      destruct (task_hit t) eqn:Hhit; [|done]. injection Hx as <-.
      rewrite Forall_forall in Hsafe. by apply (Hsafe t Ht). }
    pose proof (NoDup_lookup _ _ _ _ Hnd Hqi Hqj). pose proof (Hnn i Hi).
    pose proof (Hnn j Hj). lia.
Qed.

Lemma Neighbors_without_duplicates_witness :
  let g := mkGraph 0 8 [0; 1]%nat (<["b" := 1]> (<["a" := 0]> ∅)) in
  let h := [mkBox "a" "" [2; 0] false; mkBox "b" "" [0; 0] false] in
  NoDup [1%nat] ∧ (length [1%nat] ≤ length (nodes g))%nat.
Proof.
  intros g h. apply (Neighbors_without_duplicates g h 0%nat [3; 1]%nat [1%nat]).
  - exists [CallNewBox "a"; CallNewBox "b"; CallAddNode 0; CallAddNode 1;
            CallConnect "a" ["b"]].
    vm_compute. reflexivity.
  - simpl. apply NoDup_cons. split; [|apply NoDup_singleton].
    intros H%list_elem_of_singleton. done.
  - vm_compute. reflexivity.
Defined.

(** X18.  In a state reached through the API in which no box sits twice in
    the table, once [DeleteByIndex] has returned the deleted node is a
    neighbor of no node of the table: [Neighbors] never returns it. *)
Theorem deleted_node_is_no_neighbor (g : ADIGraph) (h : heap) (i : Z) (x : ptr) :
  reachable (g, h) → NoDup (nodes g) →
  0 ≤ i → nodes g !! Z.to_nat i = Some x → column_present g h i →
  ∃ g' h',
    DeleteByIndex g h i = Ret (g', h') ∧
    ∀ choice n l, n ∈ nodes g' → Neighbors choice g' h' n = Ret l → x ∉ l.
Proof.
  intros Hreach Hnd Hi Hx Hcols. pose proof (reachable_well_formed _ Hreach) as Hwf.
  pose proof Hwf as (HW & Hvalid & _). simpl in HW, Hvalid.
  rewrite Forall_forall in Hvalid.
  destruct (lookup_lt_is_Some_2 h x) as [bx Hbx].
  { apply Hvalid. by eapply list_elem_of_lookup_2. }
  destruct (DeleteByIndex_spec g h i x bx ltac:(lia) Hi Hx Hbx Hcols)
    as (g' & h' & Hrun & Hnodes & HW' & _ & _ & Hboxes).
  exists g', h'. split; [done|]. intros choice n l Hn Hl Hxl.
  pose proof (well_formed_DeleteByIndex _ _ _ _ Hwf Hrun) as Hwf'.
  destruct (Neighbors_elem g' h' choice n x l Hwf' Hl Hxl)
    as (b' & Hb' & c & word & k & Hc & Hk & Hbit & Hq).
  rewrite HW', HW in Hk, Hq. rewrite Hnodes in Hq, Hn.
  pose proof (NoDup_lookup _ _ _ _ Hnd Hq Hx) as Heq.
  assert (Hci : Z.of_nat c * 8 + k = i) by lia.
  assert (Hdiv : i / 8 = Z.of_nat c) by (symmetry; apply (Z.div_unique _ _ _ k); lia).
  assert (Hmod : i mod 8 = k) by (symmetry; apply (Z.mod_unique _ _ (Z.of_nat c)); lia).
  destruct (Hboxes n b' Hb') as (b & _ & _ & _ & _ & Hclear).
  rewrite HW, Hdiv, Hmod, Nat2Z.id in Hclear.
  destruct (Hclear Hn word Hc) as [Hfalse _]. congruence.
Qed.

Lemma deleted_node_is_no_neighbor_witness :
  let g := mkGraph 0 8 [0; 1]%nat (<["b" := 1]> (<["a" := 0]> ∅)) in
  let h := [mkBox "a" "" [2; 0] false; mkBox "b" "" [0; 0] false] in
  ∃ g' h',
    DeleteByIndex g h 1 = Ret (g', h') ∧
    ∀ choice n l, n ∈ nodes g' → Neighbors choice g' h' n = Ret l → 1%nat ∉ l.
Proof.
  intros g h. apply (deleted_node_is_no_neighbor g h 1 1%nat).
  - exists [CallNewBox "a"; CallNewBox "b"; CallAddNode 0; CallAddNode 1;
            CallConnect "a" ["b"]].
    vm_compute. reflexivity.
  - simpl. apply NoDup_cons. split; [|apply NoDup_singleton].
    intros H%list_elem_of_singleton. done.
  - lia.
  - reflexivity.
  - unfold column_present.
    constructor; [eexists; split; [reflexivity | vm_compute; lia]|].
    constructor; [eexists; split; [reflexivity | vm_compute; lia]|].
    constructor.
Defined.

(** X19.  Locators and lookups are inverse: for the mask that
    [GetLocatorsByIndex] returns for an index [i] of the table, the
    goroutine of [Neighbors] for bit [k] of that mask sends the node of
    index [i] when [k = i mod W] and nothing otherwise. *)
Theorem locator_lookup_round_trip (g : ADIGraph) (i k : Z) (q : ptr) (cap : nat) :
  0 < wordSize g ≤ 8 → 0 ≤ i → nodes g !! Z.to_nat i = Some q →
  0 ≤ k < wordSize g → (0 < cap)%nat →
  ∃ v, GetLocatorsByIndex g i = Ret (v, None) ∧
       lookup g cap [] (column v, offset v, k)
       = Ret (if bool_decide (k = i mod wordSize g) then [q] else []).
Proof.
  intros Hw Hi Hq Hk Hcap. exists (locate (wordSize g) i).
  split; [by apply GetLocatorsByIndex_nonneg|].
  pose proof (Z.mod_pos_bound i (wordSize g) ltac:(lia)) as Hmod.
  rewrite lookup_unfold. unfold task_hit, task_index. cbn [fst snd locate column offset].
  rewrite mask_small, Z.shiftl_1_l, land_pow2_testbit, Z.pow2_bits_eqb by lia.
  rewrite negb_involutive.
  destruct (Z.eqb_spec (i mod wordSize g) k) as [Heq|Hne].
  - rewrite bool_decide_eq_true_2 by done. subst k.
    replace (i / wordSize g * wordSize g + i mod wordSize g) with i
      by (pose proof (Z.div_mod i (wordSize g) ltac:(lia)); lia).
    unfold GetByIndex. destruct (Z.eqb_spec i (-1)); [lia|].
    assert (index_slice (nodes g) i = Ret q) as -> by (by apply index_slice_Ret).
    cbn [bind]. unfold send. rewrite bool_decide_eq_true_2 by (simpl; lia). done.
  - rewrite bool_decide_eq_false_2 by done. done.
Qed.

Lemma locator_lookup_round_trip_witness :
  let g := mkGraph 0 8 [0; 1]%nat (<["b" := 1]> (<["a" := 0]> ∅)) in
  ∃ v, GetLocatorsByIndex g 1 = Ret (v, None) ∧
       lookup g 2 [] (column v, offset v, 1)
       = Ret (if bool_decide (1 = 1 mod wordSize g) then [1%nat] else []).
Proof.
  intros g. apply (locator_lookup_round_trip g 1 1 1%nat 2%nat).
  - simpl. lia.
  - lia.
  - reflexivity.
  - simpl. lia.
  - lia.
Defined.

(** ** Graphs of at most sixteen nodes *)

Lemma fold_write_Forall {A : Type} (P : Box → Prop)
    (f : list Box → A → outcome (list Box)) (l : list A) (h h' : heap) :
  (∀ b g col, P b → P (write_word g col b)) →
  (∀ h0 x h1, x ∈ l → f h0 x = Ret h1 →
     ∃ p b g col, h0 !! p = Some b ∧ h1 = <[p := write_word g col b]> h0) →
  Forall P h → foldM f h l = Ret h' → Forall P h'.
Proof.
  intros Hwrite Hstep. apply (foldM_invariant (Forall P) f l h h').
  intros h0 x h1 Hx Hh0 Hf.
  destruct (Hstep h0 x h1 Hx Hf) as (p & b & g & col & Hb & ->).
  apply Forall_insert; [done|]. apply Hwrite. by eapply Forall_lookup_1.
Qed.

Lemma two_words_write (b : Box) (g : Z → Z) (col : nat) :
  (2 ≤ length (adis b))%nat → (2 ≤ length (adis (write_word g col b)))%nat.
Proof. intros H. unfold write_word. simpl. by rewrite length_alter. Qed.

Lemma two_words_DeleteByIndex (g g' : ADIGraph) (h h' : heap) (i : Z) :
  two_words (g, h) → DeleteByIndex g h i = Ret (g', h') → two_words (g', h').
Proof.
  unfold two_words. simpl. intros Htw Hrun. unfold DeleteByIndex in Hrun.
  apply bind_Ret_inv in Hrun as ([n|e] & _ & Hrun); [|done].
  apply bind_Ret_inv in Hrun as (name & _ & Hrun).
  apply bind_Ret_inv in Hrun as (h1 & Hdel & Hrun).
  apply bind_Ret_inv in Hrun as ([v e] & _ & Hrun).
  apply bind_Ret_inv in Hrun as (h2 & Hfold & [= <- <-]).
  apply Delete_Ret in Hdel as (bn & Hbn & ->). simpl in Hfold.
  eapply (fold_write_Forall _ _ _ _ _ two_words_write); [| |exact Hfold].
  - intros h0 q h3 _ Hrem. apply RemoveEdges_one in Hrem as (b & Hb & _ & _ & ->).
    eauto 10.
  - apply Forall_insert; [done|]. simpl. by eapply (Forall_lookup_1 _ _ _ _ Htw).
Qed.

Lemma two_words_step (s s' : world) (c : call) :
  well_formed s → two_words s → step s c = Ret s' → two_words s'.
Proof.
  destruct s as [g h], s' as [g' h']. unfold two_words. simpl.
  intros Hwf Htw Hstep. destruct c; simpl in Hstep.
  - injection Hstep as <- <-. simpl. apply Forall_app. split; [done|].
    apply Forall_singleton. simpl. lia.
  - destruct Hwf as (HW & Hnodes & _). simpl in *.
    destruct (AddNode_Ret_inv _ _ _ _ _ Hstep) as (bn & Hn & _).
    destruct (AddNode_spec g h n bn ltac:(lia) Hnodes Hn)
      as (g2 & h2 & Hrun & _ & _ & _ & _ & Hlen & Hboxes).
    rewrite Hstep in Hrun. injection Hrun as <- <-.
    apply Forall_lookup. intros p b' Hb'.
    destruct (lookup_lt_is_Some_2 h p) as [b Hb].
    { rewrite <- Hlen. by eapply lookup_lt_Some. }
    destruct (Hboxes p b Hb) as (b'' & Hb'' & _ & _ & _ & Ha).
    assert (b'' = b') as -> by congruence.
    rewrite Ha, length_app. pose proof (Forall_lookup_1 _ _ _ _ Htw Hb). simpl in *. lia.
  - apply bind_Ret_inv in Hstep as ([e h1] & Hr & [= <- <-]). simpl.
    unfold Connect in Hr. apply bind_Ret_inv in Hr as ([item|e0] & _ & Hr).
    + apply bind_Ret_inv in Hr as (locs & _ & Hr).
      apply bind_Ret_inv in Hr as (h2 & Hfold & [= <- <-]).
      eapply (fold_write_Forall _ _ _ _ _ two_words_write); [|exact Htw|exact Hfold].
      intros h0 v h3 _ Hadd. apply AddEdges_one in Hadd as (b & Hb & _ & _ & ->).
      eauto 10.
    + by injection Hr as <- <-.
  - by eapply (two_words_DeleteByIndex g g' h h').
  - apply bind_Ret_inv in Hstep as ([e [g1 h1]] & Hr & [= <- <-]).
    unfold DeleteByLabel in Hr. destruct (labels g !! l).
    + apply bind_Ret_inv in Hr as ([g2 h2] & Hd & [= _ <- <-]).
      by eapply (two_words_DeleteByIndex g g2 h h2).
    + by injection Hr as _ <- <-.
Qed.

Lemma reachable_two_words (s : world) : reachable s → well_formed s ∧ two_words s.
Proof.
  intros [calls Hrun].
  apply (foldM_invariant (fun s0 => well_formed s0 ∧ two_words s0)
           step calls (NewGraph, []) s); [| |done].
  - intros s0 c s1 _ [Hwf Htw] Hstep. split.
    + by eapply well_formed_step.
    + by eapply two_words_step.
  - split; [apply well_formed_init | constructor].
Qed.

(** X20.  While the table holds at most sixteen nodes, in a state reached
    through the API, [Connect] returns for every source and targets, and
    [DeleteByIndex] returns for every index of the table: no box has fewer
    than the two words of [NewBox], which cover sixteen indices. *)
Theorem sixteen_nodes_are_safe (g : ADIGraph) (h : heap) :
  reachable (g, h) → Size g ≤ 16 →
  (∀ l ns, ∃ e h', Connect g h l ns = Ret (e, h')) ∧
  (∀ i, 0 ≤ i < Size g → ∃ g' h', DeleteByIndex g h i = Ret (g', h')).
Proof.
  intros Hreach Hsize. destruct (reachable_two_words _ Hreach) as [Hwf Htw].
  pose proof Hwf as (HW & Hvalid & Hlab & _). unfold two_words in Htw. simpl in *.
  rewrite Forall_forall in Hvalid.
  assert (Hbox : ∀ p, p ∈ nodes g → ∃ b, h !! p = Some b ∧ (2 ≤ length (adis b))%nat).
  { intros p Hp. destruct (lookup_lt_is_Some_2 h p (Hvalid p Hp)) as [b Hb].
    exists b. split; [done|]. by eapply (Forall_lookup_1 _ _ _ _ Htw). }
  split.
  - intros l ns. unfold Connect, GetByLabel.
    destruct (labels g !! l) as [i|] eqn:Hl; [|cbn; eauto].
    destruct (Hlab l i Hl) as [->|Hi]; [cbn; eauto|].
    destruct (GetByIndex_in_range g i Hi) as (item & Hitem & Hget).
    destruct (Hbox item) as (b & Hb & Hlen); [by eapply list_elem_of_lookup_2|].
    destruct (Connect_resolved g h l ns item b) as (b' & Hrun & _); try done; try lia.
    + by apply (well_formed_labels_nonneg g h).
    + unfold GetByLabel. by rewrite Hl.
    + apply Forall_forall. intros v Hv.
      destruct (resolved_in_range g ns v HW Hlab Hv) as (j & Hj & ->). simpl.
      assert (j / 8 < 2) by (apply Z.div_lt_upper_bound; lia).
      pose proof (Z.div_pos j 8 ltac:(lia) ltac:(lia)). lia.
    + unfold Connect, GetByLabel in Hrun. rewrite Hl in Hrun. eauto.
  - intros i Hi. destruct (GetByIndex_in_range g i Hi) as (x & Hx & _).
    destruct (Hbox x) as (bx & Hbx & _); [by eapply list_elem_of_lookup_2|].
    destruct (DeleteByIndex_spec g h i x bx) as (g' & h' & Hrun & _); try done; try lia.
    + apply Forall_forall. intros q Hq. destruct (Hbox q Hq) as (b & Hb & Hlen).
      exists b. split; [done|]. rewrite HW.
      assert (i / 8 < 2) by (apply Z.div_lt_upper_bound; lia).
      pose proof (Z.div_pos i 8 ltac:(lia) ltac:(lia)). lia.
    + eauto.
Qed.

Lemma sixteen_nodes_are_safe_witness :
  let g := mkGraph 0 8 [0; 1]%nat (<["b" := 1]> (<["a" := 0]> ∅)) in
  let h := [mkBox "a" "" [2; 0] false; mkBox "b" "" [0; 0] false] in
  (∀ l ns, ∃ e h', Connect g h l ns = Ret (e, h')) ∧
  (∀ i, 0 ≤ i < Size g → ∃ g' h', DeleteByIndex g h i = Ret (g', h')).
Proof.
  intros g h. apply (sixteen_nodes_are_safe g h).
  - exists [CallNewBox "a"; CallNewBox "b"; CallAddNode 0; CallAddNode 1;
            CallConnect "a" ["b"]].
    vm_compute. reflexivity.
  - vm_compute. discriminate.
Defined.

(** ** Growth, continued *)

(** X21.  [Grow] on a table of valid nodes returns, raises the growth
    factor by one and appends to every box one zero word per occurrence of
    the box in the table: none to a box that is not in the table, two to a
    box inserted twice; nothing else of a box changes. *)
Theorem Grow_extends_per_occurrence (g : ADIGraph) (h : heap) :
  Forall (fun p => (p < length h)%nat) (nodes g) →
  ∃ h', Grow g h
        = Ret (mkGraph (growthFactor g + 1) (wordSize g) (nodes g) (labels g), h') ∧
        length h' = length h ∧
        ∀ p b, h !! p = Some b →
          ∃ b', h' !! p = Some b' ∧
                label b' = label b ∧ contents b' = contents b ∧
                deleted b' = deleted b ∧
                adis b' = adis b ++ replicate (occurrences p (nodes g)) 0.
Proof.
  intros Hvalid. destruct (AddColumn_fold (nodes g) h Hvalid) as (h' & Hrun & Hlen & Hboxes).
  exists h'. split; [unfold Grow; by rewrite Hrun|]. split; [done|].
  intros p b Hb. destruct (Hboxes p b Hb) as (b' & Hb' & Hsame). eauto.
Qed.

Lemma Grow_extends_per_occurrence_witness :
  let g := mkGraph 0 8 [0; 0]%nat (<["a" := 1]> ∅) in
  let h := [mkBox "a" "" [0; 0] false; mkBox "b" "" [0; 0] false] in
  ∃ h', Grow g h
        = Ret (mkGraph (growthFactor g + 1) (wordSize g) (nodes g) (labels g), h') ∧
        length h' = length h ∧
        ∀ p b, h !! p = Some b →
          ∃ b', h' !! p = Some b' ∧
                label b' = label b ∧ contents b' = contents b ∧
                deleted b' = deleted b ∧
                adis b' = adis b ++ replicate (occurrences p (nodes g)) 0.
Proof.
  intros g h. apply (Grow_extends_per_occurrence g h).
  repeat constructor.
Defined.

(** ** Labels and deletion *)

(** X22.  [DeleteByIndex] evicts the label the deleted node carries,
    whatever index that label is mapped to: when another, live node [y] is
    registered under the same label, deleting the first makes
    [GetByLabel] fail with [errDeleted] although [y] is still in the table
    and not flagged deleted. *)
Theorem delete_evicts_a_shared_label (g : ADIGraph) (h : heap) (i j : Z)
    (x y : ptr) (bx by' : Box) :
  0 < wordSize g ≤ 8 → 0 ≤ i →
  nodes g !! Z.to_nat i = Some x → h !! x = Some bx →
  column_present g h i →
  0 ≤ j → nodes g !! Z.to_nat j = Some y → h !! y = Some by' →
  x ≠ y → deleted by' = false → labels g !! label bx = Some j →
  GetByLabel g (label bx) = Ret (Found y) ∧
  ∃ g' h',
    DeleteByIndex g h i = Ret (g', h') ∧
    GetByLabel g' (label bx) = Ret (Failed errDeleted) ∧
    GetByIndex g' j = Ret (Found y) ∧
    Deleted h' y = Ret false.
Proof.
  intros Hw Hi Hx Hbx Hcols Hj Hy Hby Hxy Hlive Hl.
  assert (Hgetj : ∀ g0, nodes g0 = nodes g → GetByIndex g0 j = Ret (Found y)).
  { intros g0 Hg0. unfold GetByIndex. destruct (Z.eqb_spec j (-1)); [lia|].
    assert (index_slice (nodes g0) j = Ret y) as ->; [|done].
    apply index_slice_Ret. by rewrite Hg0. }
  split; [unfold GetByLabel; rewrite Hl; by apply Hgetj|].
  destruct (DeleteByIndex_spec g h i x bx Hw Hi Hx Hbx Hcols)
    as (g' & h' & Hrun & Hnodes & _ & Hlab & Hlen & Hboxes).
  exists g', h'. split; [done|]. split.
  { unfold GetByLabel. rewrite Hlab, lookup_insert_eq. done. }
  split; [by apply Hgetj|].
  destruct (lookup_lt_is_Some_2 h' y) as [b' Hb'].
  { rewrite Hlen. by eapply lookup_lt_Some. }
  destruct (Hboxes y b' Hb') as (b & Hb & _ & Hdel & _).
  assert (b = by') as -> by congruence.
  unfold Deleted, deref. rewrite Hb'. cbn [bind]. f_equal.
  destruct (deleted b') eqn:E; [|done].
  destruct (proj1 Hdel eq_refl) as [?|?]; congruence.
Qed.

Lemma delete_evicts_a_shared_label_witness :
  let g := mkGraph 0 8 [0; 1]%nat (<["a" := 1]> (<["a" := 0]> ∅)) in
  let h := [mkBox "a" "" [0; 0] false; mkBox "a" "" [0; 0] false] in
  GetByLabel g "a" = Ret (Found 1%nat) ∧
  ∃ g' h',
    DeleteByIndex g h 0 = Ret (g', h') ∧
    GetByLabel g' "a" = Ret (Failed errDeleted) ∧
    GetByIndex g' 1 = Ret (Found 1%nat) ∧
    Deleted h' 1 = Ret false.
Proof.
  intros g h.
  apply (delete_evicts_a_shared_label g h 0 1 0%nat 1%nat
           (mkBox "a" "" [0; 0] false) (mkBox "a" "" [0; 0] false)).
  - simpl. lia.
  - lia.
  - reflexivity.
  - reflexivity.
  - unfold column_present.
    constructor; [eexists; split; [reflexivity | vm_compute; lia]|].
    constructor; [eexists; split; [reflexivity | vm_compute; lia]|].
    constructor.
  - lia.
  - reflexivity.
  - reflexivity.
  - lia.
  - reflexivity.
  - vm_compute. reflexivity.
Defined.

(** X23.  The graph does not follow [SetLabel]: after a node of the table
    has been renamed, its old label still resolves to it, and
    [DeleteByIndex] then evicts the new label, so the old label keeps
    resolving to the node, now flagged deleted. *)
Theorem rename_then_delete_keeps_old_label (g : ADIGraph) (h : heap) (i : Z)
    (x : ptr) (bx : Box) (lold lnew : string) :
  0 < wordSize g ≤ 8 → 0 ≤ i →
  nodes g !! Z.to_nat i = Some x → h !! x = Some bx →
  column_present g h i →
  labels g !! lold = Some i → lnew ≠ lold →
  ∃ h1 g' h',
    SetLabel h x lnew = Ret h1 ∧ Label h1 x = Ret lnew ∧
    GetByLabel g lold = Ret (Found x) ∧
    DeleteByIndex g h1 i = Ret (g', h') ∧
    labels g' !! lnew = Some (-1) ∧
    GetByLabel g' lold = Ret (Found x) ∧
    Deleted h' x = Ret true.
Proof.
  intros Hw Hi Hx Hbx Hcols Hl Hne.
  set (b1 := mkBox lnew (contents bx) (adis bx) (deleted bx)).
  set (h1 := <[x := b1]> h).
  assert (Hpx : (x < length h)%nat) by (by eapply lookup_lt_Some).
  assert (Hb1 : h1 !! x = Some b1) by (by apply list_lookup_insert_eq).
  assert (Hget : ∀ g0, nodes g0 = nodes g → GetByIndex g0 i = Ret (Found x)).
  { intros g0 Hg0. unfold GetByIndex. destruct (Z.eqb_spec i (-1)); [lia|].
    assert (index_slice (nodes g0) i = Ret x) as ->; [|done].
    apply index_slice_Ret. by rewrite Hg0. }
  assert (Hcols1 : column_present g h1 i).
  { unfold column_present in *. eapply Forall_impl; [exact Hcols|].
    intros q (b & Hb & Hlen). simpl. destruct (decide (q = x)) as [->|Hq].
    - exists b1. split; [done|]. simpl. assert (b = bx) as -> by congruence. done.
    - exists b. split; [|done]. unfold h1. by rewrite list_lookup_insert_ne. }
  destruct (DeleteByIndex_spec g h1 i x b1 Hw Hi Hx Hb1 Hcols1)
    as (g' & h' & Hrun & Hnodes & _ & Hlab & Hlen & Hboxes).
  exists h1, g', h'.
  split; [unfold SetLabel, deref; by rewrite Hbx|].
  split; [unfold Label, deref; by rewrite Hb1|].
  split; [unfold GetByLabel; rewrite Hl; by apply Hget|].
  split; [done|]. simpl in Hlab.
  split; [by rewrite Hlab, lookup_insert_eq|].
  split; [unfold GetByLabel; rewrite Hlab, lookup_insert_ne, Hl by done; by apply Hget|].
  destruct (lookup_lt_is_Some_2 h' x) as [b' Hb'].
  { rewrite Hlen. unfold h1. by rewrite length_insert. }
  destruct (Hboxes x b' Hb') as (b & _ & _ & Hdel & _).
  unfold Deleted, deref. rewrite Hb'. cbn [bind]. f_equal. apply Hdel. by right.
Qed.

Lemma rename_then_delete_keeps_old_label_witness :
  let g := mkGraph 0 8 [0]%nat (<["a" := 0]> ∅) in
  let h := [mkBox "a" "" [0; 0] false] in
  ∃ h1 g' h',
    SetLabel h 0 "z" = Ret h1 ∧ Label h1 0 = Ret "z" ∧
    GetByLabel g "a" = Ret (Found 0%nat) ∧
    DeleteByIndex g h1 0 = Ret (g', h') ∧
    labels g' !! "z" = Some (-1) ∧
    GetByLabel g' "a" = Ret (Found 0%nat) ∧
    Deleted h' 0 = Ret true.
Proof.
  intros g h.
  apply (rename_then_delete_keeps_old_label g h 0 0%nat
           (mkBox "a" "" [0; 0] false) "a" "z").
  - simpl. lia.
  - lia.
  - reflexivity.
  - reflexivity.
  - unfold column_present.
    constructor; [eexists; split; [reflexivity | vm_compute; lia]|].
    constructor.
  - vm_compute. reflexivity.
  - discriminate.
Defined.

Lemma RemoveEdges_fold_Ret_inv (v : Locator) (l : list ptr) (h h' : heap) :
  foldM (fun h0 q => RemoveEdges h0 q [v]) h l = Ret h' →
  Forall (fun q => 0 ≤ column v ∧
                   ∃ b, h !! q = Some b ∧
                        (Z.to_nat (column v) < length (adis b))%nat) l.
Proof.
  revert h. induction l as [|q0 l IH]; intros h Hrun; [constructor|].
  cbn [foldM] in Hrun. apply bind_Ret_inv in Hrun as (h1 & Hstep & Hrun).
  apply RemoveEdges_one in Hstep as (b0 & Hb0 & Hc & Hw & ->).
  apply lookup_lt_is_Some in Hw. constructor; [eauto|].
  eapply Forall_impl; [exact (IH _ Hrun)|]. intros q (_ & b & Hb & Hlen). simpl.
  split; [done|]. destruct (decide (q = q0)) as [->|Hne].
  - rewrite list_lookup_insert_eq in Hb by (by eapply lookup_lt_Some).
    injection Hb as <-. eauto.
  - rewrite list_lookup_insert_ne in Hb by done. eauto.
Qed.

(** X24.  [DeleteByIndex] is idempotent: repeated on the same index after it
    has returned, it returns again and leaves the graph and the store as
    the first call left them (unlike [DeleteByLabel], whose second call
    panics). *)
Theorem DeleteByIndex_idempotent (g g' : ADIGraph) (h h' : heap) (i : Z) :
  DeleteByIndex g h i = Ret (g', h') → DeleteByIndex g' h' i = Ret (g', h').
Proof.
  intros Hrun. unfold DeleteByIndex in Hrun.
  apply bind_Ret_inv in Hrun as ([n|e0] & Hget & Hrun); [|done].
  apply bind_Ret_inv in Hrun as (name & Hname & Hrun).
  apply bind_Ret_inv in Hrun as (h1 & Hdel & Hrun).
  apply bind_Ret_inv in Hrun as ([v e] & Hloc & Hrun).
  apply bind_Ret_inv in Hrun as (h2 & Hfold & [= <- <-]).
  apply Delete_Ret in Hdel as (bn & Hbn & ->).
  unfold Label, deref in Hname. rewrite Hbn in Hname. injection Hname as <-.
  cbn [nodes fst] in Hfold.
  set (g' := mkGraph (growthFactor g) (wordSize g) (nodes g)
                     (<[label bn := -1]> (labels g))) in *.
  set (h1 := <[n := mkBox (label bn) (contents bn) (adis bn) true]> h) in *.
  assert (Hn : n ∈ nodes g).
  { unfold GetByIndex in Hget. destruct (i =? -1); [done|].
    apply bind_Ret_inv in Hget as (p & Hp & [= ->]).
    apply index_slice_Ret in Hp as [_ Hp]. by eapply list_elem_of_lookup_2. }
  pose proof (RemoveEdges_fold_Ret_inv _ _ _ _ Hfold) as Hvalid.
  assert (Hc : 0 ≤ column v).
  { rewrite Forall_forall in Hvalid. by apply (Hvalid n Hn). }
  set (clear := fun w => Z.land w (byte_not (offset v))).
  set (upd := fun (q : nat) (b : Box) =>
                if bool_decide (q ∈ nodes g)
                then write_word clear (Z.to_nat (column v)) b else b).
  destruct (RemoveEdges_fold v (nodes g) h1 Hc) as (h2' & Hrun2 & Hlen2 & Hboxes2).
  { eapply Forall_impl; [exact Hvalid|]. intros q [_ Hq]. exact Hq. }
  cbn [fst] in Hloc, Hfold. rewrite Hfold in Hrun2. injection Hrun2 as <-.
  assert (Hidem : ∀ q b, upd q (upd q b) = upd q b).
  { intros q b. unfold upd. destruct (bool_decide (q ∈ nodes g)); [|done].
    unfold write_word. simpl. f_equal. rewrite list_alter_alter_eq.
    apply list_alter_ext; [|done]. intros w _. unfold clear. simpl.
    rewrite <- Z.land_assoc, Z.land_diag. done. }
  assert (Hpn : (n < length h)%nat) by (by eapply lookup_lt_Some).
  assert (Hh2n : h2 !! n = Some (upd n (mkBox (label bn) (contents bn) (adis bn) true))).
  { rewrite Hboxes2. unfold h1. rewrite list_lookup_insert_eq by done. done. }
  assert (Hlabel2 : Label h2 n = Ret (label bn)).
  { unfold Label, deref. rewrite Hh2n. cbn [bind]. unfold upd.
    destruct (bool_decide _); done. }
  assert (Hdel2 : Delete h2 n = Ret h2).
  { unfold Delete, deref. rewrite Hh2n. cbn [bind]. f_equal.
    apply list_insert_id. rewrite Hh2n. f_equal. unfold upd.
    destruct (bool_decide _); done. }
  assert (Hg' : mkGraph (growthFactor g') (wordSize g') (nodes g')
                        (<[label bn := -1]> (labels g')) = g').
  { unfold g'. simpl. by rewrite insert_insert_eq. }
  assert (Hfold2 : foldM (fun h0 q => RemoveEdges h0 q [v]) h2 (nodes g) = Ret h2).
  { destruct (RemoveEdges_fold v (nodes g) h2 Hc) as (h3 & Hrun3 & Hlen3 & Hboxes3).
    - eapply Forall_impl; [exact Hvalid|]. intros q (_ & b & Hb & Hlen).
      exists (upd q b). split; [by rewrite Hboxes2, Hb|].
      unfold upd. destruct (bool_decide _); [|done]. simpl. by rewrite length_alter.
    - rewrite Hrun3. f_equal. apply list_eq. intros q. rewrite Hboxes3, Hboxes2.
      destruct (h1 !! q) as [b|]; [|done]. simpl. f_equal. apply (Hidem q b). }
  unfold DeleteByIndex.
  assert (Hget' : GetByIndex g' i = Ret (Found n)) by exact Hget.
  rewrite Hget'. cbn [bind]. rewrite Hlabel2. cbn [bind]. rewrite Hg', Hdel2. cbn [bind].
  rewrite Hloc. cbn [bind fst]. change (nodes g') with (nodes g).
  rewrite Hfold2. done.
Qed.

Lemma DeleteByIndex_idempotent_witness :
  let g := mkGraph 0 8 [0; 1]%nat (<["b" := 1]> (<["a" := -1]> ∅)) in
  let h := [mkBox "a" "" [0; 0] true; mkBox "b" "" [0; 0] false] in
  DeleteByIndex g h 0 = Ret (g, h).
Proof.
  intros g h.
  apply (DeleteByIndex_idempotent
           (mkGraph 0 8 [0; 1]%nat (<["b" := 1]> (<["a" := 0]> ∅))) g
           [mkBox "a" "" [0; 0] false; mkBox "b" "" [1; 0] false] h 0).
  vm_compute. reflexivity.
Defined.

(** ** Completeness of the search *)



Section Completeness.
Variables (g : ADIGraph) (h : list Box) (v : Locator) (sched : nat → list nat).
Hypothesis HW : wordSize g = 8.
Hypothesis Hclosed : table_closed g h.
Hypothesis Hanswer :
  ∀ q, q ∈ nodes g → ∃ r, HasEdges h q false [v] = Ret r.


End Completeness.



(** ** The two lookups by label *)

(** X26.  In a state reached through the API, [GetByLabel] and
    [GetLocatorsByLabel] agree on every label: neither panics; an absent
    label gives [errLabelNotFound] in both and a deleted one [errDeleted]
    in both, with a nil node and the zero locator; and a label that
    resolves gives the node at its index [i] and the locator
    [(i div 8, 1 << (i mod 8))]. *)
Theorem label_lookups_agree (g : ADIGraph) (h : heap) (l : string) :
  reachable (g, h) →
  (labels g !! l = None ∧
   GetByLabel g l = Ret (Failed errLabelNotFound) ∧
   GetLocatorsByLabel g l = Ret (mkLocator 0 0, Some errLabelNotFound)) ∨
  (labels g !! l = Some (-1) ∧
   GetByLabel g l = Ret (Failed errDeleted) ∧
   GetLocatorsByLabel g l = Ret (mkLocator 0 0, Some errDeleted)) ∨
  (∃ i p, labels g !! l = Some i ∧ 0 ≤ i < Size g ∧
          nodes g !! Z.to_nat i = Some p ∧
          GetByLabel g l = Ret (Found p) ∧
          GetLocatorsByLabel g l = Ret (locate 8 i, None)).
Proof.
  intros Hreach. pose proof (reachable_well_formed _ Hreach) as (HW & _ & Hlab & _).
  simpl in *. unfold GetByLabel, GetLocatorsByLabel.
  destruct (labels g !! l) as [i|] eqn:Hl; [|by left].
  destruct (Hlab l i Hl) as [->|Hi]; [right; by left|]. right. right.
  destruct (GetByIndex_in_range g i Hi) as (p & Hp & Hget).
  exists i, p. rewrite Hget, GetLocatorsByIndex_nonneg, HW by lia. done.
Qed.

Lemma label_lookups_agree_witness :
  let g := mkGraph 0 8 [0; 1]%nat (<["b" := 1]> (<["a" := 0]> ∅)) in
  (labels g !! "b" = None ∧
   GetByLabel g "b" = Ret (Failed errLabelNotFound) ∧
   GetLocatorsByLabel g "b" = Ret (mkLocator 0 0, Some errLabelNotFound)) ∨
  (labels g !! "b" = Some (-1) ∧
   GetByLabel g "b" = Ret (Failed errDeleted) ∧
   GetLocatorsByLabel g "b" = Ret (mkLocator 0 0, Some errDeleted)) ∨
  (∃ i p, labels g !! "b" = Some i ∧ 0 ≤ i < Size g ∧
          nodes g !! Z.to_nat i = Some p ∧
          GetByLabel g "b" = Ret (Found p) ∧
          GetLocatorsByLabel g "b" = Ret (locate 8 i, None)).
Proof.
  intros g.
  apply (label_lookups_agree g
           [mkBox "a" "" [2; 0] false; mkBox "b" "" [0; 0] false] "b").
  exists [CallNewBox "a"; CallNewBox "b"; CallAddNode 0; CallAddNode 1;
          CallConnect "a" ["b"]].
  vm_compute. reflexivity.
Defined.
